(** * code_index: a shallow embedding of the chunker, the Merkle tree,
      the hybrid search index and the file watcher.

    Part I embeds the Python sources of [src/code_indexer]:
    - [code_splitter.py]  as module [code_splitter],
    - [merkle_tree.py]    as module [merkle_tree],
    - [hybrid_search.py]  as module [hybrid_search],
    - [watcher.py]        as module [watcher].
    Part II states and proves the properties; Part III proves further
    properties of the same code.

    External collaborators (the tiktoken tokenizer, the tree-sitter parser,
    SHA-256, the embedding models, the searches, the delete and the upsert
    of the Qdrant client) are Section variables: every definition is a
    function of them.

    Conventions:
    - byte strings and texts are both [string], a sequence of bytes;
      encoding to and decoding from UTF-8 is the identity;
    - Python integers are [Z], floats ([time.time()], the fused scores)
      are exact rationals [Q], with [float("inf")] a constructor of its own;
    - a method that mutates its object returns the object after the call;
      a method that can raise returns a [py.result], together with the
      object after the call where callers go on using it;
    - a [dict] is an association list in insertion order, because the code
      iterates over dictionaries and the order of the results depends on
      it; the [set] of pending paths of the watcher is a [gset];
    - paths are lists of names relative to the root path of the index, and
      the directory tree under the root is an argument of every function
      that reads the file system. *)

From Stdlib Require Import ZArith QArith Lqa String Ascii List Permutation.
From stdpp Require Import base tactics option list strings sorting pretty gmap.

Set Warnings "-register-all".

Local Open Scope string_scope.
Local Open Scope list_scope.
Local Open Scope Z_scope.

(* ===================================================================== *)
(** * Part I. The embedding                                               *)
(* ===================================================================== *)

(** ** Python run-time conventions shared by the four modules *)

Module py.

(** The exceptions the modelled code can raise. *)
Inductive exn : Type :=
| MaxChunkLengthExceededError
| ValueError
| IsADirectoryError
| ZeroDivisionError.

(** A computation that returns normally or raises. *)
Inductive result (A : Type) : Type :=
| Ok (a : A)
| Raise (e : exn).
Arguments Ok {A} a.
Arguments Raise {A} e.

Definition bind {A B} (m : result A) (k : A -> result B) : result B :=
  match m with
  | Ok a => k a
  | Raise e => Raise e
  end.

(** Index normalisation of a slice bound on a sequence of length [n]:
    negative bounds count from the end, everything is clamped. *)
Definition clamp (n i : Z) : Z :=
  if i <? 0 then Z.max 0 (n + i) else Z.min i n.

(** [s[a:b]] on a byte string. *)
Definition slice (s : string) (a b : Z) : string :=
  let n := Z.of_nat (String.length s) in
  let lo := clamp n a in
  let hi := clamp n b in
  substring (Z.to_nat lo) (Z.to_nat (hi - lo)) s.

(** [l[a:b]] on a list. *)
Definition slice_list {A} (l : list A) (a b : Z) : list A :=
  let n := Z.of_nat (length l) in
  let lo := clamp n a in
  let hi := clamp n b in
  firstn (Z.to_nat (hi - lo)) (skipn (Z.to_nat lo) l).

Definition LF : ascii := "010"%char.

(** [s.split("\n")]: never empty, the pieces do not contain the newline. *)
Fixpoint split_lines (s : string) : list string :=
  match s with
  | EmptyString => [EmptyString]
  | String c s' =>
      if Ascii.eqb c LF then EmptyString :: split_lines s'
      else match split_lines s' with
           | p :: ps => String c p :: ps
           | [] => [String c EmptyString]
           end
  end.

(** ["\n".join(l)]. *)
Fixpoint join_lines (l : list string) : string :=
  match l with
  | [] => EmptyString
  | [p] => p
  | p :: ps => String.append p (String LF (join_lines ps))
  end.

(** ** Insertion-ordered dictionaries

    A Python [dict] keeps its keys in insertion order; assigning to an
    existing key keeps the key's position. *)
Section dict.
Context {V : Type}.

Fixpoint get (k : string) (d : list (string * V)) : option V :=
  match d with
  | [] => None
  | (k', v) :: d' => if String.eqb k k' then Some v else get k d'
  end.

Fixpoint set (k : string) (v : V) (d : list (string * V)) : list (string * V) :=
  match d with
  | [] => [(k, v)]
  | (k', v') :: d' =>
      if String.eqb k k' then (k, v) :: d' else (k', v') :: set k v d'
  end.

Definition mem (k : string) (d : list (string * V)) : bool :=
  match get k d with Some _ => true | None => false end.

Definition keys (d : list (string * V)) : list string := map fst d.
Definition values (d : list (string * V)) : list V := map snd d.
End dict.

End py.

#[global] Instance result_bind : MBind py.result := fun A B k m => py.bind m k.

(** ** code_splitter.py *)

Module code_splitter.
Import py.

(** [Span]: a slice of a byte string.  The dataclass also has a [metadata]
    dictionary, which no code path reads or writes; it is left out. *)
Record Span : Type := mkSpan { start : Z; end_ : Z }.

(** [Span.extract] *)
Definition extract (sp : Span) (s : string) : string :=
  slice s (start sp) (end_ sp).

(** [Span.extract_lines]: the byte offsets are used as line indices. *)
Definition extract_lines (sp : Span) (s : string) : string :=
  let lines := split_lines s in
  let joined := join_lines (slice_list lines (start sp) (end_ sp)) in
  if end_ sp <? Z.of_nat (length lines) then String.append joined (String LF EmptyString)
  else joined.

(** [Span.__add__] on two spans: [Span(a, b) + Span(c, d) = Span(a, d)]. *)
Definition span_add (a b : Span) : Span := mkSpan (start a) (end_ b).

(** [Span.__len__] *)
Definition span_len (sp : Span) : Z := end_ sp - start sp.

(** The builtin [len(span)]: Python raises [ValueError] when [__len__]
    returns a negative number. *)
Definition len (sp : Span) : result Z :=
  if span_len sp <? 0 then Raise ValueError else Ok (span_len sp).

Record ChunkMetadata : Type := mkChunkMetadata {
  start_line : Z;
  end_line : Z;
  language : string;
  symbols : list string;
  imports : list string
}.

(** A tree-sitter node: its grammar type, its byte range and its children.
    [node.text] is the slice of the source the range denotes. *)
Inductive Node : Type :=
| mkNode (type : string) (start_byte end_byte : Z) (children : list Node).

Definition type (n : Node) : string := let 'mkNode t _ _ _ := n in t.
Definition start_byte (n : Node) : Z := let 'mkNode _ s _ _ := n in s.
Definition end_byte (n : Node) : Z := let 'mkNode _ _ e _ := n in e.
Definition children (n : Node) : list Node := let 'mkNode _ _ _ c := n in c.

(** The constructor arguments of [CodeSplitter] (the token model is the
    Section variable [count] below). *)
Record CodeSplitter : Type := mkCodeSplitter {
  cs_language : string;
  target_chunk_tokens : Z;
  max_chunk_tokens : Z;
  enforce_max_chunk_tokens : bool;
  coalesce : Z
}.

(** [CodeSplitter(language)] with the default arguments. *)
Definition default_splitter (lang : string) : CodeSplitter :=
  mkCodeSplitter lang 300 1000 false 50.

Section splitter.
(** [TokenCounter.count]: the number of tokens the tokenizer of the
    configured model produces for a text. *)
Variable count : string -> Z.
(** tree-sitter's [Node.descendant_for_byte_range]. *)
Variable descendant_for_byte_range : Node -> Z -> Z -> option Node.

Variable self : CodeSplitter.
Variable source_code : string.

(** [TokenCounter.count_chunk] *)
Definition count_chunk (chunk : Span) : Z := count (extract chunk source_code).

Definition text (n : Node) : string :=
  slice source_code (start_byte n) (end_byte n).

(** The first direct child of type [identifier], if any. *)
Fixpoint first_identifier (cs : list Node) : list string :=
  match cs with
  | [] => []
  | c :: cs' =>
      if String.eqb (type c) "identifier" then [text c]
      else first_identifier cs'
  end.

Fixpoint _extract_symbols (node : Node) : list string :=
  match node with
  | mkNode t _ _ cs =>
      (if String.eqb t "function_definition" || String.eqb t "class_definition"
       then first_identifier cs else [])
      ++ flat_map _extract_symbols cs
  end.

Fixpoint _extract_imports (node : Node) : list string :=
  match node with
  | mkNode t sb eb cs =>
      (if String.eqb t "import_statement" then [slice source_code sb eb]
       else if String.eqb t "import_from_statement" then [slice source_code sb eb]
       else [])
      ++ flat_map _extract_imports cs
  end.

Definition over_max (n : Z) : bool :=
  (n >? max_chunk_tokens self) && enforce_max_chunk_tokens self.

(** Pass 1, [chunk_node]: the inner [fix] is the [for child in
    node_children] loop, with the loop variables [chunks] and
    [current_chunk] as accumulators. *)
Fixpoint chunk_node (node : Node) : result (list Span) :=
  match node with
  | mkNode _ sb _ node_children =>
      (fix loop (cs : list Node) (chunks : list Span) (current_chunk : Span)
         {struct cs} : result (list Span) :=
         match cs with
         | [] =>
             let final_chunk_token_len := count_chunk current_chunk in
             if over_max final_chunk_token_len
             then Raise MaxChunkLengthExceededError
             else Ok (chunks ++ [current_chunk])
         | child :: rest =>
             let child_span := mkSpan (start_byte child) (end_byte child) in
             let child_token_len := count_chunk child_span in
             let child_and_current_token_len :=
               count_chunk child_span + count_chunk current_chunk in
             if child_token_len >? target_chunk_tokens self then
               if over_max child_token_len
               then Raise MaxChunkLengthExceededError
               else
                 match chunk_node child with
                 | Raise e => Raise e
                 | Ok sub =>
                     loop rest (chunks ++ [current_chunk] ++ sub)
                          (mkSpan (end_byte child) (end_byte child))
                 end
             else if child_and_current_token_len >? target_chunk_tokens self then
               if over_max child_and_current_token_len
               then Raise MaxChunkLengthExceededError
               else loop rest (chunks ++ [current_chunk]) child_span
             else loop rest chunks (span_add current_chunk child_span)
         end) node_children [] (mkSpan sb sb)
  end.

(** The [for child in node_children] loop of [chunk_node], named. *)
Fixpoint chunk_children (cs : list Node) (chunks : list Span) (current_chunk : Span)
    : result (list Span) :=
  match cs with
  | [] =>
      if over_max (count_chunk current_chunk)
      then Raise MaxChunkLengthExceededError
      else Ok (chunks ++ [current_chunk])
  | child :: rest =>
      let child_span := mkSpan (start_byte child) (end_byte child) in
      if count_chunk child_span >? target_chunk_tokens self then
        if over_max (count_chunk child_span)
        then Raise MaxChunkLengthExceededError
        else
          match chunk_node child with
          | Raise e => Raise e
          | Ok sub =>
              chunk_children rest (chunks ++ [current_chunk] ++ sub)
                (mkSpan (end_byte child) (end_byte child))
          end
      else if count_chunk child_span + count_chunk current_chunk
                >? target_chunk_tokens self then
        if over_max (count_chunk child_span + count_chunk current_chunk)
        then Raise MaxChunkLengthExceededError
        else chunk_children rest (chunks ++ [current_chunk]) child_span
      else chunk_children rest chunks (span_add current_chunk child_span)
  end.

(** [[chunk for chunk in chunks if len(chunk) > 0]] *)
Fixpoint filter_nonempty (chunks : list Span) : result (list Span) :=
  match chunks with
  | [] => Ok []
  | c :: rest =>
      n ← len c;
      kept ← filter_nonempty rest;
      Ok (if n >? 0 then c :: kept else kept)
  end.

(** The [for prev, curr in zip(chunks[:-1], chunks[1:])] loop followed by
    [curr.end = len(source_code)]. *)
Fixpoint align_ends (chunks : list Span) : list Span :=
  match chunks with
  | [] => []
  | [curr] => [mkSpan (start curr) (Z.of_nat (String.length source_code))]
  | prev :: (curr :: _) as rest => mkSpan (start prev) (start curr) :: align_ends rest
  end.

(** "Filling in the gaps": [chunks[0].start = 0], then [align_ends]. *)
Definition fill_gaps (chunks : list Span) : list Span :=
  match chunks with
  | [] => []
  | first :: rest => align_ends (mkSpan 0 (end_ first) :: rest)
  end.

(** "Combining small chunks with bigger ones": the loop, with
    [new_chunks], [aggregated_chunk] and [aggregated_chunk_token_len]
    as accumulators. *)
Fixpoint coalesce_loop (chunks new_chunks : list Span)
    (aggregated_chunk : Span) (aggregated_chunk_token_len : Z)
    : list Span * Span :=
  match chunks with
  | [] => (new_chunks, aggregated_chunk)
  | chunk :: rest =>
      let chunk_token_len := count_chunk chunk in
      if chunk_token_len >? target_chunk_tokens self then
        coalesce_loop rest (new_chunks ++ [aggregated_chunk; chunk])
          (mkSpan (end_ chunk) (end_ chunk)) 0
      else if aggregated_chunk_token_len + chunk_token_len
                >? target_chunk_tokens self then
        coalesce_loop rest (new_chunks ++ [aggregated_chunk])
          (mkSpan (start chunk) (end_ chunk)) chunk_token_len
      else
        let aggregated_chunk := span_add aggregated_chunk chunk in
        let aggregated_chunk_token_len :=
          aggregated_chunk_token_len + chunk_token_len in
        if aggregated_chunk_token_len >? coalesce self then
          coalesce_loop rest (new_chunks ++ [aggregated_chunk])
            (mkSpan (end_ chunk) (end_ chunk)) 0
        else
          coalesce_loop rest new_chunks aggregated_chunk
            aggregated_chunk_token_len
  end.

Definition coalesce_chunks (chunks : list Span) : result (list Span) :=
  let '(new_chunks, aggregated_chunk) :=
    coalesce_loop chunks [] (mkSpan 0 0) 0 in
  n ← len aggregated_chunk;
  Ok (if n >? 0 then new_chunks ++ [aggregated_chunk] else new_chunks).

(** [re.split(b"(?<=\n)", byte_str)]: split after every newline; a final
    newline leaves an empty last piece. *)
Fixpoint split_and_keep_newline (s : string) : list string :=
  match s with
  | EmptyString => [EmptyString]
  | String c s' =>
      if Ascii.eqb c LF then String c EmptyString :: split_and_keep_newline s'
      else match split_and_keep_newline s' with
           | p :: ps => String c p :: ps
           | [] => [String c EmptyString]
           end
  end.

Fixpoint get_line_number_loop (lines : list string)
    (line_number total_chars index : Z) : Z :=
  match lines with
  | [] => line_number - 1
  | line :: rest =>
      let total_chars := total_chars + Z.of_nat (String.length line) in
      if total_chars >? index then line_number - 1
      else match rest with
           | [] => line_number
           | _ => get_line_number_loop rest (line_number + 1) total_chars index
           end
  end.

Definition get_line_number (index : Z) : Z :=
  get_line_number_loop (split_and_keep_newline source_code) 1 0 index.

(** "Extract metadata and create final chunks", one iteration. *)
Definition decorate (tree : Node) (chunk : Span) : Span * ChunkMetadata :=
  let start_line := get_line_number (start chunk) in
  let end_line := get_line_number (end_ chunk) in
  let '(symbols, imports) :=
    match descendant_for_byte_range tree (start chunk) (end_ chunk) with
    | Some chunk_node => (_extract_symbols chunk_node, _extract_imports chunk_node)
    | None => ([], [])
    end in
  (chunk, mkChunkMetadata start_line end_line (cs_language self) symbols imports).

(** Passes 1 to 3 of [chunk_tree] on the two-or-more-chunks path. *)
Definition partition_chunks (chunks : list Span) : result (list Span) :=
  coalesce_chunks (fill_gaps chunks).

(** [CodeSplitter.chunk_tree]; [tree] is [tree.root_node]. *)
Definition chunk_tree (tree : Node) : result (list (Span * ChunkMetadata)) :=
  chunks ← chunk_node tree;
  chunks ← filter_nonempty chunks;
  match chunks with
  | [] => Ok []
  | [only] =>
      n ← len only;
      Ok [(mkSpan 0 n, mkChunkMetadata 0 1 (cs_language self) [] [])]
  | _ =>
      new_chunks ← partition_chunks chunks;
      Ok (map (decorate tree) new_chunks)
  end.

End splitter.

Section split_text.
Variable count : string -> Z.
Variable descendant_for_byte_range : Node -> Z -> Z -> option Node.
(** tree-sitter's [Parser.parse], and whether [parser.so] is present. *)
Variable parse : string -> Node.
Variable parser_built : bool.
Variable self : CodeSplitter.

(** [CodeSplitter._get_language]: only ["python"] is supported, and the
    compiled grammar has to be there.  It returns the grammar handle,
    which the model does not need. *)
Definition _get_language : result unit :=
  if String.eqb (cs_language self) "python" then
    if parser_built then Ok tt else Raise ValueError
  else Raise ValueError.

Definition parses_without_error (tree : Node) : bool :=
  match children tree with
  | [] => true
  | c :: _ => negb (String.eqb (type c) "ERROR")
  end.

(** [CodeSplitter.split_text_with_metadata] *)
Definition split_text_with_metadata (text : string)
    : result (list (string * ChunkMetadata)) :=
  _ ← _get_language;
  let tree := parse text in
  if parses_without_error tree then
    chunks_with_metadata ←
      chunk_tree count descendant_for_byte_range self text tree;
    Ok (map (fun chunk => (extract_lines (fst chunk) text, snd chunk))
            chunks_with_metadata)
  else Raise ValueError.

(** [CodeSplitter.split_text] *)
Definition split_text (text : string) : result (list string) :=
  _ ← _get_language;
  let tree := parse text in
  if parses_without_error tree then
    chunks_with_metadata ←
      chunk_tree count descendant_for_byte_range self text tree;
    Ok (map (fun chunk => extract_lines (fst chunk) text) chunks_with_metadata)
  else Raise ValueError.
End split_text.

End code_splitter.

(** ** merkle_tree.py *)

Module merkle_tree.
Import py.

Inductive MerkleNode : Type :=
| mkMerkleNode (hash_value : string) (is_file : bool)
               (children : list (string * MerkleNode)).

Definition hash_value (n : MerkleNode) : string := let 'mkMerkleNode h _ _ := n in h.
Definition is_file (n : MerkleNode) : bool := let 'mkMerkleNode _ f _ := n in f.
Definition children (n : MerkleNode) : list (string * MerkleNode) :=
  let 'mkMerkleNode _ _ c := n in c.

(** [MerkleNode] with the empty hash, [is_file = False] and no children. *)
Definition new_node : MerkleNode := mkMerkleNode EmptyString false [].

(** The directory tree under [root_path].  The entries of a directory are
    in the order [os.listdir] enumerates them. *)
Inductive FsEntry : Type :=
| FsFile (content : string)
| FsDir (entries : list (string * FsEntry)).

(** A path under the root: the names from the root down to the entry.
    [[]] is the root itself. *)
Abbreviation Path := (list string).

Fixpoint fs_lookup (fs : FsEntry) (p : Path) : option FsEntry :=
  match p with
  | [] => Some fs
  | name :: p' =>
      match fs with
      | FsDir entries =>
          match get name entries with
          | Some e => fs_lookup e p'
          | None => None
          end
      | FsFile _ => None
      end
  end.

(** [os.path.exists(file_path)] *)
Definition exists_ (fs : FsEntry) (p : Path) : bool :=
  match fs_lookup fs p with Some _ => true | None => false end.

(** [os.path.relpath(file_path, self.root_path).split(os.sep)]: the root
    itself is ["."]. *)
Definition path_parts (p : Path) : list string :=
  match p with
  | [] => ["."]
  | _ => p
  end.

Section merkle.
(** [hashlib.sha256(data).hexdigest()] *)
Variable sha256_hex : string -> string.

(** [compute_file_hash], on the bytes [open(file_path, 'rb')] reads. *)
Definition compute_file_hash (content : string) : string := sha256_hex content.

Definition compute_directory_hash (children_hashes : list string) : string :=
  let combined := String.concat EmptyString (merge_sort String.le children_hashes) in
  sha256_hex combined.

(** [_build_node(path, node)]: [e] is what is at [path]; the result is
    [node] after the call, whose [hash_value] is the value returned. *)
Fixpoint _build_node (e : FsEntry) (node : MerkleNode) : MerkleNode :=
  match e with
  | FsFile content =>
      mkMerkleNode (compute_file_hash content) true (children node)
  | FsDir entries =>
      let '(node_children, children_hashes) :=
        (fix loop (items : list (string * FsEntry))
             (node_children : list (string * MerkleNode))
             (children_hashes : list string) {struct items} :=
           match items with
           | [] => (node_children, children_hashes)
           | (item, sub) :: rest =>
               let child_node := _build_node sub new_node in
               loop rest (set item child_node node_children)
                    (children_hashes ++ [hash_value child_node])
           end) entries (children node) [] in
      mkMerkleNode (compute_directory_hash children_hashes) (is_file node)
                   node_children
  end.

(** The [for item in os.listdir(path)] loop of [_build_node], named. *)
Fixpoint build_children (items : list (string * FsEntry))
    (node_children : list (string * MerkleNode))
    (children_hashes : list string)
    : list (string * MerkleNode) * list string :=
  match items with
  | [] => (node_children, children_hashes)
  | (item, sub) :: rest =>
      let child_node := _build_node sub new_node in
      build_children rest (set item child_node node_children)
        (children_hashes ++ [hash_value child_node])
  end.

(** [MerkleTree(root_path)]: a new root, then [build_tree]. *)
Definition build_tree (fs : FsEntry) : MerkleNode := _build_node fs new_node.

(** [set(node1.children.keys()) | set(node2.children.keys())].  Python
    leaves the iteration order of a set open; the model takes the keys
    of [node1] first. *)
Definition all_children (node1 node2 : MerkleNode) : list string :=
  keys (children node1)
  ++ filter (fun k => negb (mem k (children node1))) (keys (children node2)).

Definition child_or_sentinel (name : string) (node : MerkleNode) : MerkleNode :=
  match get name (children node) with
  | Some c => c
  | None => new_node
  end.

(** [_compare_nodes]: the paths appended to [changes], in order.  The
    recursion descends into the children of both nodes, so it is
    driven by a depth bound; [None] means the bound was too small. *)
Fixpoint _compare_nodes (depth : nat) (path : Path) (node1 node2 : MerkleNode)
    : option (list Path) :=
  match depth with
  | O => None
  | S depth' =>
      if negb (String.eqb (hash_value node1) (hash_value node2)) then
        if is_file node1 then Some [path]
        else
          (fix each (names : list string) : option (list Path) :=
             match names with
             | [] => Some []
             | child :: rest =>
                 match _compare_nodes depth' (path ++ [child])
                         (child_or_sentinel child node1)
                         (child_or_sentinel child node2) with
                 | None => None
                 | Some here =>
                     match each rest with
                     | None => None
                     | Some there => Some (here ++ there)
                     end
                 end
             end) (all_children node1 node2)
      else Some []
  end.

Fixpoint height (n : MerkleNode) : nat :=
  match n with
  | mkMerkleNode _ _ cs =>
      fold_right (fun c h => Nat.max (S (height (snd c))) h) O cs
  end.

(** [get_changes]: paths are relative to [root_path]. *)
Definition get_changes (self other : MerkleNode) : option (list Path) :=
  _compare_nodes (S (Nat.max (height self) (height other))) [] self other.

(** Walk down [parts] from [node], creating an empty [MerkleNode] for every
    missing name on the way, and replace the node reached by [f] of it. *)
Fixpoint at_path (parts : list string) (f : MerkleNode -> MerkleNode)
    (node : MerkleNode) : MerkleNode :=
  match parts with
  | [] => f node
  | part :: rest =>
      mkMerkleNode (hash_value node) (is_file node)
        (set part (at_path rest f (child_or_sentinel part node)) (children node))
  end.

Definition children_hashes_of (node : MerkleNode) : list string :=
  map hash_value (values (children node)).

(** [_update_parent_hashes(path_parts, node)] *)
Fixpoint _update_parent_hashes (path_parts : list string) (node : MerkleNode)
    : MerkleNode :=
  match path_parts with
  | [] => node
  | part :: rest =>
      match get part (children node) with
      | None => node
      | Some current_node =>
          let current_node :=
            mkMerkleNode (compute_directory_hash (children_hashes_of current_node))
                         (is_file current_node) (children current_node) in
          mkMerkleNode (hash_value node) (is_file node)
            (set part (_update_parent_hashes rest current_node) (children node))
      end
  end.

(** [update_file(file_path)]: the tree after the call, and how the call
    ended.  [compute_file_hash] fails on a directory, after the nodes on
    the path have been created. *)
Definition update_file (fs : FsEntry) (file_path : Path) (root : MerkleNode)
    : MerkleNode * result unit :=
  match fs_lookup fs file_path with
  | None => (root, Ok tt)
  | Some entry =>
      let parts := path_parts file_path in
      let root := at_path parts (fun n => n) root in
      match entry with
      | FsDir _ => (root, Raise IsADirectoryError)
      | FsFile content =>
          let root :=
            at_path parts
              (fun file_node =>
                 mkMerkleNode (compute_file_hash content) true (children file_node))
              root in
          (_update_parent_hashes (removelast parts) root, Ok tt)
      end
  end.

Fixpoint node_at (parts : list string) (node : MerkleNode) : option MerkleNode :=
  match parts with
  | [] => Some node
  | part :: rest =>
      match get part (children node) with
      | None => None
      | Some current_node => node_at rest current_node
      end
  end.

(** [get_node_hash(file_path)] *)
Definition get_node_hash (fs : FsEntry) (file_path : Path) (root : MerkleNode)
    : option string :=
  if negb (exists_ fs file_path) then None
  else
    match node_at (path_parts file_path) root with
    | None => None
    | Some current_node => Some (hash_value current_node)
    end.

(** [_collect_files] and [get_all_files] *)
Fixpoint _collect_files (path : Path) (node : MerkleNode) : list Path :=
  match node with
  | mkMerkleNode _ f cs =>
      if f then [path]
      else flat_map (fun c => _collect_files (path ++ [fst c]) (snd c)) cs
  end.

Definition get_all_files (root : MerkleNode) : list Path := _collect_files [] root.

End merkle.
End merkle_tree.

(** ** hybrid_search.py *)

Module hybrid_search.
Import py.
Import code_splitter.
Import merkle_tree.

(** [os.path.splitext(name)[1]] on a file name: the suffix from the last
    dot on, unless only dots precede that dot. *)
Fixpoint last_dot_suffix (s : string) : option string :=
  match s with
  | EmptyString => None
  | String c s' =>
      match last_dot_suffix s' with
      | Some e => Some e
      | None => if Ascii.eqb c "."%char then Some (String c s') else None
      end
  end.

Fixpoint strip_leading_dots (s : string) : string :=
  match s with
  | String c s' => if Ascii.eqb c "."%char then strip_leading_dots s' else s
  | EmptyString => EmptyString
  end.

Definition splitext_ext (name : string) : string :=
  match last_dot_suffix (strip_leading_dots name) with
  | Some e => e
  | None => EmptyString
  end.

(** The extension of the file a path names; the root's own name is not
    part of the model. *)
Definition extension (file_path : Path) : string :=
  splitext_ext (List.last file_path EmptyString).

(** [os.path.relpath(file_path, self.root_path)] as a string. *)
Definition relpath (file_path : Path) : string :=
  String.concat "/" (path_parts file_path).

Section index.
(** The collaborators: tokenizer, parser, hash, the table of
    [constants.py], the two embedding models and the two nearest
    neighbour searches of the vector store. *)
Variable count : string -> Z.
Variable descendant_for_byte_range : Node -> Z -> Z -> option Node.
Variable parse : string -> Node.
Variable parser_built : bool.
Variable sha256_hex : string -> string.
Variable EXTENSION_TO_TREE_SITTER_LANGUAGE : list (string * string).
Context {SparseVector DenseVector : Type}.
Variable sparse_embed : string -> SparseVector.
Variable dense_embed : string -> DenseVector.

Record Payload : Type := mkPayload {
  path : string;
  hash : option string;
  chunk_text : string;
  metadata : ChunkMetadata
}.

Record PointStruct : Type := mkPointStruct {
  id : string;
  payload : Payload;
  text_sparse : SparseVector;
  text_dense : DenseVector
}.

(** [client.search_batch]: one ranked list per request. *)
Variable search_dense : list PointStruct -> DenseVector -> Z -> list PointStruct.
Variable search_sparse : list PointStruct -> SparseVector -> Z -> list PointStruct.

(** [client.delete("code-index", points_selector={"must": [{"key": "path",
    "match": {"value": v}}]})] and [client.upsert("code-index", points)]:
    the collection as the client leaves it, and how the call ended.  The
    client is the library's; the code hands it a plain dictionary as the
    selector and strings as point ids, and catches nothing it raises. *)
Variable client_delete :
  string -> list PointStruct -> list PointStruct * result unit.
Variable client_upsert :
  list PointStruct -> list PointStruct -> list PointStruct * result unit.

(** The attributes of a [HybridCodeSearch]; [client] is the content of
    the collection ["code-index"]. *)
Record HybridCodeSearch : Type := mkHybridCodeSearch {
  merkle_tree : MerkleNode;
  code_splitters : list (string * CodeSplitter);
  client : list PointStruct
}.

(** [HybridCodeSearch(root_path)] *)
Definition init (fs : FsEntry) : HybridCodeSearch :=
  mkHybridCodeSearch (build_tree sha256_hex fs) [] [].

(** *** Reciprocal rank fusion *)

Inductive Rank : Type :=
| Finite (n : Z)
| Infinity.

Record RankItem : Type := mkRankItem {
  result_ : PointStruct;
  dense_rank : Rank;
  sparse_rank : Rank
}.

(** [1 / (alpha + rank)]; [1 / inf] is [0.0]. *)
Definition reciprocal (alpha : Q) (r : Rank) : result Q :=
  match r with
  | Infinity => Ok 0%Q
  | Finite n =>
      let d := (alpha + inject_Z n)%Q in
      if Qeq_bool d 0 then Raise ZeroDivisionError else Ok (1 / d)%Q
  end.

(** [for rank, result in enumerate(dense_results, 1)] *)
Fixpoint dense_pass (rank : Z) (results : list PointStruct)
    (ranks : list (string * RankItem)) : list (string * RankItem) :=
  match results with
  | [] => ranks
  | r :: rest =>
      dense_pass (rank + 1) rest
        (match get (id r) ranks with
         | None => set (id r) (mkRankItem r (Finite rank) Infinity) ranks
         | Some item =>
             set (id r) (mkRankItem (result_ item) (Finite rank) (sparse_rank item)) ranks
         end)
  end.

(** [for rank, result in enumerate(sparse_results, 1)] *)
Fixpoint sparse_pass (rank : Z) (results : list PointStruct)
    (ranks : list (string * RankItem)) : list (string * RankItem) :=
  match results with
  | [] => ranks
  | r :: rest =>
      sparse_pass (rank + 1) rest
        (match get (id r) ranks with
         | None => set (id r) (mkRankItem r Infinity (Finite rank)) ranks
         | Some item =>
             set (id r) (mkRankItem (result_ item) (dense_rank item) (Finite rank)) ranks
         end)
  end.

Definition rrf_score (alpha : Q) (item : RankItem) : result Q :=
  d ← reciprocal alpha (dense_rank item);
  s ← reciprocal alpha (sparse_rank item);
  Ok (d + s)%Q.

Fixpoint score_all (alpha : Q) (items : list RankItem)
    : result (list (PointStruct * Q)) :=
  match items with
  | [] => Ok []
  | item :: rest =>
      rrf ← rrf_score alpha item;
      others ← score_all alpha rest;
      Ok ((result_ item, rrf) :: others)
  end.

(** [sorted(..., key=lambda x: x[1], reverse=True)]: descending and
    stable, elements with equal scores keep their order. *)
Fixpoint insert_desc (x : PointStruct * Q) (l : list (PointStruct * Q))
    : list (PointStruct * Q) :=
  match l with
  | [] => [x]
  | y :: l' => if Qle_bool (snd y) (snd x) then x :: l else y :: insert_desc x l'
  end.

Definition sorted_desc (l : list (PointStruct * Q)) : list (PointStruct * Q) :=
  fold_right insert_desc [] l.

(** [_combine_results(dense_results, sparse_results, alpha)] *)
Definition _combine_results (dense_results sparse_results : list PointStruct)
    (alpha : Q) : result (list (PointStruct * Q)) :=
  let ranks := dense_pass 1 dense_results [] in
  let ranks := sparse_pass 1 sparse_results ranks in
  results_with_scores ← score_all alpha (values ranks);
  Ok (sorted_desc results_with_scores).

Record SearchHit : Type := mkSearchHit {
  hit_path : string;
  hit_score : Q;
  hit_hash : option string
}.

(** [search(query, limit)] *)
Definition search (query : string) (limit : Z) (self : HybridCodeSearch)
    : result (list SearchHit) :=
  let query_sparse := sparse_embed query in
  let query_dense := dense_embed query in
  let dense_results := search_dense (client self) query_dense limit in
  let sparse_results := search_sparse (client self) query_sparse limit in
  combined_results ← _combine_results dense_results sparse_results 60;
  Ok (map (fun rs => mkSearchHit (path (payload (fst rs))) (snd rs)
                                 (hash (payload (fst rs))))
          combined_results).

(** [_get_code_splitter]: the cache after the call and the splitter. *)
Definition _get_code_splitter (file_path : Path)
    (code_splitters : list (string * CodeSplitter))
    : list (string * CodeSplitter) * result CodeSplitter :=
  let ext := extension file_path in
  match get ext EXTENSION_TO_TREE_SITTER_LANGUAGE with
  | None => (code_splitters, Raise ValueError)
  | Some language =>
      match get language code_splitters with
      | Some splitter => (code_splitters, Ok splitter)
      | None =>
          let splitter := default_splitter language in
          (set language splitter code_splitters, Ok splitter)
      end
  end.

(** The splitter [_get_code_splitter] hands out for a language. *)
Definition splitter_for (language : string) (self : HybridCodeSearch) : CodeSplitter :=
  match get language (code_splitters self) with
  | Some splitter => splitter
  | None => default_splitter language
  end.

(** The point built for chunk number [chunk_idx] of a file. *)
Definition make_point (fs : FsEntry) (file_path : Path) (tree : MerkleNode)
    (chunk_idx : nat) (chunk : string * ChunkMetadata) : PointStruct :=
  let relative_path := relpath file_path in
  mkPointStruct
    (String.append relative_path (String.append "_" (pretty chunk_idx)))
    (mkPayload relative_path (get_node_hash fs file_path tree) (fst chunk) (snd chunk))
    (sparse_embed (fst chunk))
    (dense_embed (fst chunk)).

(** [update_index(file_path)]: the object after the call and how the
    call ended. *)
Definition update_index (fs : FsEntry) (file_path : Path) (self : HybridCodeSearch)
    : HybridCodeSearch * result unit :=
  if negb (exists_ fs file_path) then (self, Ok tt)
  else if negb (mem (extension file_path) EXTENSION_TO_TREE_SITTER_LANGUAGE)
  then (self, Ok tt)
  else
    let '(cache, got) := _get_code_splitter file_path (code_splitters self) in
    match got with
    | Raise e => (mkHybridCodeSearch (merkle_tree self) cache (client self), Raise e)
    | Ok splitter =>
        let '(tree, updated) := update_file sha256_hex fs file_path (merkle_tree self) in
        match updated, fs_lookup fs file_path with
        | Ok _, Some (FsFile content) =>
            match split_text_with_metadata count descendant_for_byte_range
                    parse parser_built splitter content with
            | Raise e => (mkHybridCodeSearch tree cache (client self), Raise e)
            | Ok chunks =>
                let '(store, deleted) :=
                  client_delete (relpath file_path) (client self) in
                match deleted with
                | Raise e => (mkHybridCodeSearch tree cache store, Raise e)
                | Ok _ =>
                    let points := imap (make_point fs file_path tree) chunks in
                    match points with
                    | [] => (mkHybridCodeSearch tree cache store, Ok tt)
                    | _ =>
                        let '(store, upserted) := client_upsert points store in
                        (mkHybridCodeSearch tree cache store, upserted)
                    end
                end
            end
        | Raise e, _ => (mkHybridCodeSearch tree cache (client self), Raise e)
        | Ok _, _ => (mkHybridCodeSearch tree cache (client self), Raise IsADirectoryError)
        end
    end.

(** The point [index_files] builds for chunk number [chunk_idx] of the
    file with ordinal [idx]. *)
Definition make_bulk_point (fs : FsEntry) (tree : MerkleNode) (idx : nat)
    (file_path : Path) (chunk_idx : nat) (chunk : string * ChunkMetadata)
    : PointStruct :=
  let relative_path := relpath file_path in
  mkPointStruct
    (String.append (pretty idx) (String.append "_" (pretty chunk_idx)))
    (mkPayload relative_path (get_node_hash fs file_path tree) (fst chunk) (snd chunk))
    (sparse_embed (fst chunk))
    (dense_embed (fst chunk)).

(** The [for idx, file_path in enumerate(files)] loop of [index_files]:
    the splitter cache and the list [points] after the loop.  Whatever a
    file raises (the file gone or not a regular file, the chunking) is
    printed and the loop goes on with the next file. *)
Fixpoint index_loop (fs : FsEntry) (tree : MerkleNode) (idx : nat)
    (files : list Path) (cache : list (string * CodeSplitter))
    (points : list PointStruct)
    : list (string * CodeSplitter) * list PointStruct :=
  match files with
  | [] => (cache, points)
  | file_path :: rest =>
      if negb (mem (extension file_path) EXTENSION_TO_TREE_SITTER_LANGUAGE)
      then index_loop fs tree (S idx) rest cache points
      else
        let '(cache, got) := _get_code_splitter file_path cache in
        match got, fs_lookup fs file_path with
        | Ok splitter, Some (FsFile content) =>
            match split_text_with_metadata count descendant_for_byte_range
                    parse parser_built splitter content with
            | Ok chunks =>
                index_loop fs tree (S idx) rest cache
                  (points ++ imap (make_bulk_point fs tree idx file_path) chunks)
            | Raise _ => index_loop fs tree (S idx) rest cache points
            end
        | _, _ => index_loop fs tree (S idx) rest cache points
        end
  end.

(** [index_files()]: the object after the call and how the call ended.
    The upload of the points comes after the loop, outside its [try]. *)
Definition index_files (fs : FsEntry) (self : HybridCodeSearch)
    : HybridCodeSearch * result unit :=
  let files := get_all_files (merkle_tree self) in
  let '(cache, points) :=
    index_loop fs (merkle_tree self) 0 files (code_splitters self) [] in
  match points with
  | [] => (mkHybridCodeSearch (merkle_tree self) cache (client self), Ok tt)
  | _ =>
      let '(store, upserted) := client_upsert points (client self) in
      (mkHybridCodeSearch (merkle_tree self) cache store, upserted)
  end.

End index.

Arguments Payload : clear implicits.
Arguments PointStruct : clear implicits.
Arguments RankItem : clear implicits.
Arguments HybridCodeSearch : clear implicits.

End hybrid_search.

(** ** watcher.py *)

Module watcher.
Import py.
Import merkle_tree.

(** A watchdog event; [dest_path] is only read for a move. *)
Record FileSystemEvent : Type := mkEvent {
  is_directory : bool;
  src_path : Path;
  dest_path : Path
}.

Section handler.
(** The searcher the handler drives: its state and its [update_index],
    on the file system as it is when the call is made. *)
Context {Searcher : Type}.
Variable update_index : FsEntry -> Path -> Searcher -> Searcher * result unit.
Variable EXTENSION_TO_TREE_SITTER_LANGUAGE : list (string * string).

(** The attributes of a [CodeIndexEventHandler].  Times are the values
    of [time.time()], in seconds. *)
Record CodeIndexEventHandler : Type := mkHandler {
  searcher : Searcher;
  pending_updates : gset Path;
  _debounce_timer : option Q;
  _debounce_delay : Q
}.

(** [CodeIndexEventHandler(searcher)] *)
Definition init (s : Searcher) : CodeIndexEventHandler :=
  mkHandler s ∅ None 1%Q.

Definition _should_process_file (file_path : Path) : bool :=
  mem (hybrid_search.extension file_path) EXTENSION_TO_TREE_SITTER_LANGUAGE.

(** The loop of [_process_updates] over the pending paths: the searcher
    after the calls, and the paths [update_index] was invoked on, in
    order.  An exception of a call is printed and dropped. *)
Fixpoint update_each (fs : FsEntry) (paths : list Path) (s : Searcher)
    : Searcher * list Path :=
  match paths with
  | [] => (s, [])
  | file_path :: rest =>
      let '(s', _) := update_index fs file_path s in
      let '(s'', calls) := update_each fs rest s' in
      (s'', file_path :: calls)
  end.

(** [_process_updates]: the handler after the call and the invocations
    of [update_index] it made. *)
Definition _process_updates (fs : FsEntry) (self : CodeIndexEventHandler)
    : CodeIndexEventHandler * list Path :=
  let '(s, calls) := update_each fs (elements (pending_updates self)) (searcher self) in
  (mkHandler s ∅ (_debounce_timer self) (_debounce_delay self), calls).

Definition flush_due (current_time : Q) (self : CodeIndexEventHandler) : bool :=
  match _debounce_timer self with
  | None => true
  | Some timer => Qle_bool (_debounce_delay self) (current_time - timer)
  end.

(** [_schedule_update(file_path)], with [current_time = time.time()]. *)
Definition _schedule_update (fs : FsEntry) (current_time : Q) (file_path : Path)
    (self : CodeIndexEventHandler) : CodeIndexEventHandler * list Path :=
  let self := mkHandler (searcher self) ({[file_path]} ∪ pending_updates self)
                        (_debounce_timer self) (_debounce_delay self) in
  if flush_due current_time self then
    let '(self, calls) := _process_updates fs self in
    (mkHandler (searcher self) (pending_updates self) (Some current_time)
               (_debounce_delay self), calls)
  else (self, []).

Definition on_created (fs : FsEntry) (current_time : Q) (event : FileSystemEvent)
    (self : CodeIndexEventHandler) : CodeIndexEventHandler * list Path :=
  if is_directory event then (self, [])
  else if _should_process_file (src_path event)
  then _schedule_update fs current_time (src_path event) self
  else (self, []).

Definition on_modified (fs : FsEntry) (current_time : Q) (event : FileSystemEvent)
    (self : CodeIndexEventHandler) : CodeIndexEventHandler * list Path :=
  if is_directory event then (self, [])
  else if _should_process_file (src_path event)
  then _schedule_update fs current_time (src_path event) self
  else (self, []).

Definition on_deleted (fs : FsEntry) (current_time : Q) (event : FileSystemEvent)
    (self : CodeIndexEventHandler) : CodeIndexEventHandler * list Path :=
  (self, []).

Definition on_moved (fs : FsEntry) (current_time : Q) (event : FileSystemEvent)
    (self : CodeIndexEventHandler) : CodeIndexEventHandler * list Path :=
  if is_directory event then (self, [])
  else if _should_process_file (dest_path event)
  then _schedule_update fs current_time (dest_path event) self
  else (self, []).

(** [FileSystemEventHandler.dispatch] of watchdog: the method called for
    an event is chosen by [event.event_type]. *)
Inductive EventType : Type := created | modified | deleted | moved.

Definition dispatch (event_type : EventType) (fs : FsEntry) (current_time : Q)
    (event : FileSystemEvent) (self : CodeIndexEventHandler)
    : CodeIndexEventHandler * list Path :=
  match event_type with
  | created => on_created fs current_time event self
  | modified => on_modified fs current_time event self
  | deleted => on_deleted fs current_time event self
  | moved => on_moved fs current_time event self
  end.

(** An event as it reaches the handler: its type, the directory tree and
    the clock at that moment. *)
Record Delivery : Type := mkDelivery {
  event_type : EventType;
  disk : FsEntry;
  clock : Q;
  delivered : FileSystemEvent
}.

(** The handler after a sequence of events, and all the invocations of
    [update_index] they caused, in order. *)
Fixpoint deliver_all (events : list Delivery) (self : CodeIndexEventHandler)
    : CodeIndexEventHandler * list Path :=
  match events with
  | [] => (self, [])
  | d :: rest =>
      let '(self, calls) :=
        dispatch (event_type d) (disk d) (clock d) (delivered d) self in
      let '(self, later) := deliver_all rest self in
      (self, calls ++ later)
  end.

End handler.

Arguments CodeIndexEventHandler : clear implicits.

#[global] Instance EventType_eq_dec : EqDecision EventType.
Proof. solve_decision. Defined.

End watcher.

(** ** Stand-ins for the collaborators, and the inputs of the scenarios

    The theorems of Part II hold for every tokenizer, parser and hash
    function.  To run the code on a concrete input they are instantiated
    with the simple functions below. *)

Module scenario.
Import py.
Import code_splitter.
Import merkle_tree.

(** A tokenizer that makes one token of every byte. *)
Definition byte_count (s : string) : Z := Z.of_nat (String.length s).

(** The descent of tree-sitter's [descendant_for_byte_range]: go into the
    first child that ends at or after the end of the range and after its
    start, as long as that child starts at or before the range. *)
Fixpoint ts_descendant (n : Node) (lo hi : Z) : Node :=
  match n with
  | mkNode _ _ _ cs =>
      (fix pick (l : list Node) : Node :=
         match l with
         | [] => n
         | c :: r =>
             if (end_byte c <? hi) || (end_byte c <=? lo) then pick r
             else if lo <? start_byte c then n
             else ts_descendant c lo hi
         end) cs
  end.

Definition ts_descendant_for_byte_range (n : Node) (lo hi : Z) : option Node :=
  Some (ts_descendant n lo hi).

(** A digest that keeps its input readable: distinct inputs have distinct
    digests. *)
Definition tag_digest (s : string) : string :=
  String.append "<" (String.append s ">").

Definition leaf (t : string) (s e : Z) : Node := mkNode t s e [].

(** [b"import os\nimport sys\n"], the same without the last newline, and
    the parse tree of the former. *)
Definition imports_text : string :=
  String.append "import os" (String LF "import sys").
Definition imports_source : string :=
  String.append imports_text (String LF EmptyString).

Definition imports_tree : Node :=
  mkNode "module" 0 21
    [ mkNode "import_statement" 0 9
        [ leaf "import" 0 6;
          mkNode "dotted_name" 7 9 [leaf "identifier" 7 9] ];
      mkNode "import_statement" 10 20
        [ leaf "import" 10 16;
          mkNode "dotted_name" 17 20 [leaf "identifier" 17 20] ] ].

(** A buffer of one newline: the root of its parse tree has no children. *)
Definition blank_source : string := String LF EmptyString.
Definition blank_tree : Node := mkNode "module" 0 1 [].

(** [b"abc       def"]: two expression statements seven spaces apart, and
    a splitter with small budgets that enforces the maximum. *)
Definition gap_source : string := "abc       def".
Definition gap_tree : Node :=
  mkNode "module" 0 13
    [ mkNode "expression_statement" 0 3 [leaf "identifier" 0 3];
      mkNode "expression_statement" 10 13 [leaf "identifier" 10 13] ].
Definition strict_splitter : CodeSplitter := mkCodeSplitter "python" 4 6 true 50.
Definition loose_splitter : CodeSplitter := mkCodeSplitter "python" 4 6 false 50.

(** Directory trees. *)
Definition one_file (content : string) : FsEntry := FsDir [("x", FsFile content)].
Definition empty_dir : FsEntry := FsDir [].

Definition project : FsEntry :=
  FsDir [ ("a", FsDir [("x", FsFile "1"); ("y", FsFile "2")]);
          ("b", FsDir [("z", FsFile "3")]) ].
Definition project_listed_otherwise : FsEntry :=
  FsDir [ ("b", FsDir [("z", FsFile "3")]);
          ("a", FsDir [("y", FsFile "2"); ("x", FsFile "1")]) ].

(** A project with one Python module, before and after an edit; the table
    of [constants.py] reduced to Python; a parser that reports a syntax
    error for every text; embedding models whose vectors carry nothing. *)
Definition module_before : FsEntry := FsDir [("m.py", FsFile "import os")].
Definition module_after : FsEntry := FsDir [("m.py", FsFile "import")].
Definition python_only : list (string * string) := [(".py", "python")].
Definition failing_parse (text : string) : Node :=
  mkNode "module" 0 0 [leaf "ERROR" 0 0].
Definition no_vector (text : string) : unit := tt.

(** A project whose one Python module is [imports_source], and a parser
    that knows the parse tree of that module. *)
Definition module_imports : FsEntry := FsDir [("m.py", FsFile imports_source)].
Definition parse_imports (text : string) : Node := imports_tree.

(** A store with two points, and searches that rank it from the front
    (dense) and from the back (sparse). *)
Definition point_a : hybrid_search.PointStruct unit unit :=
  hybrid_search.mkPointStruct "a.py_0"
    (hybrid_search.mkPayload "a.py" (Some "<1>") "x = 1"
       (mkChunkMetadata 0 1 "python" [] [])) tt tt.
Definition point_b : hybrid_search.PointStruct unit unit :=
  hybrid_search.mkPointStruct "b.py_0"
    (hybrid_search.mkPayload "b.py" (Some "<2>") "y = 2"
       (mkChunkMetadata 0 1 "python" [] [])) tt tt.
Definition two_points : hybrid_search.HybridCodeSearch unit unit :=
  hybrid_search.mkHybridCodeSearch new_node [] [point_a; point_b].
Definition from_front (store : list (hybrid_search.PointStruct unit unit))
    (query : unit) (limit : Z) : list (hybrid_search.PointStruct unit unit) :=
  firstn (Z.to_nat limit) store.
Definition from_back (store : list (hybrid_search.PointStruct unit unit))
    (query : unit) (limit : Z) : list (hybrid_search.PointStruct unit unit) :=
  firstn (Z.to_nat limit) (rev store).

(** A client that refuses what the code hands it, leaving the collection
    as it is: a dictionary is not a selector it knows, and an id such as
    ["0_0"] or ["m.py_0"] is neither an unsigned integer nor a UUID. *)
Definition refusing_delete (value : string)
    (store : list (hybrid_search.PointStruct unit unit))
    : list (hybrid_search.PointStruct unit unit) * result unit :=
  (store, Raise ValueError).
Definition refusing_upsert
    (points store : list (hybrid_search.PointStruct unit unit))
    : list (hybrid_search.PointStruct unit unit) * result unit :=
  (store, Raise ValueError).

(** A searcher without state whose [update_index] always returns. *)
Definition idle_update (fs : FsEntry) (file_path : Path) (s : unit)
    : unit * result unit := (s, Ok tt).

(** A searcher that is the list of the paths [update_index] has been
    invoked on, oldest first. *)
Definition recording_update (fs : FsEntry) (file_path : Path) (s : list Path)
    : list Path * result unit := (s ++ [file_path], Ok tt).

End scenario.


(** ** The vocabulary of the properties *)

Module props.
Import py.
Import code_splitter.
Import merkle_tree.

(** Two directory trees with the same contents, whatever the order in
    which their directories list their entries. *)
Inductive same_contents : FsEntry -> FsEntry -> Prop :=
| same_file content : same_contents (FsFile content) (FsFile content)
| same_dir es1 es2 : same_entries es1 es2 -> same_contents (FsDir es1) (FsDir es2)
with same_entries : list (string * FsEntry) -> list (string * FsEntry) -> Prop :=
| same_nil : same_entries [] []
| same_cons name e1 e2 es1 es2 :
    same_contents e1 e2 -> same_entries es1 es2 ->
    same_entries ((name, e1) :: es1) ((name, e2) :: es2)
| same_swap x y es : same_entries (x :: y :: es) (y :: x :: es)
| same_trans es1 es2 es3 :
    same_entries es1 es2 -> same_entries es2 es3 -> same_entries es1 es3.

(** No directory lists the same name twice. *)
Fixpoint names_distinct (fs : FsEntry) : Prop :=
  match fs with
  | FsFile _ => True
  | FsDir entries =>
      NoDup (keys entries)
      /\ (fix each (l : list (string * FsEntry)) : Prop :=
            match l with
            | [] => True
            | e :: r => names_distinct (snd e) /\ each r
            end) entries
  end.

(** The byte ranges of the children of a node follow each other inside
    [lo, hi], and each child is a forward range. *)
Fixpoint in_order (lo hi : Z) (cs : list Node) : bool :=
  match cs with
  | [] => lo <=? hi
  | c :: r =>
      (lo <=? start_byte c) && (start_byte c <=? end_byte c)
      && in_order (end_byte c) hi r
  end.

(** A parse tree as tree-sitter makes them: in every node the children lie
    inside the node, in order and without overlap. *)
Fixpoint well_formed (n : Node) : bool :=
  match n with
  | mkNode _ sb eb cs => in_order sb eb cs && forallb well_formed cs
  end.

(** The spans follow each other inside [lo, hi]; gaps are allowed. *)
Fixpoint ordered (lo hi : Z) (l : list Span) : Prop :=
  match l with
  | [] => lo <= hi
  | s :: r => lo <= start s /\ start s <= end_ s /\ ordered (end_ s) hi r
  end.

(** The spans, in order, cover [lo, hi) exactly: the first starts at [lo],
    each one ends where the next starts, the last ends at [hi]. *)
Fixpoint covers (lo hi : Z) (l : list Span) : Prop :=
  match l with
  | [] => lo = hi
  | s :: r => start s = lo /\ start s <= end_ s /\ covers (end_ s) hi r
  end.

Definition nonempty (s : Span) : Prop := 0 < span_len s.

#[global] Instance nonempty_dec s : Decision (nonempty s).
Proof. unfold nonempty. apply _. Defined.

Scheme same_contents_mut := Minimality for same_contents Sort Prop
  with same_entries_mut := Minimality for same_entries Sort Prop.

(** *** Texts, lines and parse trees *)

(** The number of newline bytes of a text. *)
Fixpoint newlines (s : string) : nat :=
  match s with
  | EmptyString => O
  | String c s' => if Ascii.eqb c LF then S (newlines s') else newlines s'
  end.

(** The first [k] bytes of a text. *)
Definition first_bytes (k : nat) (s : string) : string := substring 0 k s.

(** A node and everything below it, parents before children, children
    from left to right. *)
Fixpoint descendants (n : Node) : list Node :=
  match n with
  | mkNode _ _ _ cs => n :: flat_map descendants cs
  end.

Definition is_import (n : Node) : bool :=
  String.eqb (type n) "import_statement"
  || String.eqb (type n) "import_from_statement".

Definition is_definition (n : Node) : bool :=
  String.eqb (type n) "function_definition"
  || String.eqb (type n) "class_definition".

(** *** Directory trees and Merkle trees *)

(** The regular files of a directory tree, as paths from its root, in
    listing order. *)
Fixpoint fs_files (prefix : Path) (fs : FsEntry) : list Path :=
  match fs with
  | FsFile _ => [prefix]
  | FsDir entries =>
      flat_map (fun e => fs_files (prefix ++ [fst e]) (snd e)) entries
  end.

(** Every directory node below and including [n] carries the directory
    hash of the hashes of its current children. *)
Fixpoint hashes_consistent (sha256_hex : string -> string) (n : MerkleNode) : Prop :=
  match n with
  | mkMerkleNode h f cs =>
      (f = false -> h = compute_directory_hash sha256_hex (map hash_value (values cs)))
      /\ (fix each (l : list (string * MerkleNode)) : Prop :=
            match l with
            | [] => True
            | c :: r => hashes_consistent sha256_hex (snd c) /\ each r
            end) cs
  end.

(** The node at a position of a tree: a node is at [[]] below itself, and
    the node at [name :: rest] is the node at [rest] below the child its
    dictionary has for [name]. *)
Inductive position : list string -> MerkleNode -> MerkleNode -> Prop :=
| position_here node : position [] node node
| position_below name rest node child reached :
    get name (children node) = Some child ->
    position rest child reached ->
    position (name :: rest) node reached.

(** The hash [_compare_nodes] reads in a tree at a path: the hash of the
    node at the path, or the empty hash of the stand-in node when a name
    on the way is missing. *)
Definition hash_at (parts : list string) (node : MerkleNode) : string :=
  match node_at parts node with
  | Some reached => hash_value reached
  | None => EmptyString
  end.

(** *** Reciprocal rank fusion, as the specification words it *)

Section fusion_vocabulary.
Import hybrid_search.
Context {SparseVector DenseVector : Type}.
Implicit Types results : list (PointStruct SparseVector DenseVector).

(** The rank of a point id in a result list, counted from [n]: the
    position of the first result with that id, or infinity. *)
Fixpoint rank_from (n : Z) (ident : string) results : Rank :=
  match results with
  | [] => Infinity
  | r :: rest =>
      if String.eqb (id r) ident then Finite n else rank_from (n + 1) ident rest
  end.

Definition rank_of (ident : string) results : Rank := rank_from 1 ident results.

Definition rrf_term (alpha : Q) (r : Rank) : Q :=
  match r with
  | Infinity => 0
  | Finite n => 1 / (alpha + inject_Z n)
  end.

(** [1/(alpha + r_dense) + 1/(alpha + r_sparse)] *)
Definition rrf (alpha : Q) (r_dense r_sparse : Rank) : Q :=
  (rrf_term alpha r_dense + rrf_term alpha r_sparse)%Q.

(** The dictionary [ranks] holds the fusion of the result lists [dense]
    and [sparse]: one entry per id seen in either list, with the result
    carrying that id and the rank of the id in each list. *)
Definition fused (dense sparse : list (PointStruct SparseVector DenseVector))
    (ranks : list (string * RankItem SparseVector DenseVector)) : Prop :=
  NoDup (keys ranks)
  /\ (forall k item, get k ranks = Some item ->
        id (result_ item) = k
        /\ dense_rank item = rank_of k dense
        /\ sparse_rank item = rank_of k sparse)
  /\ (forall k, k ∈ keys ranks <-> k ∈ map id dense \/ k ∈ map id sparse)
  /\ (length ranks <= length dense + length sparse)%nat.

(** A rank as [enumerate(results, 1)] hands them out, or infinity. *)
Definition from_one (r : Rank) : Prop :=
  match r with
  | Finite n => 1 <= n
  | Infinity => True
  end.

(** An entry of the dictionary with its fused score for [alpha = 60]. *)
Definition scored (item : RankItem SparseVector DenseVector)
    : PointStruct SparseVector DenseVector * Q :=
  (result_ item, rrf 60 (dense_rank item) (sparse_rank item)).

(** Descending by score. *)
Definition by_score_desc (x y : PointStruct SparseVector DenseVector * Q) : Prop :=
  (snd y <= snd x)%Q.

End fusion_vocabulary.

(** *** Point ids *)

(** An id [index_files] makes: the number of the file, an underscore, the
    number of the chunk. *)
Definition numbered_id (s : string) : Prop :=
  exists i j : nat, s = String.append (pretty i) (String.append "_" (pretty j)).

(** *** Invocations of [update_index] *)

Section invocations.
Context {Searcher : Type}.
Variable update_index : FsEntry -> Path -> Searcher -> Searcher * result unit.

(** The searcher after [update_index] has been invoked for every entry of
    a list in turn, each on the directory tree it comes with; what an
    invocation returns or raises is dropped. *)
Definition invoke_all (trace : list (FsEntry * Path)) (s : Searcher) : Searcher :=
  fold_left (fun s call => fst (update_index (fst call) (snd call) s)) trace s.

(** The same for paths that share a directory tree. *)
Definition invoke_each (fs : FsEntry) (paths : list Path) (s : Searcher) : Searcher :=
  invoke_all (map (fun file_path => (fs, file_path)) paths) s.

End invocations.

(** *** Events *)

(** The path an event makes the handler look at: the destination of a
    move, the source of everything else. *)
Definition target (d : watcher.Delivery) : Path :=
  match watcher.event_type d with
  | watcher.moved => watcher.dest_path (watcher.delivered d)
  | _ => watcher.src_path (watcher.delivered d)
  end.

End props.

(* ===================================================================== *)
(** * Part II. Properties                                                 *)
(* ===================================================================== *)

Import py code_splitter merkle_tree scenario props.

(** ** Dictionaries *)

Section dict_facts.
Context {V : Type}.
Implicit Types (d : list (string * V)) (k : string) (v : V).

Lemma get_set_eq k v d : get k (set k v d) = Some v.
Proof.
  induction d as [|[k' v'] d IH]; simpl.
  - by rewrite String.eqb_refl.
  - destruct (String.eqb k k') eqn:E; simpl; rewrite ?String.eqb_refl, ?E; auto.
Qed.

Lemma get_set_ne k k' v d : k <> k' -> get k' (set k v d) = get k' d.
Proof.
  intros Hne. induction d as [|[k0 v0] d IH]; simpl.
  - destruct (String.eqb k' k) eqn:E; [apply String.eqb_eq in E; congruence|done].
  - destruct (String.eqb k k0) eqn:E; simpl.
    + apply String.eqb_eq in E; subst k0.
      destruct (String.eqb k' k) eqn:E'; [apply String.eqb_eq in E'; congruence|done].
    + by rewrite IH.
Qed.
Lemma get_None k d : get k d = None <-> k ∉ keys d.
Proof.
  induction d as [|[k' v'] d IH]; simpl.
  - split; [intros _ H; inversion H|done].
  - rewrite not_elem_of_cons. destruct (String.eqb k k') eqn:E.
    + apply String.eqb_eq in E. split; [done|]. by intros [? _].
    + apply String.eqb_neq in E. rewrite IH. tauto.
Qed.

Lemma get_Some_elem k v d : get k d = Some v -> (k, v) ∈ d.
Proof.
  induction d as [|[k' v'] d IH]; simpl; [done|].
  destruct (String.eqb k k') eqn:E.
  - apply String.eqb_eq in E. intros [= ->]. subst. left.
  - intros H. right. auto.
Qed.

Lemma elem_get k v d : NoDup (keys d) -> (k, v) ∈ d -> get k d = Some v.
Proof.
  induction d as [|[k' v'] d IH]; simpl; intros Hnd Hin; [by inversion Hin|].
  apply NoDup_cons in Hnd as [Hk' Hnd].
  apply elem_of_cons in Hin as [[= -> ->]|Hin].
  - by rewrite String.eqb_refl.
  - destruct (String.eqb k k') eqn:E; [|auto].
    apply String.eqb_eq in E. subst k'. destruct Hk'.
    change (k ∈ fst <$> d). apply list_elem_of_fmap. by exists (k, v).
Qed.

Lemma keys_set k v d :
  keys (set k v d) = if mem k d then keys d else keys d ++ [k].
Proof.
  unfold mem. induction d as [|[k' v'] d IH]; simpl; [done|].
  destruct (String.eqb k k') eqn:E; simpl.
  - apply String.eqb_eq in E. by subst.
  - rewrite IH. by destruct (get k d).
Qed.

Lemma length_set k v d :
  length (set k v d) = if mem k d then length d else S (length d).
Proof.
  unfold mem. induction d as [|[k' v'] d IH]; simpl; [done|].
  destruct (String.eqb k k') eqn:E; simpl; [done|].
  rewrite IH. by destruct (get k d).
Qed.

Lemma NoDup_keys_set k v d : NoDup (keys d) -> NoDup (keys (set k v d)).
Proof.
  intros Hnd. rewrite keys_set. unfold mem.
  destruct (get k d) eqn:E; [done|].
  apply NoDup_app. split; [done|]. split; [|apply NoDup_singleton].
  intros x Hx ->%list_elem_of_singleton. by apply get_None in E.
Qed.

Lemma elem_keys_set k v d x : x ∈ keys (set k v d) <-> x = k \/ x ∈ keys d.
Proof.
  rewrite keys_set. unfold mem. destruct (get k d) eqn:E.
  - split; [auto|]. intros [->|]; [|done].
    apply get_Some_elem in E. change (k ∈ fst <$> d).
    apply list_elem_of_fmap. by exists (k, v0).
  - rewrite elem_of_app, list_elem_of_singleton. tauto.
Qed.

End dict_facts.

(** ** merkle_tree.py *)

Section merkle_facts.
Variable sha256_hex : string -> string.

Local Abbreviation build := (_build_node sha256_hex).
Local Abbreviation dir_hash := (compute_directory_hash sha256_hex).

Lemma _build_node_dir entries node :
  build (FsDir entries) node =
  let '(node_children, children_hashes) :=
    build_children sha256_hex entries (children node) [] in
  mkMerkleNode (dir_hash children_hashes) (is_file node) node_children.
Proof.
  simpl.
  match goal with
  | |- (let '(_, _) := ?loop _ _ _ in _) = _ =>
      assert (Hloop : forall items ch hs,
                 loop items ch hs = build_children sha256_hex items ch hs)
  end.
  { induction items as [|[item sub] rest IH]; intros ch hs; simpl; [done|].
    apply IH. }
  by rewrite Hloop.
Qed.

Lemma build_children_hashes entries ch hs :
  snd (build_children sha256_hex entries ch hs) =
  hs ++ map (fun e => hash_value (build (snd e) new_node)) entries.
Proof.
  revert ch hs. induction entries as [|[item sub] rest IH]; intros ch hs.
  - simpl. by rewrite app_nil_r.
  - cbn [build_children]. rewrite IH. cbn [map snd]. by rewrite <- app_assoc.
Qed.

(** The hash [_build_node] returns for a directory is the directory hash
    of the hashes it returns for the entries, in listing order. *)
Lemma build_dir_hash entries node :
  hash_value (build (FsDir entries) node) =
  dir_hash (map (fun e => hash_value (build (snd e) new_node)) entries).
Proof.
  rewrite _build_node_dir.
  pose proof (build_children_hashes entries (children node) []) as H.
  destruct (build_children sha256_hex entries (children node) []) as [c h].
  simpl in *. by rewrite H.
Qed.

Lemma build_file_hash content node :
  hash_value (build (FsFile content) node) = sha256_hex content.
Proof. reflexivity. Qed.

Lemma build_hash_any_node e node node' :
  hash_value (build e node) = hash_value (build e node').
Proof. destruct e; [done|]. by rewrite !build_dir_hash. Qed.

(** Sorting makes the directory hash a function of the multiset of the
    children's hashes. *)
Lemma compute_directory_hash_perm l1 l2 :
  l1 ≡ₚ l2 -> dir_hash l1 = dir_hash l2.
Proof.
  intros Hp. unfold compute_directory_hash. do 2 f_equal.
  apply (Sorted_unique String.le).
  - apply Sorted_merge_sort, _.
  - apply Sorted_merge_sort, _.
  - by rewrite !merge_sort_Permutation.
Qed.

Lemma same_contents_hash e1 e2 :
  same_contents e1 e2 ->
  hash_value (build e1 new_node) = hash_value (build e2 new_node).
Proof.
  revert e1 e2.
  apply (same_contents_mut
    (fun e1 e2 => hash_value (build e1 new_node) = hash_value (build e2 new_node))
    (fun es1 es2 =>
       map (fun e => hash_value (build (snd e) new_node)) es1
       ≡ₚ map (fun e => hash_value (build (snd e) new_node)) es2)).
  - reflexivity.
  - intros es1 es2 _ Hp. rewrite !build_dir_hash.
    by apply compute_directory_hash_perm.
  - reflexivity.
  - intros name e1 e2 es1 es2 _ He _ Hes. cbn [map snd]. rewrite He.
    by constructor.
  - intros x y es. cbn [map]. apply perm_swap.
  - intros es1 es2 es3 _ H12 _ H23. by etrans.
Qed.

(** C7.  Two builds over directory trees with the same contents give the
    same root hash, whatever the order in which the entries of each
    directory are listed, and whatever the two root nodes held before:
    the hash of a directory is the SHA-256 of the concatenation of its
    children's hashes in sorted order. *)
Theorem build_tree_deterministic fs1 fs2 :
  same_contents fs1 fs2 ->
  hash_value (build_tree sha256_hex fs1) = hash_value (build_tree sha256_hex fs2)
  /\ (forall node1 node2,
        hash_value (build fs1 node1) = hash_value (build fs2 node2))
  /\ (forall entries,
        hash_value (build_tree sha256_hex (FsDir entries)) =
        sha256_hex (String.concat EmptyString
          (merge_sort String.le
             (map (fun e => hash_value (build_tree sha256_hex (snd e))) entries)))).
Proof.
  intros Hsame. split; [by apply same_contents_hash|]. split.
  - intros node1 node2.
    rewrite (build_hash_any_node fs1 node1 new_node),
            (build_hash_any_node fs2 node2 new_node).
    by apply same_contents_hash.
  - intros entries. unfold build_tree. by rewrite build_dir_hash.
Qed.

Lemma path_parts_nonempty (p : Path) : path_parts p <> [].
Proof. by destruct p. Qed.

Lemma at_path_hash parts f node :
  parts <> [] -> hash_value (at_path parts f node) = hash_value node.
Proof. by destruct parts. Qed.

Lemma _update_parent_hashes_hash parts node :
  hash_value (_update_parent_hashes sha256_hex parts node) = hash_value node.
Proof. destruct parts; simpl; [done|]. by destruct (get _ _). Qed.

(** [update_file] never writes the hash of the root node: the loop of
    [_update_parent_hashes] recomputes the hash of a node only after
    stepping down into it. *)
Lemma update_file_keeps_root_hash fs file_path root :
  hash_value (fst (update_file sha256_hex fs file_path root)) = hash_value root.
Proof.
  unfold update_file. pose proof (path_parts_nonempty file_path) as Hne.
  destruct (fs_lookup fs file_path) as [[content|entries]|]; simpl; [| |done].
  - by rewrite _update_parent_hashes_hash, !at_path_hash.
  - by rewrite at_path_hash.
Qed.

(** C2, at the failing input: a directory with the single file [x], whose
    content changes from [old] to [new].  After [update_file] the leaf
    carries the hash of [new], but the root still carries the hash built
    from [old]; a new build carries the hash built from [new]. *)
Theorem update_file_root_hash_stale (old new : string) :
  let built := build_tree sha256_hex (one_file old) in
  let updated := fst (update_file sha256_hex (one_file new) ["x"] built) in
  get_node_hash (one_file new) ["x"] updated = Some (sha256_hex new)
  /\ hash_value updated = sha256_hex (sha256_hex old)
  /\ hash_value updated = hash_value built
  /\ hash_value (build_tree sha256_hex (one_file new)) = sha256_hex (sha256_hex new).
Proof. repeat split. Qed.

(** Below the root the ancestors are rehashed from the top down, so only
    the directory that holds the file ends with a hash of its current
    children: in [d/e/x], [d] is rehashed from the old hash of [e]. *)
Lemma update_file_rehashes_top_down (old new : string) :
  let nested c := FsDir [("d", FsDir [("e", FsDir [("x", FsFile c)])])] in
  let updated :=
    fst (update_file sha256_hex (nested new) ["d"; "e"; "x"]
           (build_tree sha256_hex (nested old))) in
  get_node_hash (nested new) ["d"; "e"] updated
    = Some (sha256_hex (sha256_hex new))
  /\ get_node_hash (nested new) ["d"] updated
    = Some (sha256_hex (sha256_hex (sha256_hex old))).
Proof. split; reflexivity. Qed.

(** *** [get_changes] *)

Lemma height_child name node child :
  get name (children node) = Some child -> (height child < height node)%nat.
Proof.
  destruct node as [h f cs]. simpl.
  induction cs as [|[k c] cs IH]; simpl; [done|].
  destruct (String.eqb name k); intros Hget.
  - injection Hget as ->. lia.
  - specialize (IH Hget). lia.
Qed.

Lemma mem_keys {V} name (d : list (string * V)) :
  In name (keys d) -> exists v, get name d = Some v.
Proof.
  induction d as [|[k v] d IH]; simpl; [done|].
  intros [->|Hin].
  - rewrite String.eqb_refl. eauto.
  - destruct (String.eqb name k); eauto.
Qed.

Lemma height_child_or_sentinel name node depth :
  (height node <= depth)%nat -> (0 < depth)%nat ->
  (height (child_or_sentinel name node) < depth)%nat.
Proof.
  intros Hh Hd. unfold child_or_sentinel.
  destruct (get name (children node)) as [c|] eqn:Hget.
  - apply height_child in Hget. lia.
  - simpl. lia.
Qed.

Lemma all_children_height name node1 node2 :
  In name (all_children node1 node2) ->
  (0 < Nat.max (height node1) (height node2))%nat.
Proof.
  unfold all_children. rewrite in_app_iff. intros [Hin|Hin].
  - apply mem_keys in Hin as [c Hc]. apply height_child in Hc. lia.
  - apply list_elem_of_In, list_elem_of_filter in Hin as [_ Hin].
    apply list_elem_of_In, mem_keys in Hin as [c Hc]. apply height_child in Hc. lia.
Qed.

(** The depth bound [get_changes] starts from is enough: the comparison
    always returns a list. *)
Lemma _compare_nodes_total depth path node1 node2 :
  (height node1 < depth)%nat -> (height node2 < depth)%nat ->
  exists changes, _compare_nodes depth path node1 node2 = Some changes.
Proof.
  revert path node1 node2.
  induction depth as [|depth IH]; intros path node1 node2 H1 H2; [lia|].
  simpl. destruct (negb _); [|eauto]. destruct (is_file node1); [eauto|].
  assert (Hnames : forall name, In name (all_children node1 node2) ->
            (0 < depth)%nat).
  { intros name Hin. apply all_children_height in Hin. lia. }
  induction (all_children node1 node2) as [|name names IHn]; [eauto|].
  destruct (IH (path ++ [name]) (child_or_sentinel name node1)
               (child_or_sentinel name node2)) as [here ->].
  - apply height_child_or_sentinel; [lia|]. apply (Hnames name). by left.
  - apply height_child_or_sentinel; [lia|]. apply (Hnames name). by left.
  - destruct IHn as [there ->]; [|eauto].
    intros n Hin. apply (Hnames n). by right.
Qed.

Lemma get_changes_total (self other : MerkleNode) :
  exists changes, get_changes self other = Some changes.
Proof. apply _compare_nodes_total; lia. Qed.

(** C3, at the failing input: [self] is built over an empty directory and
    [other] over the same directory with one file added.  The file is a
    file of [other], the two root hashes are compared, and [get_changes]
    returns no path: the sentinel standing for the missing child on the
    left is not a file node, and has no children to descend into. *)
Theorem get_changes_misses_added_file (name content : string) :
  let self := build_tree sha256_hex empty_dir in
  let other := build_tree sha256_hex (FsDir [(name, FsFile content)]) in
  get_all_files self = []
  /\ get_all_files other = [[name]]
  /\ get_changes self other = Some [].
Proof.
  repeat split. unfold get_changes. simpl.
  destruct (negb _); [|done].
  unfold child_or_sentinel, all_children. simpl.
  rewrite !String.eqb_refl. simpl.
  by destruct (negb _).
Qed.

(** The same two trees the other way round: the file node is on the left
    and its path is reported unless the hashes collide. *)
Lemma get_changes_reports_removed_file (name content : string) :
  let self := build_tree sha256_hex (FsDir [(name, FsFile content)]) in
  let other := build_tree sha256_hex empty_dir in
  hash_value self <> hash_value other -> sha256_hex content <> EmptyString ->
  get_changes self other = Some [[name]].
Proof.
  intros self other Hroot Hleaf. unfold get_changes. simpl.
  destruct (String.eqb _ _) eqn:E; [apply String.eqb_eq in E; by destruct Hroot|].
  unfold child_or_sentinel, all_children. simpl. rewrite !String.eqb_refl. simpl.
  destruct (String.eqb (sha256_hex content) EmptyString) eqn:E';
    [apply String.eqb_eq in E'; by destruct Hleaf|].
  unfold compute_file_hash. by rewrite E'.
Qed.

(** *** [get_node_hash] *)

Lemma node_at_position parts :
  forall node reached,
    node_at parts node = Some reached <-> position parts node reached.
Proof.
  induction parts as [|name rest IH]; intros node reached; cbn [node_at].
  - split; [intros [= <-]; constructor|]. intros H. by inversion H.
  - split.
    + destruct (get name (merkle_tree.children node)) as [child|] eqn:Hget; [|done].
      intros H. econstructor; [exact Hget|by apply IH].
    + intros H. inversion H as [|? ? ? child ? Hget Hrest]; subst.
      rewrite Hget. by apply IH.
Qed.

(** C8, as amended.  For a path below the root, [get_node_hash] returns
    the hash stored at the position of the tree that corresponds to the
    path, provided the path exists on the file system now and the tree has
    that position; it returns nothing exactly when the path does not exist
    on the file system or the tree does not have the position.  So the
    result depends on the file system as well as on the tree: for one and
    the same tree, the hash is returned while the path is on disk and
    nothing once it is gone. *)
Theorem get_node_hash_spec fs file_path root :
  file_path <> [] ->
  (forall h, get_node_hash fs file_path root = Some h <->
     exists_ fs file_path = true /\
     exists node, position file_path root node /\ hash_value node = h)
  /\ (get_node_hash fs file_path root = None <->
       exists_ fs file_path = false
       \/ forall node, ~ position file_path root node)
  /\ (forall gone node,
        position file_path root node ->
        exists_ fs file_path = true -> exists_ gone file_path = false ->
        get_node_hash fs file_path root = Some (hash_value node)
        /\ get_node_hash gone file_path root = None).
Proof.
  intros Hbelow.
  assert (Hparts : path_parts file_path = file_path) by (by destruct file_path).
  assert (Hget : forall disk,
            get_node_hash disk file_path root
            = if exists_ disk file_path
              then option_map hash_value (node_at file_path root)
              else None).
  { intros disk. unfold get_node_hash. rewrite Hparts.
    destruct (exists_ disk file_path); [|done].
    by destruct (node_at file_path root). }
  split; [|split].
  - intros h. rewrite Hget. split.
    + destruct (exists_ fs file_path); [|done].
      destruct (node_at file_path root) as [node|] eqn:Hnode; [|done].
      intros [= <-]. split; [done|]. exists node. split; [|done].
      by apply node_at_position.
    + intros [-> (node & Hnode & <-)]. apply node_at_position in Hnode.
      by rewrite Hnode.
  - rewrite Hget. split.
    + destruct (exists_ fs file_path); [|by left].
      destruct (node_at file_path root) as [node|] eqn:Hnode; [done|].
      intros _. right. intros node Hpos. apply node_at_position in Hpos.
      congruence.
    + intros [->|Hnone]; [done|]. destruct (exists_ fs file_path); [|done].
      destruct (node_at file_path root) as [node|] eqn:Hnode; [|done].
      destruct (Hnone node). by apply node_at_position.
  - intros gone node Hpos Hthere Hgone. rewrite !Hget, Hthere, Hgone.
    apply node_at_position in Hpos. by rewrite Hpos.
Qed.

Lemma build_children_get entries name :
  NoDup (keys entries) ->
  forall ch hs,
    get name (fst (build_children sha256_hex entries ch hs)) =
    match get name entries with
    | Some sub => Some (build sub new_node)
    | None => get name ch
    end.
Proof.
  induction entries as [|[item sub] rest IH]; intros Hnd ch hs; [done|].
  cbn [keys map fst] in Hnd. apply NoDup_cons in Hnd as [Hitem Hnd].
  cbn [build_children get]. rewrite (IH Hnd).
  destruct (String.eqb name item) eqn:E.
  - apply String.eqb_eq in E. subst item.
    apply get_None in Hitem. by rewrite Hitem, get_set_eq.
  - apply String.eqb_neq in E. destruct (get name rest); [done|].
    by rewrite get_set_ne.
Qed.

Lemma names_distinct_entry entries name sub :
  names_distinct (FsDir entries) -> get name entries = Some sub ->
  names_distinct sub.
Proof.
  intros [_ Hall]. induction entries as [|[k e] rest IH]; simpl; [done|].
  destruct Hall as [He Hrest]. destruct (String.eqb name k).
  - by intros [= <-].
  - by apply IH.
Qed.

(** In a tree just built, the node at a path that exists in the directory
    tree is the node built for the entry at that path. *)
Lemma node_at_build fs path entry :
  names_distinct fs -> fs_lookup fs path = Some entry ->
  node_at path (build_tree sha256_hex fs) = Some (build entry new_node).
Proof.
  unfold build_tree. revert fs.
  induction path as [|name rest IH]; intros fs Hwf; simpl.
  - by intros [= <-].
  - destruct fs as [content|entries]; [done|].
    destruct (get name entries) as [sub|] eqn:Hsub; [|done]. intros Hlookup.
    rewrite _build_node_dir.
    pose proof (build_children_get entries name (proj1 Hwf) [] []) as Hget.
    destruct (build_children sha256_hex entries (merkle_tree.children new_node) [])
      as [c h] eqn:Hb.
    change (merkle_tree.children new_node) with (@nil (string * MerkleNode)) in Hb.
    rewrite Hb in Hget. simpl in Hget. rewrite Hsub in Hget.
    cbn [merkle_tree.children]. rewrite Hget.
    apply IH; [|done]. by eapply names_distinct_entry.
Qed.

(** On the tree built from the directory tree that is still on disk,
    [get_node_hash] returns the hash built for every entry below the root. *)
Lemma get_node_hash_after_build fs path entry :
  names_distinct fs -> path <> [] -> fs_lookup fs path = Some entry ->
  get_node_hash fs path (build_tree sha256_hex fs)
  = Some (hash_value (build entry new_node)).
Proof.
  intros Hwf Hne Hlookup. unfold get_node_hash, exists_. rewrite Hlookup. simpl.
  replace (path_parts path) with path by (by destruct path).
  by rewrite (node_at_build fs path entry).
Qed.

End merkle_facts.

(** The root itself: its relative path is ["."], which names no child, so
    nothing is returned for it although the root node has a hash. *)
Lemma get_node_hash_of_root :
  get_node_hash project [] (build_tree tag_digest project) = None.
Proof. reflexivity. Qed.

(** C8 as stated fails: the tree built when [x] existed still has a node
    for [x], and once [x] is gone from the file system [get_node_hash]
    returns nothing for it. *)
Lemma get_node_hash_needs_file_on_disk :
  let root := build_tree tag_digest (one_file "old") in
  node_at ["x"] root = Some (mkMerkleNode "<old>" true [])
  /\ get_node_hash empty_dir ["x"] root = None.
Proof. split; reflexivity. Qed.

Lemma get_node_hash_spec_witness :
  let root := build_tree tag_digest project in
  (forall h, get_node_hash project ["a"; "x"] root = Some h <->
     exists_ project ["a"; "x"] = true /\
     exists node, position ["a"; "x"] root node /\ hash_value node = h)
  /\ (get_node_hash project ["a"; "x"] root = None <->
       exists_ project ["a"; "x"] = false
       \/ forall node, ~ position ["a"; "x"] root node)
  /\ (forall gone node,
        position ["a"; "x"] root node ->
        exists_ project ["a"; "x"] = true -> exists_ gone ["a"; "x"] = false ->
        get_node_hash project ["a"; "x"] root = Some (hash_value node)
        /\ get_node_hash gone ["a"; "x"] root = None).
Proof.
  intros root.
  apply (get_node_hash_spec project ["a"; "x"] root). discriminate.
Defined.

Lemma project_same_contents : same_contents project project_listed_otherwise.
Proof.
  apply same_dir.
  eapply same_trans; [|apply same_swap].
  apply same_cons; [|apply same_cons; [|apply same_nil]].
  - apply same_dir, same_swap.
  - apply same_dir, same_cons; [apply same_file|apply same_nil].
Qed.

Lemma build_tree_deterministic_witness :
  same_contents project project_listed_otherwise
  /\ hash_value (build_tree tag_digest project)
     = hash_value (build_tree tag_digest project_listed_otherwise).
Proof.
  split; [exact project_same_contents|].
  exact (proj1 (build_tree_deterministic tag_digest project
                  project_listed_otherwise project_same_contents)).
Defined.

(** ** code_splitter.py *)

Lemma Node_nested_ind (P : Node -> Prop) :
  (forall t sb eb cs, Forall P cs -> P (mkNode t sb eb cs)) ->
  forall n, P n.
Proof.
  intros H.
  refine (fix IH (n : Node) : P n :=
            match n with
            | mkNode t sb eb cs =>
                H t sb eb cs
                  ((fix go (l : list Node) : Forall P l :=
                      match l with
                      | [] => @List.Forall_nil _ P
                      | c :: r => @List.Forall_cons _ P c r (IH c) (go r)
                      end) cs)
            end).
Qed.

Section order_facts.

Lemma ordered_bounds lo hi l : ordered lo hi l -> lo <= hi.
Proof.
  revert lo. induction l as [|s r IH]; simpl; intros lo H; [done|].
  destruct H as (? & ? & Hr). apply IH in Hr. lia.
Qed.

Lemma ordered_weaken lo lo' hi hi' l :
  lo' <= lo -> hi <= hi' -> ordered lo hi l -> ordered lo' hi' l.
Proof.
  revert lo lo'. induction l as [|s r IH]; simpl; intros lo lo' ? ? H; [lia|].
  destruct H as (? & ? & Hr). repeat split; [lia|lia|].
  apply (IH (end_ s)); [lia|lia|done].
Qed.

Lemma ordered_app lo mid hi l1 l2 :
  ordered lo mid l1 -> ordered mid hi l2 -> ordered lo hi (l1 ++ l2).
Proof.
  revert lo. induction l1 as [|s r IH]; simpl; intros lo H1 H2.
  - apply (ordered_weaken mid lo hi hi); [lia|lia|done].
  - destruct H1 as (? & ? & Hr). repeat split; [lia|lia|]. by apply IH.
Qed.

Lemma ordered_single lo hi s :
  lo <= start s -> start s <= end_ s -> end_ s <= hi -> ordered lo hi [s].
Proof. simpl. lia. Qed.

Lemma covers_app lo mid hi l1 l2 :
  covers lo mid l1 -> covers mid hi l2 -> covers lo hi (l1 ++ l2).
Proof.
  revert lo. induction l1 as [|s r IH]; simpl; intros lo H1 H2.
  - by subst.
  - destruct H1 as (? & ? & Hr). repeat split; [done|done|]. by apply IH.
Qed.

Lemma covers_bounds lo hi l : covers lo hi l -> lo <= hi.
Proof.
  revert lo. induction l as [|s r IH]; simpl; intros lo H; [lia|].
  destruct H as (? & ? & Hr). apply IH in Hr. lia.
Qed.

(** Dropping the empty spans of a cover leaves a cover. *)
Lemma covers_filter_nonempty lo hi l :
  covers lo hi l -> covers lo hi (filter nonempty l).
Proof.
  revert lo. induction l as [|s r IH]; simpl; intros lo H; [done|].
  destruct H as (Hs & Hle & Hr). apply IH in Hr.
  rewrite filter_cons. destruct (decide (nonempty s)) as [Hn|Hn]; simpl.
  - done.
  - unfold nonempty, span_len in Hn.
    assert (end_ s = lo) as <- by lia. done.
Qed.

Lemma ordered_filter_nonempty lo hi l :
  ordered lo hi l -> ordered lo hi (filter nonempty l).
Proof.
  revert lo. induction l as [|s r IH]; simpl; intros lo H; [done|].
  destruct H as (Hs & Hle & Hr). apply IH in Hr.
  rewrite filter_cons. destruct (decide (nonempty s)); simpl.
  - done.
  - apply (ordered_weaken (end_ s) lo hi hi); [lia|lia|done].
Qed.

End order_facts.

Section splitter_facts.
Variable count : string -> Z.
Variable descendant_for_byte_range : Node -> Z -> Z -> option Node.
Variable self : CodeSplitter.
Variable source_code : string.

Local Abbreviation buffer_len := (Z.of_nat (String.length source_code)).
Local Abbreviation pass1 := (chunk_node count self source_code).
Local Abbreviation pass1_loop := (chunk_children count self source_code).

Lemma chunk_node_eq node :
  pass1 node =
  pass1_loop (code_splitter.children node) [] (mkSpan (start_byte node) (start_byte node)).
Proof.
  destruct node as [t sb eb cs]. simpl.
  match goal with
  | |- ?loop cs [] _ = _ =>
      assert (Hloop : forall l chunks cur, loop l chunks cur = pass1_loop l chunks cur)
  end.
  { induction l as [|c r IH]; intros chunks cur; [done|].
    cbn [chunk_children].
    destruct (_ >? _).
    - destruct (over_max _ _); [done|]. destruct (chunk_node _ _ _ c); [apply IH|done].
    - destruct (_ >? _); [|apply IH]. destruct (over_max _ _); [done|apply IH]. }
  apply Hloop.
Qed.

Lemma well_formed_range node :
  well_formed node = true -> start_byte node <= end_byte node.
Proof.
  destruct node as [t sb eb cs]. simpl. intros [Hin _]%andb_prop.
  revert sb Hin. induction cs as [|c r IH]; simpl; intros sb Hin; [lia|].
  apply andb_prop in Hin as [[? ?]%andb_prop Hr]. apply IH in Hr. lia.
Qed.

(** The loop of [chunk_node] keeps its chunks in order: what has been
    emitted ends before the current chunk starts, and the current chunk
    ends before the next child starts. *)
Lemma chunk_children_ordered cs :
  Forall (fun c => well_formed c = true -> forall l,
            pass1 c = Ok l -> ordered (start_byte c) (end_byte c) l) cs ->
  forall chunks current lo hi l,
    ordered lo (start current) chunks ->
    start current <= end_ current ->
    in_order (end_ current) hi cs = true ->
    forallb well_formed cs = true ->
    pass1_loop cs chunks current = Ok l ->
    ordered lo hi l.
Proof.
  induction 1 as [|c r Hc _ IH]; intros chunks current lo hi l Hch Hcur Hin Hwf.
  - cbn [chunk_children]. destruct (over_max _ _); [done|]. intros [= <-].
    simpl in Hin. apply Z.leb_le in Hin.
    apply (ordered_app lo (start current)); [done|].
    apply ordered_single; lia.
  - cbn [in_order forallb] in Hin, Hwf.
    apply andb_prop in Hin as [[Hlo%Z.leb_le Hce%Z.leb_le]%andb_prop Hin].
    apply andb_prop in Hwf as [Hwc Hwf].
    cbn [chunk_children].
    destruct (_ >? _).
    + destruct (over_max _ _); [done|].
      destruct (pass1 c) as [sub|] eqn:Hsub; [|done].
      apply IH; [|simpl; lia|done|done].
      apply (ordered_app lo (start current)); [done|].
      apply (ordered_app _ (start_byte c)); [apply ordered_single; lia|].
      by apply Hc.
    + destruct (_ >? _).
      * destruct (over_max _ _); [done|].
        apply IH; [|simpl; lia|done|done].
        apply (ordered_app lo (start current)); [done|].
        apply ordered_single; simpl; lia.
      * apply IH; [done|simpl; lia|done|done].
Qed.

(** Pass 1 on a well-formed node: the chunks follow each other inside the
    byte range of the node. *)
Lemma chunk_node_ordered node l :
  well_formed node = true -> pass1 node = Ok l ->
  ordered (start_byte node) (end_byte node) l.
Proof.
  intros Hwf. revert l. revert Hwf.
  induction node as [t sb eb cs IH] using Node_nested_ind.
  intros Hwf l. rewrite chunk_node_eq. cbn [code_splitter.children start_byte end_byte].
  simpl in Hwf. apply andb_prop in Hwf as [Hin Hall]. intros Hl.
  apply (chunk_children_ordered cs IH [] (mkSpan sb sb) sb eb l); simpl; try done; lia.
Qed.

(** Without enforcement pass 1 never raises. *)
Lemma chunk_node_unenforced node :
  enforce_max_chunk_tokens self = false -> exists l, pass1 node = Ok l.
Proof.
  intros Hoff.
  assert (Hmax : forall k, over_max self k = false).
  { intros k. unfold over_max. rewrite Hoff. apply andb_false_r. }
  induction node as [t sb eb cs IH] using Node_nested_ind.
  rewrite chunk_node_eq. cbn [code_splitter.children start_byte].
  generalize (@nil Span) (mkSpan sb sb).
  induction IH as [|c r [sub Hc] _ IHr]; intros chunks current;
    cbn [chunk_children]; rewrite ?Hmax; [eauto|].
  rewrite Hc. destruct (_ >? _); [apply IHr|]. destruct (_ >? _); apply IHr.
Qed.

Lemma filter_nonempty_ordered lo hi l :
  ordered lo hi l ->
  filter_nonempty l = Ok (filter nonempty l).
Proof.
  revert lo. induction l as [|s r IH]; intros lo H; [done|].
  destruct H as (? & ? & Hr). cbn [filter_nonempty].
  unfold len. destruct (span_len s <? 0) eqn:E; [unfold span_len in E; lia|].
  simpl. rewrite (IH _ Hr). simpl. rewrite filter_cons.
  destruct (decide (nonempty s)) as [Hn|Hn]; unfold nonempty in Hn.
  - by destruct (span_len s >? 0) eqn:E'; [|lia].
  - by destruct (span_len s >? 0) eqn:E'; [lia|].
Qed.

Lemma align_ends_covers rest :
  forall c lo hi,
    start c < lo -> ordered lo hi rest -> Forall nonempty rest ->
    hi <= buffer_len ->
    covers (start c) buffer_len (align_ends source_code (c :: rest))
    /\ Forall nonempty (align_ends source_code (c :: rest)).
Proof.
  induction rest as [|d r IH]; intros c lo hi Hc Hord Hne Hhi.
  - simpl in *. unfold nonempty, span_len. simpl.
    split; [lia|]. constructor; [simpl; lia|constructor].
  - destruct Hord as (Hd & _ & Hr).
    apply Forall_cons in Hne as [Hdn Hrn]. unfold nonempty, span_len in Hdn.
    destruct (IH d (end_ d) hi) as [Hcov Hall]; [lia|done|done|done|].
    cbn [align_ends]. split.
    + cbn [covers start end_]. repeat split; [lia|]. exact Hcov.
    + constructor; [|exact Hall]. unfold nonempty, span_len. simpl. lia.
Qed.

(** Pass 2: two or more non-empty chunks in order inside the buffer are
    turned into non-empty spans that cover the buffer. *)
Lemma fill_gaps_covers lo hi c rest :
  0 <= lo -> hi <= buffer_len ->
  ordered lo hi (c :: rest) -> Forall nonempty (c :: rest) ->
  covers 0 buffer_len (fill_gaps source_code (c :: rest))
  /\ Forall nonempty (fill_gaps source_code (c :: rest)).
Proof.
  intros Hlo Hhi (Hc & _ & Hr) [Hcn Hrn]%Forall_cons.
  unfold nonempty, span_len in Hcn. unfold fill_gaps.
  apply (align_ends_covers rest (mkSpan 0 (end_ c)) (end_ c) hi); simpl; auto; lia.
Qed.

(** Pass 3: the emitted chunks followed by the aggregate always cover the
    part of the buffer that has been read. *)
Lemma coalesce_loop_covers chunks :
  forall new_chunks agg agg_len hi,
    covers 0 (start agg) new_chunks ->
    start agg <= end_ agg ->
    covers (end_ agg) hi chunks ->
    let '(new_chunks', agg') :=
      coalesce_loop count self source_code chunks new_chunks agg agg_len in
    covers 0 (start agg') new_chunks' /\ start agg' <= end_ agg' /\ end_ agg' = hi.
Proof.
  induction chunks as [|k r IH]; intros new_chunks agg agg_len hi Hnew Hagg Hr.
  - simpl in *. auto.
  - destruct Hr as (Hk & Hkle & Hr). cbn [coalesce_loop].
    destruct (_ >? _).
    + apply IH; simpl; [|lia|done].
      apply (covers_app 0 (start agg)); [done|]. simpl. repeat split; lia.
    + destruct (_ >? _).
      * apply IH; simpl; [|lia|done].
        apply (covers_app 0 (start agg)); [done|]. simpl. repeat split; lia.
      * destruct (_ >? _).
        -- apply IH; simpl; [|lia|done].
           apply (covers_app 0 (start agg)); [done|]. simpl. repeat split; lia.
        -- apply IH; simpl; [done|lia|done].
Qed.

Lemma coalesce_chunks_covers chunks :
  covers 0 buffer_len chunks ->
  exists new_chunks,
    coalesce_chunks count self source_code chunks = Ok new_chunks
    /\ covers 0 buffer_len new_chunks.
Proof.
  intros Hcov. unfold coalesce_chunks.
  pose proof (coalesce_loop_covers chunks [] (mkSpan 0 0) 0 buffer_len) as H.
  destruct (coalesce_loop _ _ _ _ _ _ _) as [new_chunks agg].
  destruct H as (Hnew & Hagg & Hend); simpl; [done|lia|done|].
  unfold len. destruct (span_len agg <? 0) eqn:E; [unfold span_len in E; lia|].
  simpl. unfold span_len in *. destruct (_ >? 0) eqn:E'.
  - eexists; split; [done|].
    apply (covers_app 0 (start agg)); [done|]. simpl. repeat split; lia.
  - eexists; split; [done|]. by replace buffer_len with (start agg) by lia.
Qed.

Lemma map_fst_decorate tree l :
  map fst (map (decorate descendant_for_byte_range self source_code tree) l) = l.
Proof.
  induction l as [|s r IH]; [done|]. cbn [map]. rewrite IH. f_equal.
  unfold decorate. by destruct (descendant_for_byte_range _ _ _).
Qed.

Lemma Forall_nonempty_filter (l : list Span) : Forall nonempty (filter nonempty l).
Proof. apply Forall_forall. intros s Hs. by apply list_elem_of_filter in Hs as [? _]. Qed.

(** When no non-empty chunk is left after pass 1 the result is empty. *)
Lemma chunk_tree_no_chunk tree chunks :
  well_formed tree = true -> pass1 tree = Ok chunks ->
  filter nonempty chunks = [] ->
  chunk_tree count descendant_for_byte_range self source_code tree = Ok [].
Proof.
  intros Hwf Hp Hnone. unfold chunk_tree. rewrite Hp. simpl.
  rewrite (filter_nonempty_ordered _ _ _ (chunk_node_ordered _ _ Hwf Hp)).
  simpl. by rewrite Hnone.
Qed.

(** C1, as amended.  For a well-formed parse tree inside the buffer on
    which pass 1 succeeds and leaves at least two non-empty chunks: the
    spans after gap filling are non-empty and cover [0, |buffer|) exactly,
    in order, without gap or overlap; [chunk_tree] returns, and the spans
    it returns cover [0, |buffer|) in the same way, both as returned and
    with the empty ones filtered out. *)
Theorem chunk_tree_partition tree chunks :
  well_formed tree = true ->
  0 <= start_byte tree -> end_byte tree <= buffer_len ->
  pass1 tree = Ok chunks ->
  (2 <= length (filter nonempty chunks))%nat ->
  (covers 0 buffer_len (fill_gaps source_code (filter nonempty chunks))
   /\ Forall nonempty (fill_gaps source_code (filter nonempty chunks)))
  /\ exists out,
       chunk_tree count descendant_for_byte_range self source_code tree = Ok out
       /\ covers 0 buffer_len (map fst out)
       /\ covers 0 buffer_len (filter nonempty (map fst out)).
Proof.
  intros Hwf Hlo Hhi Hp Htwo.
  pose proof (chunk_node_ordered _ _ Hwf Hp) as Hord.
  pose proof (filter_nonempty_ordered _ _ _ Hord) as Hfilter.
  pose proof (ordered_filter_nonempty _ _ _ Hord) as Hkept.
  pose proof (Forall_nonempty_filter chunks) as Hne.
  destruct (filter nonempty chunks) as [|c1 [|c2 rest]] eqn:Hk;
    [simpl in Htwo; lia|simpl in Htwo; lia|].
  destruct (fill_gaps_covers _ _ _ _ Hlo Hhi Hkept Hne) as [Hcov Hall].
  split; [done|].
  destruct (coalesce_chunks_covers _ Hcov) as (new_chunks & Hco & Hnew).
  exists (map (decorate descendant_for_byte_range self source_code tree) new_chunks).
  rewrite map_fst_decorate. split; [|split; [done|by apply covers_filter_nonempty]].
  unfold chunk_tree. rewrite Hp. simpl. rewrite Hfilter. simpl.
  unfold partition_chunks. by rewrite Hco.
Qed.

End splitter_facts.

(** C1 as stated fails on a buffer of one newline: it is not empty, its
    parse tree has no [ERROR] child and is well formed, and the chunker
    returns no span at all. *)
Lemma chunk_tree_blank_buffer :
  blank_source <> EmptyString
  /\ parses_without_error blank_tree = true
  /\ well_formed blank_tree = true
  /\ chunk_tree byte_count ts_descendant_for_byte_range (default_splitter "python")
       blank_source blank_tree = Ok []
  /\ ~ covers 0 (Z.of_nat (String.length blank_source)) [].
Proof. repeat split; done. Qed.

(** The early return for a sole chunk: on [import os\nimport sys\n], 21
    bytes, the span returned is [0, 20). *)
Lemma sole_chunk_does_not_cover :
  chunk_tree byte_count ts_descendant_for_byte_range (default_splitter "python")
    imports_source imports_tree
  = Ok [(mkSpan 0 20, mkChunkMetadata 0 1 "python" [] [])]
  /\ Z.of_nat (String.length imports_source) = 21
  /\ ~ covers 0 21 [mkSpan 0 20].
Proof. repeat split. simpl. lia. Qed.

Lemma chunk_tree_partition_witness :
  exists out,
    chunk_tree byte_count ts_descendant_for_byte_range loose_splitter
      gap_source gap_tree = Ok out
    /\ covers 0 13 (map fst out)
    /\ covers 0 13 (filter nonempty (map fst out)).
Proof.
  refine (proj2 (chunk_tree_partition byte_count ts_descendant_for_byte_range
            loose_splitter gap_source gap_tree
            [mkSpan 0 3; mkSpan 10 13] _ _ _ _ _)).
  - reflexivity.
  - simpl; lia.
  - simpl; lia.
  - reflexivity.
  - vm_compute. lia.
Defined.

Section splitter_scenarios.
Variable count : string -> Z.
Variable descendant_for_byte_range : Node -> Z -> Z -> option Node.

Lemma gtb_false x y : x <= y -> (x >? y) = false.
Proof. intros. destruct (Z.gtb_spec x y); [lia|done]. Qed.

Lemma gtb_true x y : y < x -> (x >? y) = true.
Proof. intros. destruct (Z.gtb_spec x y); [done|lia]. Qed.

(** C5, the failing inputs: a buffer of [n] bytes with two statements,
    [0, a) and [b, n), and white space between them.  Each statement fits
    the target, and the two together exceed the target but not the maximum,
    so pass 1 returns the two statements as chunks and raises nothing.  Gap
    filling then stretches the first chunk to [0, b); when that span has
    more tokens than the maximum it is returned all the same, although the
    maximum is enforced. *)
Theorem budget_exceeded_after_gap_filling
    (self : CodeSplitter) (source_code : string) (a b n : Z) (t1 t2 : string) :
  let tree := mkNode "module" 0 n [mkNode t1 0 a []; mkNode t2 b n []] in
  let tokens sp := count_chunk count source_code sp in
  Z.of_nat (String.length source_code) = n ->
  enforce_max_chunk_tokens self = true ->
  0 < a -> a <= b -> b < n ->
  tokens (mkSpan 0 a) + tokens (mkSpan 0 0) <= target_chunk_tokens self ->
  tokens (mkSpan 0 a) <= target_chunk_tokens self ->
  tokens (mkSpan b n) <= target_chunk_tokens self ->
  target_chunk_tokens self < tokens (mkSpan b n) + tokens (mkSpan 0 a) ->
  tokens (mkSpan b n) + tokens (mkSpan 0 a) <= max_chunk_tokens self ->
  max_chunk_tokens self < tokens (mkSpan 0 b) ->
  exists out,
    chunk_tree count descendant_for_byte_range self source_code tree = Ok out
    /\ map fst out = [mkSpan 0 0; mkSpan 0 b; mkSpan b n]
    /\ Exists (fun sp => max_chunk_tokens self < tokens sp) (map fst out).
Proof.
  intros tree tokens Hn Hon Ha Hab Hbn H1 H1' H2 H12 H12' Hgap.
  subst tokens. cbv beta in *.
  assert (Hp : chunk_node count self source_code tree
               = Ok [mkSpan 0 a; mkSpan b n]).
  { unfold tree. rewrite chunk_node_eq.
    cbn [code_splitter.children start_byte end_byte chunk_children].
    unfold over_max. rewrite Hon, !andb_true_r.
    rewrite (gtb_false _ _ H1'), (gtb_false _ _ H1).
    rewrite (gtb_false _ _ H2).
    unfold span_add. cbn [start end_].
    rewrite (gtb_true _ _ H12), (gtb_false _ _ H12').
    rewrite gtb_false by lia. done. }
  assert (Hc : coalesce_chunks count self source_code [mkSpan 0 b; mkSpan b n]
               = Ok [mkSpan 0 0; mkSpan 0 b; mkSpan b n]).
  { unfold coalesce_chunks. cbn [coalesce_loop start end_].
    rewrite (gtb_true (count_chunk count source_code (mkSpan 0 b))) by lia.
    rewrite (gtb_false (count_chunk count source_code (mkSpan b n))) by lia.
    rewrite Z.add_0_l. rewrite (gtb_false _ _ H2).
    unfold span_add, len, span_len. cbn [start end_ app].
    destruct (_ >? coalesce self); simpl.
    - rewrite Z.sub_diag. simpl. done.
    - destruct (n - b <? 0) eqn:E; [lia|]. simpl.
      by rewrite gtb_true by lia. }
  exists (map (decorate descendant_for_byte_range self source_code tree)
              [mkSpan 0 0; mkSpan 0 b; mkSpan b n]).
  rewrite map_fst_decorate. split; [|split; [done|]].
  - unfold chunk_tree. rewrite Hp. simpl.
    unfold len, span_len. cbn [start end_].
    destruct (n - b <? 0) eqn:E; [lia|]. destruct (a - 0 <? 0) eqn:E'; [lia|].
    simpl. rewrite !gtb_true by lia.
    unfold partition_chunks, fill_gaps. cbn [align_ends start end_].
    rewrite Hn. by rewrite Hc.
  - apply Exists_cons_tl, Exists_cons_hd. done.
Qed.

(** C6, the failing input: the file [import os\nimport sys\n] with the
    default splitter, for any tokenizer that makes at most one token per
    byte.  One chunk is left after pass 1, and the early return gives it a
    metadata record with no imports, although [_extract_imports] finds the
    two statements in the tree. *)
Theorem sole_chunk_has_no_imports :
  (forall s, count s <= Z.of_nat (String.length s)) ->
  chunk_tree count descendant_for_byte_range (default_splitter "python")
    imports_source imports_tree
  = Ok [(mkSpan 0 20, mkChunkMetadata 0 1 "python" [] [])]
  /\ _extract_imports imports_source imports_tree = ["import os"; "import sys"]
  /\ _extract_symbols imports_source imports_tree = [].
Proof.
  intros Hcount. split; [|split; reflexivity].
  assert (H0 : count EmptyString <= 0) by apply (Hcount EmptyString).
  assert (H1 : count "import os" <= 9) by apply (Hcount "import os").
  assert (H2 : count "import sys" <= 10) by apply (Hcount "import sys").
  assert (H3 : count imports_text <= 20) by apply (Hcount imports_text).
  unfold chunk_tree. rewrite chunk_node_eq.
  cbn [code_splitter.children start_byte end_byte imports_tree chunk_children].
  unfold over_max, count_chunk, span_add. cbn [start end_].
  change (extract (mkSpan 0 9) imports_source) with "import os".
  change (extract (mkSpan 0 0) imports_source) with EmptyString.
  change (extract (mkSpan 10 20) imports_source) with "import sys".
  change (extract (mkSpan 0 20) imports_source) with imports_text.
  cbn [target_chunk_tokens default_splitter enforce_max_chunk_tokens].
  rewrite !gtb_false by lia. rewrite !andb_false_r. reflexivity.
Qed.

End splitter_scenarios.

Lemma budget_exceeded_after_gap_filling_witness :
  exists out,
    chunk_tree byte_count ts_descendant_for_byte_range strict_splitter
      gap_source gap_tree = Ok out
    /\ map fst out = [mkSpan 0 0; mkSpan 0 10; mkSpan 10 13]
    /\ Exists (fun sp => 6 < byte_count (extract sp gap_source)) (map fst out).
Proof.
  apply (budget_exceeded_after_gap_filling byte_count ts_descendant_for_byte_range
           strict_splitter gap_source 3 10 13
           "expression_statement" "expression_statement");
    vm_compute; (reflexivity || discriminate).
Defined.

Lemma sole_chunk_has_no_imports_witness :
  chunk_tree byte_count ts_descendant_for_byte_range (default_splitter "python")
    imports_source imports_tree
  = Ok [(mkSpan 0 20, mkChunkMetadata 0 1 "python" [] [])].
Proof.
  apply (sole_chunk_has_no_imports byte_count ts_descendant_for_byte_range).
  intros s. unfold byte_count. lia.
Defined.

(** ** hybrid_search.py *)

Section node_at_facts.
Variable sha256_hex : string -> string.

Lemma node_at_at_path parts f node :
  exists reached, node_at parts (at_path parts f node) = Some (f reached).
Proof.
  revert node. induction parts as [|part rest IH]; intros node; simpl; [eauto|].
  rewrite get_set_eq. apply IH.
Qed.

Lemma node_at_children parts h f h' f' cs :
  parts <> [] ->
  node_at parts (mkMerkleNode h f cs) = node_at parts (mkMerkleNode h' f' cs).
Proof. by destruct parts. Qed.

(** Rehashing the directories on the way to a file leaves the node of the
    file as it is. *)
Lemma node_at_update_parent_hashes dirs name node :
  node_at (dirs ++ [name]) (_update_parent_hashes sha256_hex dirs node)
  = node_at (dirs ++ [name]) node.
Proof.
  revert node. induction dirs as [|d ds IH]; intros node; [done|].
  cbn [_update_parent_hashes app].
  destruct (get d (merkle_tree.children node)) as [c|] eqn:Hget; [|done].
  cbn [node_at merkle_tree.children]. rewrite get_set_eq, Hget, IH.
  destruct c as [h f cs]. apply node_at_children. by destruct ds.
Qed.

(** After [update_file] on a regular file, the node of the file carries
    the hash of the file's content. *)
Lemma update_file_sets_leaf fs file_path content root :
  fs_lookup fs file_path = Some (FsFile content) ->
  snd (update_file sha256_hex fs file_path root) = Ok tt
  /\ get_node_hash fs file_path (fst (update_file sha256_hex fs file_path root))
     = Some (sha256_hex content).
Proof.
  intros Hfile. unfold update_file, get_node_hash, exists_. rewrite Hfile.
  split; [done|]. cbn [negb fst].
  pose proof (path_parts_nonempty file_path) as Hne.
  destruct (exists_last Hne) as (dirs & name & Hparts).
  rewrite Hparts, removelast_last, node_at_update_parent_hashes.
  destruct (node_at_at_path (dirs ++ [name])
              (fun file_node =>
                 mkMerkleNode (compute_file_hash sha256_hex content) true
                   (merkle_tree.children file_node))
              (at_path (dirs ++ [name]) (fun n => n) root)) as [reached ->].
  reflexivity.
Qed.

End node_at_facts.

Section update_index_facts.
Import hybrid_search.
Variable count : string -> Z.
Variable descendant_for_byte_range : Node -> Z -> Z -> option Node.
Variable parse : string -> Node.
Variable parser_built : bool.
Variable sha256_hex : string -> string.
Variable EXTENSION_TO_TREE_SITTER_LANGUAGE : list (string * string).
Context {SparseVector DenseVector : Type}.
Variable sparse_embed : string -> SparseVector.
Variable dense_embed : string -> DenseVector.
Variable client_delete :
  string -> list (PointStruct SparseVector DenseVector)
  -> list (PointStruct SparseVector DenseVector) * result unit.
Variable client_upsert :
  list (PointStruct SparseVector DenseVector)
  -> list (PointStruct SparseVector DenseVector)
  -> list (PointStruct SparseVector DenseVector) * result unit.

Local Abbreviation update :=
  (update_index count descendant_for_byte_range parse parser_built sha256_hex
     EXTENSION_TO_TREE_SITTER_LANGUAGE sparse_embed dense_embed
     client_delete client_upsert).

(** C10.  [update_index] on an existing regular file with a recognised
    extension, when the chunking step raises [e]: the call raises [e], the
    vector store is exactly what it was (no delete, no upsert), and the
    Merkle tree is the one [update_file] leaves, in which the node of the
    file already carries the hash of the new content. *)
Theorem update_index_chunking_failure fs file_path content language e self :
  fs_lookup fs file_path = Some (FsFile content) ->
  get (extension file_path) EXTENSION_TO_TREE_SITTER_LANGUAGE = Some language ->
  split_text_with_metadata count descendant_for_byte_range parse parser_built
    (splitter_for language self) content = Raise e ->
  snd (update fs file_path self) = Raise e
  /\ client (fst (update fs file_path self)) = client self
  /\ merkle_tree (fst (update fs file_path self))
     = fst (update_file sha256_hex fs file_path (merkle_tree self))
  /\ get_node_hash fs file_path (merkle_tree (fst (update fs file_path self)))
     = Some (sha256_hex content).
Proof.
  intros Hfile Hext Hsplit.
  destruct (update_file_sets_leaf sha256_hex fs file_path content
              (merkle_tree self) Hfile) as [Hok Hleaf].
  unfold update_index, exists_, mem, _get_code_splitter. rewrite Hfile, Hext.
  cbn [negb]. unfold splitter_for in Hsplit.
  destruct (update_file sha256_hex fs file_path (merkle_tree self)) as [tree r].
  simpl in Hok, Hleaf. subst r.
  destruct (get language (code_splitters self)); rewrite Hsplit; done.
Qed.

End update_index_facts.

Lemma update_index_chunking_failure_witness :
  let self : hybrid_search.HybridCodeSearch unit unit :=
    hybrid_search.mkHybridCodeSearch
      (build_tree tag_digest module_before) []
      [hybrid_search.mkPointStruct "m.py_0"
         (hybrid_search.mkPayload "m.py" (Some "<import os>") "import os"
            (mkChunkMetadata 0 1 "python" [] ["import os"])) tt tt] in
  let after :=
    fst (hybrid_search.update_index scenario.byte_count
           ts_descendant_for_byte_range failing_parse true tag_digest python_only
           no_vector no_vector refusing_delete refusing_upsert
           module_after ["m.py"] self) in
  hybrid_search.client after = hybrid_search.client self
  /\ get_node_hash module_after ["m.py"] (hybrid_search.merkle_tree after)
     = Some "<import>".
Proof.
  intros self after.
  destruct (update_index_chunking_failure scenario.byte_count
              ts_descendant_for_byte_range failing_parse true tag_digest
              python_only no_vector no_vector refusing_delete refusing_upsert
              module_after ["m.py"] "import"
              "python" ValueError self) as (_ & Hstore & _ & Hleaf).
  - reflexivity.
  - reflexivity.
  - reflexivity.
  - split; [exact Hstore|exact Hleaf].
Defined.

(** ** watcher.py *)

Section watcher_facts.
Import watcher.
Context {Searcher : Type}.
Variable update_index : FsEntry -> Path -> Searcher -> Searcher * result unit.
Variable EXTENSION_TO_TREE_SITTER_LANGUAGE : list (string * string).

Local Abbreviation schedule := (_schedule_update update_index).
Local Abbreviation modified :=
  (on_modified update_index EXTENSION_TO_TREE_SITTER_LANGUAGE).

Lemma update_each_calls fs paths (s : Searcher) :
  snd (update_each update_index fs paths s) = paths.
Proof.
  revert s. induction paths as [|file_path rest IH]; intros s; [done|].
  cbn [update_each]. destruct (update_index fs file_path s) as [s' r].
  specialize (IH s'). destruct (update_each update_index fs rest s') as [s'' calls].
  simpl in *. by rewrite IH.
Qed.

Lemma flush_due_iff now (self : CodeIndexEventHandler Searcher) :
  flush_due now self = true <->
  _debounce_timer self = None
  \/ exists timer, _debounce_timer self = Some timer
                   /\ (_debounce_delay self <= now - timer)%Q.
Proof.
  unfold flush_due. destruct (_debounce_timer self) as [timer|].
  - rewrite Qle_bool_iff. split.
    + intros H. right. eauto.
    + intros [Hn|(t & [= <-] & H)]; done.
  - split; auto.
Qed.

(** What one call of [_schedule_update] does. *)
Lemma _schedule_update_flush fs now file_path (self : CodeIndexEventHandler Searcher) :
  flush_due now self = true ->
  let pending := {[file_path]} ∪ pending_updates self in
  snd (schedule fs now file_path self) = elements pending
  /\ pending_updates (fst (schedule fs now file_path self)) = ∅
  /\ _debounce_timer (fst (schedule fs now file_path self)) = Some now
  /\ _debounce_delay (fst (schedule fs now file_path self)) = _debounce_delay self.
Proof.
  intros Hdue pending. unfold _schedule_update.
  change (flush_due now (mkHandler _ _ _ _)) with (flush_due now self).
  rewrite Hdue. unfold _process_updates. cbn [pending_updates searcher].
  pose proof (update_each_calls fs (elements pending) (searcher self)) as Hcalls.
  fold pending. destruct (update_each _ _ _ _) as [s calls]. simpl in *. auto.
Qed.

Lemma _schedule_update_hold fs now file_path (self : CodeIndexEventHandler Searcher) :
  flush_due now self = false ->
  schedule fs now file_path self
  = (mkHandler (searcher self) ({[file_path]} ∪ pending_updates self)
               (_debounce_timer self) (_debounce_delay self), []).
Proof.
  intros Hdue. unfold _schedule_update.
  change (flush_due now (mkHandler _ _ _ _)) with (flush_due now self).
  by rewrite Hdue.
Qed.

Lemma elements_once (file_path : Path) (pending : gset Path) :
  length (filter (fun q => q = file_path) (elements ({[file_path]} ∪ pending))) = 1%nat.
Proof.
  assert (Hin : file_path ∈ elements ({[file_path]} ∪ pending)).
  { apply elem_of_elements. set_solver. }
  pose proof (NoDup_elements ({[file_path]} ∪ pending)) as Hnd.
  induction (elements ({[file_path]} ∪ pending)) as [|q l IH]; [by inversion Hin|].
  apply NoDup_cons in Hnd as [Hq Hl]. rewrite filter_cons.
  destruct (decide (q = file_path)) as [->|Hne]; simpl.
  - f_equal. destruct (filter (fun q => q = file_path) l) as [|x r] eqn:E; [done|].
    assert (Hx : x ∈ filter (fun q => q = file_path) l) by (rewrite E; left).
    apply list_elem_of_filter in Hx as [-> Hx]. done.
  - apply IH; [|done]. apply elem_of_cons in Hin as [->|]; done.
Qed.

(** The loop of [_process_updates] really invokes [update_index]: the
    searcher it leaves is the searcher after one invocation per path, in
    order, each on the searcher the one before left. *)
Lemma update_each_eq fs paths (s : Searcher) :
  update_each update_index fs paths s
  = (invoke_each update_index fs paths s, paths).
Proof.
  revert s. induction paths as [|file_path rest IH]; intros s; [done|].
  cbn [update_each]. destruct (update_index fs file_path s) as [s' r] eqn:E.
  rewrite IH. unfold invoke_each, invoke_all. cbn [map fold_left fst snd].
  by rewrite E.
Qed.

Lemma _schedule_update_flush_eq fs now file_path
    (self : CodeIndexEventHandler Searcher) :
  flush_due now self = true ->
  schedule fs now file_path self
  = (mkHandler
       (invoke_each update_index fs
          (elements ({[file_path]} ∪ pending_updates self)) (searcher self))
       ∅ (Some now) (_debounce_delay self),
     elements ({[file_path]} ∪ pending_updates self)).
Proof.
  intros Hdue. unfold _schedule_update.
  change (flush_due now (mkHandler _ _ _ _)) with (flush_due now self).
  rewrite Hdue. unfold _process_updates.
  cbn [pending_updates searcher _debounce_timer _debounce_delay].
  by rewrite update_each_eq.
Qed.

Lemma flush_due_later t t' (self : CodeIndexEventHandler Searcher) :
  (t <= t')%Q -> flush_due t self = true -> flush_due t' self = true.
Proof.
  unfold flush_due. destruct (_debounce_timer self) as [timer|]; [|done].
  rewrite !Qle_bool_iff. intros. lra.
Qed.

Lemma flush_due_soon t t' s pending delay :
  (t <= t')%Q -> (t' - t < delay)%Q ->
  flush_due t' (mkHandler (Searcher := Searcher) s pending (Some t) delay) = false.
Proof.
  intros Hle Hsoon. unfold flush_due. cbn [_debounce_timer _debounce_delay].
  apply not_true_is_false. rewrite Qle_bool_iff. lra.
Qed.

Lemma pending_again (file_path : Path) (pending : gset Path) :
  {[file_path]} ∪ ({[file_path]} ∪ pending) = {[file_path]} ∪ pending.
Proof. by rewrite (assoc_L (∪)), (idemp_L (∪)). Qed.

(** C9, as amended.  A new handler has no pending path, no timer and a
    delay of one second.  The rule: a call of [_schedule_update] flushes
    exactly when no timer is set or at least the delay has passed since
    the time recorded at the last flush; a flush invokes [update_index]
    once for every pending path, the new one included (the searcher
    afterwards is the searcher after these invocations), empties the
    pending set and records the time; otherwise the path is only added to
    the pending set and the searcher is left alone.  The scenario, for
    every handler whose delay is above 200 ms: of three modify events for
    the same path, the last at most 200 ms after the first, at most one
    flushes.  If a flush is due by the time of the last event (no timer,
    or the delay passed since the flush before them) exactly one of them
    flushes, and [update_index] is invoked on the path exactly once, on
    the directory tree of that event; if not, nothing is invoked, the
    searcher is what it was and the path is left pending. *)
Theorem debounce_coalesces :
  (forall s : Searcher,
     pending_updates (init s) = ∅ /\ _debounce_timer (init s) = None
     /\ _debounce_delay (init s) = 1%Q /\ searcher (init s) = s)
  /\ (forall fs now file_path (self : CodeIndexEventHandler Searcher),
     (flush_due now self = true <->
        _debounce_timer self = None
        \/ exists timer, _debounce_timer self = Some timer
                         /\ (_debounce_delay self <= now - timer)%Q)
     /\ (flush_due now self = true ->
           snd (schedule fs now file_path self)
             = elements ({[file_path]} ∪ pending_updates self)
           /\ searcher (fst (schedule fs now file_path self))
              = invoke_each update_index fs
                  (elements ({[file_path]} ∪ pending_updates self)) (searcher self)
           /\ pending_updates (fst (schedule fs now file_path self)) = ∅
           /\ _debounce_timer (fst (schedule fs now file_path self)) = Some now)
     /\ (flush_due now self = false ->
           snd (schedule fs now file_path self) = []
           /\ searcher (fst (schedule fs now file_path self)) = searcher self
           /\ pending_updates (fst (schedule fs now file_path self))
              = {[file_path]} ∪ pending_updates self
           /\ _debounce_timer (fst (schedule fs now file_path self))
              = _debounce_timer self))
  /\ (forall fs1 fs2 fs3 t1 t2 t3 event (self : CodeIndexEventHandler Searcher),
        is_directory event = false ->
        _should_process_file EXTENSION_TO_TREE_SITTER_LANGUAGE (src_path event) = true ->
        (t1 <= t2)%Q -> (t2 <= t3)%Q -> (t3 - t1 <= 1 # 5)%Q ->
        (1 # 5 < _debounce_delay self)%Q ->
        let first := modified fs1 t1 event self in
        let second := modified fs2 t2 event (fst first) in
        let third := modified fs3 t3 event (fst second) in
        let calls := snd first ++ snd second ++ snd third in
        let pending := {[src_path event]} ∪ pending_updates self in
        (flush_due t3 self = true ->
           calls = elements pending
           /\ length (filter (fun q => q = src_path event) calls) = 1%nat
           /\ exists fs,
                fs ∈ [fs1; fs2; fs3]
                /\ searcher (fst third)
                   = invoke_each update_index fs (elements pending) (searcher self))
        /\ (flush_due t3 self = false ->
             calls = []
             /\ searcher (fst third) = searcher self
             /\ pending_updates (fst third) = pending
             /\ _debounce_timer (fst third) = _debounce_timer self)).
Proof.
  split; [done|]. split.
  - intros fs now file_path self. split; [apply flush_due_iff|]. split.
    + intros Hdue. by rewrite _schedule_update_flush_eq.
    + intros Hhold. by rewrite _schedule_update_hold.
  - intros fs1 fs2 fs3 t1 t2 t3 event self Hfile Hext H12 H23 H13 Hdelay.
    unfold on_modified. rewrite Hfile, Hext. cbv zeta.
    destruct self as [s P timer delay].
    cbn [_debounce_delay pending_updates searcher _debounce_timer] in *.
    destruct (flush_due t1 (mkHandler s P timer delay)) eqn:Hdue1.
    { (* the first event flushes, the other two are held *)
      rewrite (_schedule_update_flush_eq fs1 t1 _ _ Hdue1). cbn [fst snd].
      cbn [_debounce_delay pending_updates searcher _debounce_timer].
      rewrite (_schedule_update_hold fs2 t2) by (apply flush_due_soon; lra).
      cbn [fst snd _debounce_delay pending_updates searcher _debounce_timer].
      rewrite (_schedule_update_hold fs3 t3) by (apply flush_due_soon; lra).
      cbn [fst snd _debounce_delay pending_updates searcher _debounce_timer].
      rewrite !app_nil_r. split.
      - intros _. split; [done|]. split; [apply elements_once|].
        exists fs1. split; [left|done].
      - intros Hnot. rewrite (flush_due_later t1 t3) in Hnot; [done|lra|done]. }
    rewrite (_schedule_update_hold fs1 t1 _ _ Hdue1). cbn [fst snd].
    cbn [_debounce_delay pending_updates searcher _debounce_timer].
    destruct (flush_due t2 (mkHandler s P timer delay)) eqn:Hdue2.
    { (* the second event flushes, the third is held *)
      rewrite (_schedule_update_flush_eq fs2 t2) by exact Hdue2. cbn [fst snd].
      cbn [_debounce_delay pending_updates searcher _debounce_timer].
      rewrite (_schedule_update_hold fs3 t3) by (apply flush_due_soon; lra).
      cbn [fst snd _debounce_delay pending_updates searcher _debounce_timer].
      rewrite !app_nil_r, pending_again. cbn [app]. split.
      - intros _. split; [done|]. split; [apply elements_once|].
        exists fs2. split; [right; left|done].
      - intros Hnot. rewrite (flush_due_later t2 t3) in Hnot; [done|lra|done]. }
    rewrite (_schedule_update_hold fs2 t2) by exact Hdue2. cbn [fst snd].
    cbn [_debounce_delay pending_updates searcher _debounce_timer].
    destruct (flush_due t3 (mkHandler s P timer delay)) eqn:Hdue3.
    { (* the third event flushes *)
      rewrite (_schedule_update_flush_eq fs3 t3) by exact Hdue3.
      cbn [fst snd _debounce_delay pending_updates searcher _debounce_timer].
      rewrite !pending_again. cbn [app]. split; [|done].
      intros _. split; [done|]. split; [apply elements_once|].
      exists fs3. split; [right; right; left|done]. }
    (* none of them flushes *)
    rewrite (_schedule_update_hold fs3 t3) by exact Hdue3.
    cbn [fst snd _debounce_delay pending_updates searcher _debounce_timer].
    rewrite !pending_again. split; [done|]. intros _. done.
Qed.

End watcher_facts.

(** C9 as stated fails on a handler that flushed half a second ago: the
    three events find no flush due, [update_index] is not invoked at all
    (the searcher, which records the invocations, is still empty), and the
    path is only left pending. *)
Lemma debounce_holds_after_recent_flush :
  let event := watcher.mkEvent false ["m.py"] [] in
  let handler := watcher.mkHandler (@nil Path) ∅ (Some 0%Q) 1%Q in
  let first :=
    watcher.on_modified recording_update python_only module_after (5 # 10) event handler in
  let second :=
    watcher.on_modified recording_update python_only module_after (6 # 10) event
      (fst first) in
  let third :=
    watcher.on_modified recording_update python_only module_after (7 # 10) event
      (fst second) in
  snd first ++ snd second ++ snd third = []
  /\ watcher.searcher (fst third) = []
  /\ length (filter (fun q => q = ["m.py"]) (snd first ++ snd second ++ snd third))
     <> 1%nat
  /\ ["m.py"] ∈ watcher.pending_updates (fst third).
Proof.
  cbv zeta. unfold watcher.on_modified. cbn [watcher.is_directory watcher.src_path].
  change (watcher._should_process_file python_only ["m.py"]) with true.
  cbv iota.
  rewrite (_schedule_update_hold recording_update module_after (5 # 10)) by reflexivity.
  cbn [fst snd].
  rewrite (_schedule_update_hold recording_update module_after (6 # 10)) by reflexivity.
  cbn [fst snd].
  rewrite (_schedule_update_hold recording_update module_after (7 # 10)) by reflexivity.
  cbn [fst snd app watcher.searcher watcher.pending_updates].
  split; [done|]. split; [done|]. split; [discriminate|].
  apply elem_of_union. left. by apply elem_of_singleton.
Qed.

Lemma debounce_coalesces_witness :
  let event := watcher.mkEvent false ["m.py"] [] in
  let handler := watcher.init (@nil Path) in
  let first :=
    watcher.on_modified recording_update python_only module_after 0%Q event handler in
  let second :=
    watcher.on_modified recording_update python_only module_after (1 # 10) event
      (fst first) in
  let third :=
    watcher.on_modified recording_update python_only module_after (2 # 10) event
      (fst second) in
  let calls := snd first ++ snd second ++ snd third in
  let pending : gset Path := {[ ["m.py"] ]} ∪ ∅ in
  calls = elements pending
  /\ length (filter (fun q => q = ["m.py"]) calls) = 1%nat
  /\ exists fs,
       fs ∈ [module_after; module_after; module_after]
       /\ watcher.searcher (fst third)
          = invoke_each recording_update fs (elements pending) [].
Proof.
  apply (proj1 (proj2 (proj2 (debounce_coalesces recording_update python_only))
                  module_after module_after module_after 0%Q (1 # 10) (2 # 10)
                  (watcher.mkEvent false ["m.py"] []) (watcher.init (@nil Path))
                  ltac:(reflexivity) ltac:(reflexivity)
                  ltac:(vm_compute; discriminate) ltac:(vm_compute; discriminate)
                  ltac:(vm_compute; discriminate) ltac:(vm_compute; reflexivity)));
    reflexivity.
Defined.

(** ** Reciprocal rank fusion *)

Section fusion_facts.
Import hybrid_search.
Context {SparseVector DenseVector : Type}.
Local Abbreviation Point := (PointStruct SparseVector DenseVector).
Local Abbreviation Item := (RankItem SparseVector DenseVector).
Implicit Types (dense sparse rest : list Point) (ranks : list (string * Item)).

Lemma rank_from_notin n k (l : list Point) :
  k ∉ map id l -> rank_from n k l = Infinity.
Proof.
  revert n. induction l as [|r l IH]; intros n Hk; [done|].
  cbn [map] in Hk. apply not_elem_of_cons in Hk as [Hne Hk]. simpl.
  destruct (String.eqb (id r) k) eqn:E; [apply String.eqb_eq in E; congruence|].
  by apply IH.
Qed.

Lemma rank_from_in n k (l : list Point) :
  k ∈ map id l -> exists m, rank_from n k l = Finite m /\ n <= m.
Proof.
  revert n. induction l as [|r l IH]; intros n Hk; [by inversion Hk|].
  cbn [map] in Hk. simpl. destruct (String.eqb (id r) k) eqn:E.
  - exists n. split; [done|lia].
  - apply elem_of_cons in Hk as [->|Hk]; [by rewrite String.eqb_refl in E|].
    destruct (IH (n + 1) Hk) as (m & -> & ?). exists m. split; [done|lia].
Qed.

Lemma rank_from_snoc n k (l : list Point) r :
  rank_from n k (l ++ [r]) =
  match rank_from n k l with
  | Finite m => Finite m
  | Infinity =>
      if String.eqb (id r) k then Finite (n + Z.of_nat (length l)) else Infinity
  end.
Proof.
  revert n. induction l as [|r' l IH]; intros n; simpl.
  - by rewrite Z.add_0_r.
  - destruct (String.eqb (id r') k); [done|]. rewrite IH.
    destruct (rank_from (n + 1) k l); [done|].
    destruct (String.eqb (id r) k); [|done]. f_equal. lia.
Qed.

Lemma rank_of_snoc_other k (l : list Point) r :
  id r <> k -> rank_of k (l ++ [r]) = rank_of k l.
Proof.
  intros Hne. unfold rank_of. rewrite rank_from_snoc.
  destruct (rank_from 1 k l); [done|].
  by destruct (String.eqb (id r) k) eqn:E; [apply String.eqb_eq in E|].
Qed.

Lemma rank_of_snoc_new (l : list Point) r :
  id r ∉ map id l -> rank_of (id r) (l ++ [r]) = Finite (1 + Z.of_nat (length l)).
Proof.
  intros Hnew. unfold rank_of. rewrite rank_from_snoc, rank_from_notin by done.
  by rewrite String.eqb_refl.
Qed.

Lemma map_id_snoc (l : list Point) r x :
  x ∈ map id (l ++ [r]) <-> x = id r \/ x ∈ map id l.
Proof.
  rewrite map_app, elem_of_app. cbn [map]. rewrite list_elem_of_singleton. tauto.
Qed.

(** The entry read back for key [k] after [ranks[id r] = new]: either the
    new entry, or an entry that was there before. *)
Ltac entry_cases k r H Hitems :=
  destruct (decide (k = id r)) as [->|?];
  [ rewrite get_set_eq in H; injection H as <-
  | rewrite get_set_ne in H by done; apply Hitems in H as (? & ? & ?) ].

(** One iteration of the loop over the dense results. *)
Lemma dense_step_fused dense sparse ranks r :
  fused dense sparse ranks -> id r ∉ map id dense ->
  fused (dense ++ [r]) sparse
    (match get (id r) ranks with
     | None =>
         set (id r) (mkRankItem r (Finite (1 + Z.of_nat (length dense))) Infinity) ranks
     | Some item =>
         set (id r) (mkRankItem (result_ item) (Finite (1 + Z.of_nat (length dense)))
                                (sparse_rank item)) ranks
     end).
Proof.
  intros (Hnd & Hitems & Hkeys & Hlen) Hnew.
  assert (Hstep : forall new,
    id (result_ new) = id r ->
    dense_rank new = Finite (1 + Z.of_nat (length dense)) ->
    sparse_rank new = rank_of (id r) sparse ->
    fused (dense ++ [r]) sparse (set (id r) new ranks)).
  { intros new Hid Hd Hs.
    split; [by apply NoDup_keys_set|]. split; [|split].
    - intros k item H. entry_cases k r H Hitems.
      + by rewrite rank_of_snoc_new.
      + by rewrite rank_of_snoc_other.
    - intros k. rewrite elem_keys_set, map_id_snoc, Hkeys. tauto.
    - rewrite length_set, length_app. simpl. destruct (mem _ _); lia. }
  destruct (get (id r) ranks) as [item|] eqn:Hget.
  - destruct (Hitems _ _ Hget) as (? & ? & ?). by apply Hstep.
  - apply Hstep; [done|done|]. simpl. symmetry. apply rank_from_notin.
    apply get_None in Hget. intros Hin. apply Hget, Hkeys. by right.
Qed.

(** One iteration of the loop over the sparse results. *)
Lemma sparse_step_fused dense sparse ranks r :
  fused dense sparse ranks -> id r ∉ map id sparse ->
  fused dense (sparse ++ [r])
    (match get (id r) ranks with
     | None =>
         set (id r) (mkRankItem r Infinity (Finite (1 + Z.of_nat (length sparse)))) ranks
     | Some item =>
         set (id r) (mkRankItem (result_ item) (dense_rank item)
                                (Finite (1 + Z.of_nat (length sparse)))) ranks
     end).
Proof.
  intros (Hnd & Hitems & Hkeys & Hlen) Hnew.
  assert (Hstep : forall new,
    id (result_ new) = id r ->
    dense_rank new = rank_of (id r) dense ->
    sparse_rank new = Finite (1 + Z.of_nat (length sparse)) ->
    fused dense (sparse ++ [r]) (set (id r) new ranks)).
  { intros new Hid Hd Hs.
    split; [by apply NoDup_keys_set|]. split; [|split].
    - intros k item H. entry_cases k r H Hitems.
      + by rewrite rank_of_snoc_new.
      + by rewrite rank_of_snoc_other.
    - intros k. rewrite elem_keys_set, map_id_snoc, Hkeys. tauto.
    - rewrite length_set, length_app. simpl. destruct (mem _ _); lia. }
  destruct (get (id r) ranks) as [item|] eqn:Hget.
  - destruct (Hitems _ _ Hget) as (? & ? & ?). by apply Hstep.
  - apply Hstep; [done| |done]. simpl. symmetry. apply rank_from_notin.
    apply get_None in Hget. intros Hin. apply Hget, Hkeys. by left.
Qed.

Lemma dense_pass_fused rest :
  forall dense sparse ranks,
    fused dense sparse ranks -> NoDup (map id (dense ++ rest)) ->
    fused (dense ++ rest) sparse
      (dense_pass (1 + Z.of_nat (length dense)) rest ranks).
Proof.
  induction rest as [|r rest IH]; intros dense sparse ranks Hf Hnd.
  - by rewrite app_nil_r.
  - cbn [dense_pass].
    replace (dense ++ r :: rest) with ((dense ++ [r]) ++ rest) in *
      by (by rewrite <- app_assoc).
    replace (1 + Z.of_nat (length dense) + 1)
      with (1 + Z.of_nat (length (dense ++ [r])))
      by (rewrite length_app; simpl; lia).
    apply IH; [|done]. apply dense_step_fused; [done|].
    rewrite !map_app in Hnd. apply NoDup_app in Hnd as [Hnd _].
    apply NoDup_app in Hnd as (_ & Hdisj & _).
    intros Hin. apply (Hdisj _ Hin). simpl. left.
Qed.

Lemma sparse_pass_fused rest :
  forall dense sparse ranks,
    fused dense sparse ranks -> NoDup (map id (sparse ++ rest)) ->
    fused dense (sparse ++ rest)
      (sparse_pass (1 + Z.of_nat (length sparse)) rest ranks).
Proof.
  induction rest as [|r rest IH]; intros dense sparse ranks Hf Hnd.
  - by rewrite app_nil_r.
  - cbn [sparse_pass].
    replace (sparse ++ r :: rest) with ((sparse ++ [r]) ++ rest) in *
      by (by rewrite <- app_assoc).
    replace (1 + Z.of_nat (length sparse) + 1)
      with (1 + Z.of_nat (length (sparse ++ [r])))
      by (rewrite length_app; simpl; lia).
    apply IH; [|done]. apply sparse_step_fused; [done|].
    rewrite !map_app in Hnd. apply NoDup_app in Hnd as [Hnd _].
    apply NoDup_app in Hnd as (_ & Hdisj & _).
    intros Hin. apply (Hdisj _ Hin). simpl. left.
Qed.

Lemma fused_nil : fused (SparseVector := SparseVector) (DenseVector := DenseVector) [] [] [].
Proof.
  repeat split; simpl; try done.
  - apply NoDup_nil_2.
  - intros H; inversion H.
  - intros [H|H]; inversion H.
Qed.

(** The dictionary the two loops of [_combine_results] build. *)
Lemma passes_fused dense sparse :
  NoDup (map id dense) -> NoDup (map id sparse) ->
  fused dense sparse (sparse_pass 1 sparse (dense_pass 1 dense [])).
Proof.
  intros Hd Hs.
  apply (sparse_pass_fused sparse dense [] _); [|done].
  apply (dense_pass_fused dense [] [] _); [apply fused_nil|done].
Qed.

End fusion_facts.

Section search_facts.
Import hybrid_search.
Context {SparseVector DenseVector : Type}.
Variable sparse_embed : string -> SparseVector.
Variable dense_embed : string -> DenseVector.
Local Abbreviation Point := (PointStruct SparseVector DenseVector).
Local Abbreviation Item := (RankItem SparseVector DenseVector).
Variable search_dense : list Point -> DenseVector -> Z -> list Point.
Variable search_sparse : list Point -> SparseVector -> Z -> list Point.

Lemma rank_from_cases n k (l : list Point) :
  rank_from n k l = Infinity \/ exists m, rank_from n k l = Finite m /\ n <= m.
Proof.
  revert n. induction l as [|r l IH]; intros n; simpl; [by left|].
  destruct (String.eqb (id r) k).
  - right. exists n. split; [done|lia].
  - destruct (IH (n + 1)) as [->|(m & -> & ?)]; [by left|].
    right. exists m. split; [done|lia].
Qed.

(** With [alpha = 60] no division by zero can happen. *)
Lemma reciprocal_rank_of k (l : list Point) :
  reciprocal 60 (rank_of k l) = Ok (rrf_term 60 (rank_of k l)).
Proof.
  unfold rank_of. destruct (rank_from_cases 1 k l) as [->|(m & -> & Hm)]; [done|].
  simpl. destruct (Qeq_bool (60 + inject_Z m) 0) eqn:E; [|done].
  apply Qeq_bool_iff in E. rewrite Zle_Qle in Hm.
  change (inject_Z 1) with 1%Q in Hm. lra.
Qed.

Lemma score_all_ranked (dense sparse : list Point) (items : list Item) :
  Forall (fun item => exists k, dense_rank item = rank_of k dense
                                /\ sparse_rank item = rank_of k sparse) items ->
  score_all 60 items = Ok (map scored items).
Proof.
  induction 1 as [|item items (k & Hd & Hs) _ IH]; [done|].
  cbn [score_all map]. unfold rrf_score. rewrite Hd, Hs, !reciprocal_rank_of.
  simpl. rewrite IH. simpl. unfold scored, rrf. by rewrite Hd, Hs.
Qed.

Lemma insert_desc_perm (x : Point * Q) l : insert_desc x l ≡ₚ x :: l.
Proof.
  induction l as [|y l IH]; simpl; [done|].
  destruct (Qle_bool (snd y) (snd x)); [done|].
  rewrite IH. apply perm_swap.
Qed.

Lemma sorted_desc_perm (l : list (Point * Q)) : sorted_desc l ≡ₚ l.
Proof.
  induction l as [|x l IH]; simpl; [done|].
  rewrite insert_desc_perm. by constructor.
Qed.

#[local] Instance by_score_desc_trans :
  Transitive (by_score_desc (SparseVector := SparseVector) (DenseVector := DenseVector)).
Proof. intros x y z Hxy Hyz. unfold by_score_desc in *. lra. Qed.

Lemma insert_desc_sorted (x : Point * Q) l :
  Sorted by_score_desc l -> Sorted by_score_desc (insert_desc x l).
Proof.
  induction l as [|y l IH]; simpl; intros Hs.
  - by repeat constructor.
  - destruct (Qle_bool (snd y) (snd x)) eqn:E.
    + constructor; [done|]. constructor. by apply Qle_bool_iff.
    + apply Sorted_inv in Hs as [Hs Hhd]. constructor; [by apply IH|].
      assert (Hyx : by_score_desc y x).
      { unfold by_score_desc. apply not_true_iff_false in E.
        rewrite Qle_bool_iff in E. lra. }
      destruct l as [|z l]; simpl.
      * by constructor.
      * destruct (Qle_bool (snd z) (snd x)); constructor; [done|].
        by inversion Hhd.
Qed.

Lemma sorted_desc_sorted (l : list (Point * Q)) :
  StronglySorted by_score_desc (sorted_desc l).
Proof.
  apply Sorted_StronglySorted; [apply _|].
  induction l as [|x l IH]; simpl; [constructor|]. by apply insert_desc_sorted.
Qed.

Lemma values_items (dense sparse : list Point) (ranks : list (string * Item)) :
  fused dense sparse ranks ->
  map (fun item => id (result_ item)) (values ranks) = keys ranks
  /\ Forall (fun item => dense_rank item = rank_of (id (result_ item)) dense
                         /\ sparse_rank item = rank_of (id (result_ item)) sparse)
            (values ranks).
Proof.
  intros (Hnd & Hitems & _ & _).
  assert (Hall : forall k item, (k, item) ∈ ranks ->
            id (result_ item) = k /\ dense_rank item = rank_of k dense
            /\ sparse_rank item = rank_of k sparse).
  { intros k item Hin. apply Hitems. by apply elem_get. }
  clear Hnd Hitems. induction ranks as [|[k item] ranks IH]; [by split|].
  destruct IH as [IHk IHf]; [intros k' i' Hin; apply Hall; by right|].
  destruct (Hall k item) as (Hid & Hd & Hs); [left|].
  split.
  - simpl. f_equal; [done|exact IHk].
  - constructor; [simpl; by rewrite Hid|exact IHf].
Qed.

(** C4, as amended.  [search] embeds the query for both channels and
    issues the two searches with the limit [k]; when each returns at most
    [k] results with distinct ids, the fusion returns one entry for every
    id seen in either list and no other, each scored
    [1/(60 + r_dense) + 1/(60 + r_sparse)] with the rank of the id in each
    list and infinity on a side that did not return it, in descending
    order of score.  All fused entries are returned: at most [2k], not
    cut down to [k]. *)
Theorem search_returns_all_fused query limit self :
  let dense := search_dense (client self) (dense_embed query) limit in
  let sparse := search_sparse (client self) (sparse_embed query) limit in
  NoDup (map id dense) -> NoDup (map id sparse) ->
  Z.of_nat (length dense) <= limit -> Z.of_nat (length sparse) <= limit ->
  exists combined,
    _combine_results dense sparse 60 = Ok combined
    /\ search sparse_embed dense_embed search_dense search_sparse query limit self
       = Ok (map (fun rs => mkSearchHit (path (payload (fst rs))) (snd rs)
                                        (hash (payload (fst rs)))) combined)
    /\ (forall k, k ∈ map (fun rs => id (fst rs)) combined
                  <-> k ∈ map id dense \/ k ∈ map id sparse)
    /\ NoDup (map (fun rs => id (fst rs)) combined)
    /\ (forall p score, (p, score) ∈ combined ->
          score = rrf 60 (rank_of (id p) dense) (rank_of (id p) sparse))
    /\ StronglySorted by_score_desc combined
    /\ Z.of_nat (length combined) <= 2 * limit.
Proof.
  intros dense sparse Hd Hs Hld Hls.
  pose proof (passes_fused dense sparse Hd Hs) as Hf.
  destruct (values_items dense sparse _ Hf) as [Hids Hranks].
  destruct Hf as (Hnd & _ & Hkeys & Hlen).
  set (ranks := sparse_pass 1 sparse (dense_pass 1 dense [])) in *.
  assert (Hscore : score_all 60 (values ranks) = Ok (map scored (values ranks))).
  { apply (score_all_ranked dense sparse).
    eapply Forall_impl; [exact Hranks|]. intros item [? ?]. eauto. }
  assert (Hcomb : _combine_results dense sparse 60
                  = Ok (sorted_desc (map scored (values ranks)))).
  { unfold _combine_results. fold ranks. by rewrite Hscore. }
  exists (sorted_desc (map scored (values ranks))).
  pose proof (sorted_desc_perm (map scored (values ranks))) as Hperm.
  assert (Hidperm : map (fun rs : Point * Q => id (fst rs))
                      (sorted_desc (map scored (values ranks))) ≡ₚ keys ranks).
  { rewrite <- Hids.
    change (map (fun rs : Point * Q => id (fst rs))
              (sorted_desc (map scored (values ranks))))
      with ((fun rs : Point * Q => id (fst rs))
              <$> sorted_desc (map scored (values ranks))).
    rewrite Hperm. rewrite <- list_fmap_compose. done. }
  split; [done|]. split; [unfold search; fold dense sparse; by rewrite Hcomb|].
  split; [intros k; by rewrite Hidperm|].
  split; [by rewrite Hidperm|].
  split; [|split; [apply sorted_desc_sorted|]].
  - intros p score Hin. rewrite Hperm in Hin.
    apply list_elem_of_fmap in Hin as (item & [= -> ->] & Hitem).
    apply (proj1 (Forall_forall _ _) Hranks) in Hitem as [-> ->]. done.
  - rewrite Hperm, length_map. unfold values. rewrite length_map. lia.
Qed.

End search_facts.

(** C4 as stated fails: with limit 1 on a store of two points, the dense
    search returns one point and the sparse search the other, and [search]
    returns both. *)
Lemma search_returns_more_than_limit :
  match hybrid_search.search no_vector no_vector from_front from_back
          "query" 1 two_points with
  | Ok hits =>
      map hybrid_search.hit_path hits = ["a.py"; "b.py"]
      /\ (1 < Z.of_nat (length hits))
  | Raise _ => False
  end.
Proof. vm_compute. split; reflexivity. Qed.

Lemma search_returns_all_fused_witness :
  exists combined,
    hybrid_search._combine_results [point_a] [point_b] 60 = Ok combined
    /\ NoDup (map (fun rs => hybrid_search.id (fst rs)) combined)
    /\ Z.of_nat (length combined) <= 2 * 1.
Proof.
  destruct (search_returns_all_fused no_vector no_vector from_front from_back
              "query" 1 two_points) as (combined & Hc & _ & _ & Hnd & _ & _ & Hlen).
  - vm_compute. apply NoDup_singleton.
  - vm_compute. apply NoDup_singleton.
  - vm_compute. discriminate.
  - vm_compute. discriminate.
  - exists combined. split; [exact Hc|]. split; [exact Hnd|exact Hlen].
Defined.

(* ===================================================================== *)
(** * Part III. Further properties of the code                            *)
(* ===================================================================== *)

(** ** [Span]: extraction, length and addition *)

Section span_facts.

Lemma substring_split (s : string) :
  forall n m1 m2,
    substring n (m1 + m2) s
    = String.append (substring n m1 s) (substring (n + m1) m2 s).
Proof.
  induction s as [|c s IH]; intros [|n] [|m1] m2; simpl; try done.
  - by rewrite (IH 0%nat m1 m2).
  - apply (IH n 0%nat m2).
  - apply (IH n (S m1) m2).
Qed.

Lemma substring_none (s : string) n : substring n 0 s = EmptyString.
Proof. revert n. induction s as [|c s IH]; intros [|n]; simpl; auto. Qed.

Lemma substring_all (s : string) : substring 0 (String.length s) s = s.
Proof. induction s as [|c s IH]; simpl; [done|]. by rewrite IH. Qed.

Lemma length_substring_inside (s : string) :
  forall n m, (n + m <= String.length s)%nat -> String.length (substring n m s) = m.
Proof.
  induction s as [|c s IH]; intros [|n] [|m] H; simpl in *; try done; try lia.
  - by rewrite (IH 0%nat m) by lia.
  - rewrite (IH n 0%nat) by lia. done.
  - by rewrite (IH n (S m)) by lia.
Qed.

(** Slices that meet end to end. *)
Lemma slice_app (s : string) a b c :
  0 <= a -> a <= b -> b <= c ->
  String.append (slice s a b) (slice s b c) = slice s a c.
Proof.
  intros Ha Hab Hbc. unfold slice, clamp.
  destruct (a <? 0) eqn:Ea; [lia|]. destruct (b <? 0) eqn:Eb; [lia|].
  destruct (c <? 0) eqn:Ec; [lia|].
  set (n := Z.of_nat (String.length s)).
  replace (Z.to_nat (Z.min c n - Z.min a n))
    with (Z.to_nat (Z.min b n - Z.min a n) + Z.to_nat (Z.min c n - Z.min b n))%nat
    by lia.
  rewrite substring_split. do 2 f_equal. lia.
Qed.

Lemma concat_empty_cons (x : string) (l : list string) :
  String.concat EmptyString (x :: l) = String.append x (String.concat EmptyString l).
Proof.
  destruct l as [|y l]; simpl; [|done].
  induction x as [|c x IH]; [done|].
  change (String c x = String c (String.append x EmptyString)). by f_equal.
Qed.

(** The texts of spans that cover [lo, hi), one after the other, are the
    slice [lo:hi] of the buffer. *)
Lemma covers_concat (s : string) l :
  forall lo hi, covers lo hi l -> 0 <= lo ->
    String.concat EmptyString (map (fun sp => extract sp s) l) = slice s lo hi.
Proof.
  induction l as [|sp l IH]; intros lo hi Hcov Hlo.
  - simpl in *. subst hi. unfold slice.
    by rewrite Z.sub_diag, substring_none.
  - destruct Hcov as (Hs & Hle & Hr). cbn [map]. rewrite concat_empty_cons.
    rewrite (IH (end_ sp) hi Hr) by lia. unfold extract. rewrite Hs.
    apply slice_app; [lia|lia|]. apply covers_bounds in Hr. lia.
Qed.

Lemma slice_all (s : string) : slice s 0 (Z.of_nat (String.length s)) = s.
Proof.
  unfold slice, clamp. simpl.
  assert (E : (Z.of_nat (String.length s) <? 0) = false) by (apply Z.ltb_ge; lia).
  rewrite E, Z.min_id, Z.min_l by lia. simpl. rewrite Z.sub_0_r, Nat2Z.id.
  apply substring_all.
Qed.

(** X1.  [Span.__add__] is concatenation: for two spans inside or outside
    the buffer, the second starting where the first ends, the bytes the
    sum extracts are the bytes of the first followed by the bytes of the
    second. *)
Theorem extract_span_add (a b : Span) (s : string) :
  0 <= start a -> start a <= end_ a -> end_ a = start b -> start b <= end_ b ->
  extract (span_add a b) s = String.append (extract a s) (extract b s).
Proof.
  intros H0 Ha Hab Hb. unfold extract, span_add. simpl. rewrite <- Hab.
  symmetry. apply slice_app; lia.
Qed.

(** X2.  [Span.__len__] and [Span.extract] agree inside the buffer: a span
    with [0 <= start <= end <= len(s)] extracts exactly [len(span)] bytes;
    a span that reaches beyond the buffer extracts fewer, only the bytes
    from [start] to the end of the buffer. *)
Theorem extract_length (sp : Span) (s : string) :
  0 <= start sp -> start sp <= end_ sp ->
  (end_ sp <= Z.of_nat (String.length s) ->
     Z.of_nat (String.length (extract sp s)) = span_len sp)
  /\ (Z.of_nat (String.length s) <= end_ sp ->
      start sp <= Z.of_nat (String.length s) ->
      Z.of_nat (String.length (extract sp s))
      = Z.of_nat (String.length s) - start sp).
Proof.
  intros H0 Hle. unfold extract, slice, clamp, span_len.
  destruct (start sp <? 0) eqn:Es; [lia|]. destruct (end_ sp <? 0) eqn:Ee; [lia|].
  split.
  - intros Hin. rewrite length_substring_inside by lia. lia.
  - intros Hout Hs. rewrite length_substring_inside by lia. lia.
Qed.

End span_facts.

Lemma extract_span_add_witness :
  extract (span_add (mkSpan 0 3) (mkSpan 3 13)) gap_source
  = String.append (extract (mkSpan 0 3) gap_source) (extract (mkSpan 3 13) gap_source).
Proof.
  apply (extract_span_add (mkSpan 0 3) (mkSpan 3 13) gap_source); simpl; lia.
Defined.

Lemma extract_length_witness :
  Z.of_nat (String.length (extract (mkSpan 3 10) gap_source)) = 7.
Proof.
  apply (proj1 (extract_length (mkSpan 3 10) gap_source ltac:(simpl; lia)
                  ltac:(simpl; lia))).
  simpl. lia.
Defined.

(** ** [chunk_tree]: errors, the empty result, the texts of the spans *)

Section chunk_tree_facts.
Variable count : string -> Z.
Variable descendant_for_byte_range : Node -> Z -> Z -> option Node.
Variable self : CodeSplitter.
Variable source_code : string.

Local Abbreviation buffer_len := (Z.of_nat (String.length source_code)).
Local Abbreviation pass1 := (chunk_node count self source_code).
Local Abbreviation pass1_loop := (chunk_children count self source_code).
Local Abbreviation chunker :=
  (chunk_tree count descendant_for_byte_range self source_code).
Local Abbreviation tokens := (count_chunk count source_code).

(** The path of [chunk_tree] for two or more chunks. *)
Lemma chunk_tree_spans tree chunks :
  well_formed tree = true ->
  0 <= start_byte tree -> end_byte tree <= buffer_len ->
  pass1 tree = Ok chunks ->
  (2 <= length (filter nonempty chunks))%nat ->
  exists new_chunks,
    chunker tree
    = Ok (map (decorate descendant_for_byte_range self source_code tree) new_chunks)
    /\ covers 0 buffer_len new_chunks
    /\ 0 < buffer_len.
Proof.
  intros Hwf Hlo Hhi Hp Htwo.
  pose proof (chunk_node_ordered _ _ _ _ _ Hwf Hp) as Hord.
  pose proof (filter_nonempty_ordered _ _ _ Hord) as Hfilter.
  pose proof (ordered_filter_nonempty _ _ _ Hord) as Hkept.
  pose proof (Forall_nonempty_filter chunks) as Hne.
  destruct (filter nonempty chunks) as [|c1 [|c2 rest]] eqn:Hk;
    [simpl in Htwo; lia|simpl in Htwo; lia|].
  destruct (fill_gaps_covers source_code _ _ _ _ Hlo Hhi Hkept Hne) as [Hcov Hall].
  destruct (coalesce_chunks_covers count self source_code _ Hcov)
    as (new_chunks & Hco & Hnew).
  exists new_chunks. split; [|split; [done|]].
  - unfold chunk_tree. rewrite Hp. simpl. rewrite Hfilter. simpl.
    unfold partition_chunks. by rewrite Hco.
  - unfold fill_gaps in Hcov, Hall. cbn [align_ends] in Hcov, Hall.
    destruct Hcov as (Hg & _ & Hrest). apply covers_bounds in Hrest.
    apply Forall_cons in Hall as [Hgn _]. unfold nonempty, span_len in Hgn.
    simpl in *. lia.
Qed.

(** X3.  The chunks of a file are the file: for a well-formed parse tree
    inside the buffer that leaves two or more non-empty chunks after pass
    1, the bytes [Span.extract] takes for the returned spans, joined in
    order, are the whole buffer. *)
Theorem chunk_tree_texts_concat tree chunks :
  well_formed tree = true ->
  0 <= start_byte tree -> end_byte tree <= buffer_len ->
  pass1 tree = Ok chunks ->
  (2 <= length (filter nonempty chunks))%nat ->
  exists out,
    chunker tree = Ok out
    /\ String.concat EmptyString
         (map (fun chunk => extract (fst chunk) source_code) out)
       = source_code.
Proof.
  intros Hwf Hlo Hhi Hp Htwo.
  destruct (chunk_tree_spans tree chunks Hwf Hlo Hhi Hp Htwo)
    as (new_chunks & Hout & Hcov & _).
  eexists. split; [exact Hout|].
  rewrite <- (map_map fst (fun sp => extract sp source_code)), map_fst_decorate.
  rewrite (covers_concat source_code new_chunks 0 buffer_len Hcov) by lia.
  apply slice_all.
Qed.

Lemma len_raises (sp : Span) e : len sp = Raise e -> e = ValueError.
Proof. unfold len. destruct (span_len sp <? 0); [by intros [= <-]|done]. Qed.

Lemma filter_nonempty_raises (l : list Span) e :
  filter_nonempty l = Raise e -> e = ValueError.
Proof.
  induction l as [|c rest IH]; cbn [filter_nonempty]; [done|].
  destruct (len c) as [n|e'] eqn:Hlen; cbn.
  - destruct (filter_nonempty rest) as [kept|e'']; cbn; [done|].
    intros [= <-]. by apply IH.
  - intros [= <-]. by apply len_raises in Hlen.
Qed.

(** X4.  Without enforcement the chunker never raises
    [MaxChunkLengthExceededError], whatever the parse tree, the buffer and
    the token counts are. *)
Theorem chunk_tree_unenforced tree :
  enforce_max_chunk_tokens self = false ->
  chunk_tree count descendant_for_byte_range self source_code tree
  <> Raise MaxChunkLengthExceededError.
Proof.
  intros Hoff.
  destruct (chunk_node_unenforced count self source_code tree Hoff) as [chunks Hp].
  unfold chunk_tree. rewrite Hp. cbn.
  destruct (filter_nonempty chunks) as [kept|e] eqn:Hkept; cbn.
  - destruct kept as [|c1 [|c2 rest]]; [done| |].
    + destruct (len c1) as [n|e] eqn:Hlen; cbn; [done|].
      apply len_raises in Hlen. by subst e.
    + unfold partition_chunks, coalesce_chunks.
      destruct (coalesce_loop _ _ _ _ _ _ _) as [new_chunks aggregated_chunk].
      destruct (len aggregated_chunk) as [n|e] eqn:Hlen; cbn; [done|].
      apply len_raises in Hlen. by subst e.
  - apply filter_nonempty_raises in Hkept. by subst e.
Qed.

(** The only exception pass 1 raises. *)
Lemma chunk_children_raises cs :
  Forall (fun c => forall e, pass1 c = Raise e -> e = MaxChunkLengthExceededError) cs ->
  forall chunks current e,
    pass1_loop cs chunks current = Raise e -> e = MaxChunkLengthExceededError.
Proof.
  induction 1 as [|c r Hc _ IH]; intros chunks current e; cbn [chunk_children].
  - destruct (over_max _ _); [by intros [= <-]|done].
  - destruct (_ >? _).
    + destruct (over_max _ _); [by intros [= <-]|].
      destruct (pass1 c) as [sub|e'] eqn:Hsub; [apply IH|].
      intros [= <-]. by apply Hc.
    + destruct (_ >? _); [|apply IH].
      destruct (over_max _ _); [by intros [= <-]|apply IH].
Qed.

Lemma chunk_node_raises node e :
  pass1 node = Raise e -> e = MaxChunkLengthExceededError.
Proof.
  revert e. induction node as [t sb eb cs IH] using Node_nested_ind.
  intros e. rewrite chunk_node_eq. by apply chunk_children_raises.
Qed.

Lemma chunk_children_too_large cs child :
  enforce_max_chunk_tokens self = true ->
  child ∈ cs ->
  target_chunk_tokens self < tokens (mkSpan (start_byte child) (end_byte child)) ->
  max_chunk_tokens self < tokens (mkSpan (start_byte child) (end_byte child)) ->
  forall chunks current,
    pass1_loop cs chunks current = Raise MaxChunkLengthExceededError.
Proof.
  intros Hon Hin HT HM.
  induction cs as [|c r IH]; intros chunks current; [by inversion Hin|].
  cbn [chunk_children].
  apply elem_of_cons in Hin as [<-|Hin].
  - rewrite (gtb_true _ _ HT). unfold over_max.
    by rewrite (gtb_true _ _ HM), Hon.
  - specialize (IH Hin). destruct (_ >? _).
    + destruct (over_max _ _); [done|].
      destruct (pass1 c) as [sub|e] eqn:Hsub; [apply IH|].
      by rewrite (chunk_node_raises c e Hsub).
    + destruct (_ >? _); [|apply IH]. destruct (over_max _ _); [done|apply IH].
Qed.

(** X5.  With enforcement, a child of the root with more tokens than both
    the target and the maximum makes [chunk_tree] raise
    [MaxChunkLengthExceededError], whatever comes before or after it. *)
Theorem chunk_tree_too_large tree child :
  enforce_max_chunk_tokens self = true ->
  child ∈ code_splitter.children tree ->
  target_chunk_tokens self < tokens (mkSpan (start_byte child) (end_byte child)) ->
  max_chunk_tokens self < tokens (mkSpan (start_byte child) (end_byte child)) ->
  chunker tree = Raise MaxChunkLengthExceededError.
Proof.
  intros Hon Hin HT HM. unfold chunk_tree. rewrite chunk_node_eq.
  by rewrite (chunk_children_too_large _ child Hon Hin HT HM).
Qed.

(** X6.  The chunker returns the empty list exactly when pass 1 leaves no
    non-empty chunk (on a well-formed parse tree inside the buffer). *)
Theorem chunk_tree_empty_iff tree chunks :
  well_formed tree = true ->
  0 <= start_byte tree -> end_byte tree <= buffer_len ->
  pass1 tree = Ok chunks ->
  (chunker tree = Ok [] <-> filter nonempty chunks = []).
Proof.
  intros Hwf Hlo Hhi Hp. split.
  - intros Hnil.
    pose proof (chunk_node_ordered _ _ _ _ _ Hwf Hp) as Hord.
    pose proof (filter_nonempty_ordered _ _ _ Hord) as Hfilter.
    pose proof (Forall_nonempty_filter chunks) as Hne.
    destruct (filter nonempty chunks) as [|c1 [|c2 rest]] eqn:Hk; [done| |].
    + apply Forall_cons in Hne as [Hc _]. unfold nonempty in Hc.
      unfold chunk_tree in Hnil. rewrite Hp in Hnil. simpl in Hnil.
      rewrite Hfilter in Hnil. simpl in Hnil. unfold len in Hnil.
      destruct (span_len c1 <? 0) eqn:E; [lia|]. done.
    + destruct (chunk_tree_spans tree chunks Hwf Hlo Hhi Hp)
        as (new_chunks & Hout & Hcov & Hpos); [rewrite Hk; simpl; lia|].
      rewrite Hout in Hnil. injection Hnil as Hnil.
      destruct new_chunks; [simpl in Hcov; lia|done].
  - apply (chunk_tree_no_chunk count descendant_for_byte_range self source_code
             tree chunks Hwf Hp).
Qed.

Lemma coalesce_loop_keeps chunks :
  forall new_chunks agg agg_len,
    let result := coalesce_loop count self source_code chunks new_chunks agg agg_len in
    (forall sp, sp ∈ new_chunks -> sp ∈ fst result)
    /\ (forall sp, sp ∈ chunks -> target_chunk_tokens self < tokens sp ->
          sp ∈ fst result).
Proof.
  induction chunks as [|k r IH]; intros new_chunks agg agg_len; cbn zeta.
  - split; [done|]. intros sp Hin. by inversion Hin.
  - cbn [coalesce_loop].
    destruct (tokens k >? target_chunk_tokens self) eqn:Ebig.
    + destruct (IH (new_chunks ++ [agg; k]) (mkSpan (end_ k) (end_ k)) 0) as [Hold Hbig].
      split.
      * intros sp Hin. apply Hold. apply elem_of_app. by left.
      * intros sp [->|Hin]%elem_of_cons Hsp; [|by apply Hbig].
        apply Hold. apply elem_of_app. right.
        apply elem_of_cons. right. apply elem_of_cons. by left.
    + assert (Hk : forall sp, sp ∈ k :: r -> target_chunk_tokens self < tokens sp ->
                     sp ∈ r).
      { intros sp [->|Hin]%elem_of_cons Hsp; [|done].
        destruct (Z.gtb_spec (tokens k) (target_chunk_tokens self)); [done|lia]. }
      destruct (agg_len + tokens k >? target_chunk_tokens self).
      * destruct (IH (new_chunks ++ [agg]) (mkSpan (start k) (end_ k)) (tokens k))
          as [Hold Hbig].
        split; [|intros sp Hin Hsp; apply Hbig; [by apply Hk|done]].
        intros sp Hin. apply Hold. apply elem_of_app. by left.
      * destruct (agg_len + tokens k >? coalesce self).
        -- destruct (IH (new_chunks ++ [span_add agg k]) (mkSpan (end_ k) (end_ k)) 0)
             as [Hold Hbig].
           split; [|intros sp Hin Hsp; apply Hbig; [by apply Hk|done]].
           intros sp Hin. apply Hold. apply elem_of_app. by left.
        -- destruct (IH new_chunks (span_add agg k) (agg_len + tokens k))
             as [Hold Hbig].
           split; [done|]. intros sp Hin Hsp. apply Hbig; [by apply Hk|done].
Qed.

(** X7.  Coalescing never merges a chunk that is over the target: every
    chunk with more tokens than [target_chunk_tokens] is returned by the
    coalescing pass as a span of its own, unchanged. *)
Theorem coalesce_keeps_large_chunks chunks out sp :
  coalesce_chunks count self source_code chunks = Ok out ->
  sp ∈ chunks -> target_chunk_tokens self < tokens sp ->
  sp ∈ out.
Proof.
  unfold coalesce_chunks. intros Hout Hin Hsp.
  destruct (coalesce_loop_keeps chunks [] (mkSpan 0 0) 0) as [_ Hbig].
  specialize (Hbig sp Hin Hsp).
  destruct (coalesce_loop _ _ _ _ _ _ _) as [new_chunks agg]. simpl in *.
  destruct (len agg) as [n|]; [|done]. simpl in Hout. injection Hout as <-.
  destruct (n >? 0); [|done]. apply elem_of_app. by left.
Qed.

End chunk_tree_facts.

Lemma chunk_tree_texts_concat_witness :
  exists out,
    chunk_tree byte_count ts_descendant_for_byte_range loose_splitter
      gap_source gap_tree = Ok out
    /\ String.concat EmptyString (map (fun chunk => extract (fst chunk) gap_source) out)
       = gap_source.
Proof.
  apply (chunk_tree_texts_concat byte_count ts_descendant_for_byte_range
           loose_splitter gap_source gap_tree [mkSpan 0 3; mkSpan 10 13]).
  - reflexivity.
  - simpl; lia.
  - simpl; lia.
  - reflexivity.
  - vm_compute. lia.
Defined.

Lemma chunk_tree_unenforced_witness :
  chunk_tree byte_count ts_descendant_for_byte_range (default_splitter "python")
    imports_source imports_tree
  <> Raise MaxChunkLengthExceededError.
Proof.
  apply (chunk_tree_unenforced byte_count ts_descendant_for_byte_range
           (default_splitter "python") imports_source imports_tree).
  reflexivity.
Defined.

Lemma chunk_tree_too_large_witness :
  chunk_tree byte_count ts_descendant_for_byte_range strict_splitter gap_source
    (mkNode "module" 0 13 [leaf "expression_statement" 0 13])
  = Raise MaxChunkLengthExceededError.
Proof.
  apply (chunk_tree_too_large byte_count ts_descendant_for_byte_range
           strict_splitter gap_source
           (mkNode "module" 0 13 [leaf "expression_statement" 0 13])
           (leaf "expression_statement" 0 13)).
  - reflexivity.
  - simpl. apply elem_of_cons. by left.
  - vm_compute. reflexivity.
  - vm_compute. reflexivity.
Defined.

Lemma chunk_tree_empty_iff_witness :
  chunk_tree byte_count ts_descendant_for_byte_range (default_splitter "python")
    blank_source blank_tree = Ok []
  <-> filter nonempty [mkSpan 0 0] = [].
Proof.
  apply (chunk_tree_empty_iff byte_count ts_descendant_for_byte_range
           (default_splitter "python") blank_source blank_tree [mkSpan 0 0]).
  - reflexivity.
  - simpl; lia.
  - simpl; lia.
  - reflexivity.
Defined.

Lemma coalesce_keeps_large_chunks_witness :
  mkSpan 0 10 ∈ [mkSpan 0 0; mkSpan 0 10; mkSpan 10 13].
Proof.
  apply (coalesce_keeps_large_chunks byte_count strict_splitter gap_source
           [mkSpan 0 10; mkSpan 10 13]).
  - reflexivity.
  - apply elem_of_cons. by left.
  - vm_compute. reflexivity.
Defined.

(** ** Lines: [split_and_keep_newline], [get_line_number], [extract_lines] *)

Section line_facts.

Lemma split_and_keep_newline_cons (s : string) :
  exists piece pieces, split_and_keep_newline s = piece :: pieces.
Proof.
  destruct s as [|c s]; simpl; [eauto|].
  destruct (Ascii.eqb c LF); [eauto|].
  destruct (split_and_keep_newline s); eauto.
Qed.

(** X8.  [split_and_keep_newline] loses nothing: the pieces joined give
    the text back, and there is one piece more than the text has
    newlines. *)
Theorem split_and_keep_newline_round_trip (s : string) :
  String.concat EmptyString (split_and_keep_newline s) = s
  /\ length (split_and_keep_newline s) = S (newlines s).
Proof.
  induction s as [|c s [IHc IHl]]; [done|]. cbn [split_and_keep_newline newlines].
  destruct (split_and_keep_newline_cons s) as (p & ps & Hs).
  rewrite Hs in *. destruct (Ascii.eqb c LF).
  - split; [|simpl in *; lia]. rewrite concat_empty_cons. by rewrite IHc.
  - split; [|done]. rewrite concat_empty_cons in *.
    change (String c (String.append p (String.concat EmptyString ps)) = String c s).
    by rewrite IHc.
Qed.

Lemma get_line_number_loop_head c piece pieces line_number total index :
  get_line_number_loop (String c piece :: pieces) line_number total index
  = get_line_number_loop (piece :: pieces) line_number (total + 1) index.
Proof.
  cbn [get_line_number_loop String.length].
  by replace (total + Z.of_nat (S (String.length piece)))
    with (total + 1 + Z.of_nat (String.length piece)) by lia.
Qed.

(** Decide the comparisons of the goal. *)
Ltac compare_all :=
  repeat match goal with
         | |- context [?a >? ?b] => destruct (Z.gtb_spec a b)
         | |- context [?a <? ?b] => destruct (Z.ltb_spec a b)
         end.

Lemma get_line_number_loop_spec (s : string) :
  forall line_number total index,
    total <= index ->
    get_line_number_loop (split_and_keep_newline s) line_number total index
    = if index - total <? Z.of_nat (String.length s)
      then line_number - 1
           + Z.of_nat (newlines (first_bytes (Z.to_nat (index - total)) s))
      else line_number + Z.of_nat (newlines s).
Proof.
  unfold first_bytes.
  induction s as [|c s IH]; intros line_number total index Hle.
  - cbn [split_and_keep_newline get_line_number_loop String.length newlines].
    compare_all; lia.
  - cbn [split_and_keep_newline newlines String.length].
    destruct (Z.eq_dec index total) as [->|Hne].
    + rewrite Z.sub_diag. change (Z.to_nat 0) with 0%nat.
      cbn [substring newlines].
      destruct (Ascii.eqb c LF).
      * cbn [get_line_number_loop String.length]. compare_all; lia.
      * destruct (split_and_keep_newline_cons s) as (p & ps & ->).
        cbn [get_line_number_loop String.length]. compare_all; lia.
    + replace (Z.to_nat (index - total)) with (S (Z.to_nat (index - (total + 1))))
        by lia.
      cbn [substring newlines].
      assert (Hcmp : (index - total <? Z.of_nat (S (String.length s)))
                     = (index - (total + 1) <? Z.of_nat (String.length s))).
      { compare_all; lia. }
      rewrite Hcmp. destruct (split_and_keep_newline_cons s) as (p & ps & Hs).
      destruct (Ascii.eqb c LF).
      * cbn [get_line_number_loop String.length]. rewrite Hs.
        destruct (Z.gtb_spec (total + Z.of_nat 1) index); [lia|].
        rewrite <- Hs. replace (total + Z.of_nat 1) with (total + 1) by lia.
        rewrite IH by lia. clear Hcmp. rewrite !Nat2Z.inj_succ.
        destruct (index - (total + 1) <? Z.of_nat (String.length s)); lia.
      * rewrite Hs. rewrite get_line_number_loop_head, <- Hs. by rewrite IH by lia.
Qed.

(** X9.  [get_line_number] counts newlines: for a byte offset inside the
    buffer it is the number of newlines before that byte (the line of the
    byte, counted from 0); for an offset at or beyond the end of the buffer
    it is the number of newlines of the buffer plus one; for a negative
    offset it is 0. *)
Theorem get_line_number_spec (source_code : string) (index : Z) :
  get_line_number source_code index =
  if index <? 0 then 0
  else if index <? Z.of_nat (String.length source_code)
  then Z.of_nat (newlines (first_bytes (Z.to_nat index) source_code))
  else Z.of_nat (newlines source_code) + 1.
Proof.
  unfold get_line_number. destruct (Z.ltb_spec index 0) as [Hneg|Hpos].
  - destruct (split_and_keep_newline_cons source_code) as (p & ps & ->).
    cbn [get_line_number_loop]. destruct (Z.gtb_spec (0 + Z.of_nat (String.length p)) index);
      lia.
  - rewrite get_line_number_loop_spec by done. rewrite Z.sub_0_r.
    destruct (_ <? _); lia.
Qed.

Lemma split_lines_cons (s : string) :
  exists line lines, split_lines s = line :: lines.
Proof.
  destruct s as [|c s]; simpl; [eauto|].
  destruct (Ascii.eqb c LF); [eauto|]. destruct (split_lines s); eauto.
Qed.

Lemma join_lines_head (c : ascii) (p : string) (ps : list string) :
  join_lines (String c p :: ps) = String c (join_lines (p :: ps)).
Proof. by destruct ps. Qed.

Lemma join_split_lines (s : string) : join_lines (split_lines s) = s.
Proof.
  induction s as [|c s IH]; [done|]. cbn [split_lines].
  destruct (split_lines_cons s) as (p & ps & Hs). rewrite Hs in *.
  destruct (Ascii.eqb c LF) eqn:E.
  - apply Ascii.eqb_eq in E. subst c.
    change (String LF (join_lines (p :: ps)) = String LF s). by rewrite IH.
  - by rewrite join_lines_head, IH.
Qed.

Lemma length_split_lines (s : string) : length (split_lines s) = S (newlines s).
Proof.
  induction s as [|c s IH]; [done|]. cbn [split_lines newlines].
  destruct (split_lines_cons s) as (p & ps & Hs). rewrite Hs in *.
  destruct (Ascii.eqb c LF); simpl in *; lia.
Qed.

(** X10.  [Span.extract_lines] at its bounds, for a text of [n] lines
    (one more than it has newlines): a span from 0 to [n] or beyond gives
    the whole text back, a span that starts at [n] or beyond gives the
    empty text, and an empty span at a line inside the text gives a single
    newline, not the empty text. *)
Theorem extract_lines_bounds (sp : Span) (s : string) :
  let n := Z.of_nat (S (newlines s)) in
  (start sp = 0 -> n <= end_ sp -> extract_lines sp s = s)
  /\ (n <= start sp -> start sp <= end_ sp -> extract_lines sp s = EmptyString)
  /\ (0 <= start sp -> start sp = end_ sp -> end_ sp < n ->
      extract_lines sp s = String LF EmptyString).
Proof.
  intros n. subst n. rewrite <- length_split_lines.
  unfold extract_lines, slice_list, clamp.
  set (lines := split_lines s). set (n := Z.of_nat (length lines)).
  split; [|split].
  - intros -> Hend. simpl.
    destruct (Z.ltb_spec (end_ sp) 0); [lia|].
    destruct (Z.ltb_spec (end_ sp) n); [lia|].
    rewrite Z.min_r, Z.min_l by lia. rewrite Z.sub_0_r. unfold n.
    rewrite Nat2Z.id, firstn_all. apply join_split_lines.
  - intros Hstart Hle.
    destruct (Z.ltb_spec (start sp) 0); [lia|].
    destruct (Z.ltb_spec (end_ sp) 0); [lia|].
    destruct (Z.ltb_spec (end_ sp) n); [lia|].
    rewrite !Z.min_r by lia. by rewrite Z.sub_diag.
  - intros Hstart Heq Hend. rewrite <- Heq.
    destruct (Z.ltb_spec (start sp) 0); [lia|].
    destruct (Z.ltb_spec (start sp) n); [|lia].
    by rewrite Z.sub_diag.
Qed.

End line_facts.

Lemma extract_lines_bounds_witness :
  extract_lines (mkSpan 0 20) imports_source = imports_source
  /\ extract_lines (mkSpan 3 20) imports_source = EmptyString
  /\ extract_lines (mkSpan 1 1) imports_source = String LF EmptyString.
Proof.
  split; [|split].
  - apply (proj1 (extract_lines_bounds (mkSpan 0 20) imports_source));
      [reflexivity|simpl; lia].
  - apply (proj1 (proj2 (extract_lines_bounds (mkSpan 3 20) imports_source)));
      simpl; lia.
  - apply (proj2 (proj2 (extract_lines_bounds (mkSpan 1 1) imports_source)));
      simpl; lia.
Defined.

(** ** Symbols and imports of a parse tree, and the two entry points *)

Section symbol_facts.
Variable source_code : string.

Local Abbreviation node_text := (text source_code).
Local Abbreviation names_of :=
  (fun n : Node => first_identifier source_code (code_splitter.children n)).

Lemma flat_map_descendants {A} (f : Node -> list A) (g : Node -> list A) cs :
  Forall (fun c => f c = flat_map g (descendants c)) cs ->
  flat_map f cs = flat_map g (flat_map descendants cs).
Proof.
  induction 1 as [|c cs Hc _ IH]; [done|].
  cbn [flat_map]. by rewrite flat_map_app, Hc, IH.
Qed.

Lemma flat_map_filter_map {A B} (p : A -> bool) (f : A -> B) (l : list A) :
  flat_map (fun x => if p x then [f x] else []) l = map f (List.filter p l).
Proof.
  induction l as [|x l IH]; [done|]. cbn [flat_map List.filter].
  rewrite IH. by destruct (p x).
Qed.

Lemma flat_map_filter_flat_map {A B} (p : A -> bool) (f : A -> list B) (l : list A) :
  flat_map (fun x => if p x then f x else []) l = flat_map f (List.filter p l).
Proof.
  induction l as [|x l IH]; [done|]. cbn [flat_map List.filter].
  rewrite IH. by destruct (p x).
Qed.

(** X11.  [_extract_imports] returns the texts of all the import
    statements ([import_statement] and [import_from_statement] nodes) at
    and below the node, nested ones included, parents before children and
    left to right. *)
Theorem _extract_imports_descendants (node : Node) :
  _extract_imports source_code node
  = map node_text (List.filter is_import (descendants node)).
Proof.
  rewrite <- flat_map_filter_map.
  induction node as [t sb eb cs IH] using Node_nested_ind.
  cbn [_extract_imports descendants flat_map]. f_equal.
  - unfold is_import, text. cbn [type start_byte end_byte].
    by destruct (String.eqb t "import_statement"),
                (String.eqb t "import_from_statement").
  - by apply flat_map_descendants.
Qed.

(** X12.  [_extract_symbols] returns, for every function or class
    definition at and below the node, parents before children and left to
    right, the text of the first direct child of type [identifier]; a
    definition without such a child contributes nothing. *)
Theorem _extract_symbols_descendants (node : Node) :
  _extract_symbols source_code node
  = flat_map names_of (List.filter is_definition (descendants node)).
Proof.
  rewrite <- flat_map_filter_flat_map.
  induction node as [t sb eb cs IH] using Node_nested_ind.
  cbn [_extract_symbols descendants flat_map]. f_equal.
  by apply flat_map_descendants.
Qed.

End symbol_facts.

Section entry_point_facts.
Variable count : string -> Z.
Variable descendant_for_byte_range : Node -> Z -> Z -> option Node.
Variable parse : string -> Node.
Variable parser_built : bool.
Variable self : CodeSplitter.

Local Abbreviation with_metadata :=
  (split_text_with_metadata count descendant_for_byte_range parse parser_built self).
Local Abbreviation without_metadata :=
  (split_text count descendant_for_byte_range parse parser_built self).

(** X13.  [split_text] and [split_text_with_metadata] agree: they raise on
    the same texts, and the chunks of the former are the texts of the
    chunks of the latter, in the same order. *)
Theorem split_text_agrees (text : string) :
  without_metadata text = (chunks ← with_metadata text; Ok (map fst chunks)).
Proof.
  unfold split_text, split_text_with_metadata.
  destruct (_get_language parser_built self); [|done]. cbn.
  destruct (parses_without_error (parse text)); [|done].
  destruct (chunk_tree _ _ _ _ _); [|done]. cbn.
  by rewrite map_map.
Qed.

(** X14.  Only Python can be split: with any other language, or without
    the compiled grammar, both entry points raise [ValueError] for every
    text, before the text is parsed. *)
Theorem split_text_unsupported (text : string) :
  cs_language self <> "python" \/ parser_built = false ->
  with_metadata text = Raise ValueError
  /\ without_metadata text = Raise ValueError.
Proof.
  intros H. unfold split_text, split_text_with_metadata, _get_language.
  destruct (String.eqb_spec (cs_language self) "python") as [E|E].
  - destruct H as [H| ->]; [done|]. by split.
  - by split.
Qed.

End entry_point_facts.

Lemma split_text_unsupported_witness :
  split_text_with_metadata byte_count ts_descendant_for_byte_range
    failing_parse true (default_splitter "javascript") imports_source
  = Raise ValueError
  /\ split_text byte_count ts_descendant_for_byte_range
       failing_parse true (default_splitter "javascript") imports_source
     = Raise ValueError.
Proof.
  apply (split_text_unsupported byte_count ts_descendant_for_byte_range
           failing_parse true (default_splitter "javascript") imports_source).
  left. simpl. discriminate.
Defined.

(** ** The Merkle tree: what [build_tree] establishes, what [get_changes]
    reports, what [update_file] leaves alone *)

Section merkle_tree_facts.
Variable sha256_hex : string -> string.

Local Abbreviation build := (_build_node sha256_hex).
Local Abbreviation dir_hash := (compute_directory_hash sha256_hex).

Lemma FsEntry_nested_ind (P : FsEntry -> Prop) :
  (forall content, P (FsFile content)) ->
  (forall entries, Forall (fun e => P (snd e)) entries -> P (FsDir entries)) ->
  forall fs, P fs.
Proof.
  intros Hfile Hdir. fix IH 1. intros [content|entries]; [apply Hfile|].
  apply Hdir. induction entries as [|[k e] rest IHr]; constructor; [apply IH|apply IHr].
Qed.

Lemma names_distinct_dir entries :
  names_distinct (FsDir entries) <->
  NoDup (keys entries) /\ Forall (fun e => names_distinct (snd e)) entries.
Proof.
  cbn [names_distinct]. split; intros [Hnd Hall]; (split; [done|]); clear Hnd.
  - induction entries as [|e r IH]; [constructor|]. destruct Hall. constructor; auto.
  - induction Hall; [done|]. split; auto.
Qed.

Lemma set_fresh {V} k (v : V) d : get k d = None -> set k v d = d ++ [(k, v)].
Proof.
  induction d as [|[k' v'] d IH]; simpl; [done|].
  destruct (String.eqb k k'); [done|]. intros H. by rewrite IH.
Qed.

Lemma build_children_fresh entries :
  forall ch hs,
    NoDup (keys ch ++ keys entries) ->
    fst (build_children sha256_hex entries ch hs)
    = ch ++ map (fun e => (fst e, build (snd e) new_node)) entries.
Proof.
  induction entries as [|[item sub] rest IH]; intros ch hs Hnd.
  - simpl. by rewrite app_nil_r.
  - cbn [build_children map fst snd].
    assert (Hfresh : get item ch = None).
    { apply get_None. apply NoDup_app in Hnd as (_ & Hnd & _).
      intros Hin. apply (Hnd item Hin). cbn. left. }
    rewrite IH; rewrite set_fresh by done.
    + by rewrite <- app_assoc.
    + unfold keys in *. rewrite map_app, <- app_assoc. exact Hnd.
Qed.

Lemma build_dir_children entries :
  NoDup (keys entries) ->
  build (FsDir entries) new_node
  = mkMerkleNode
      (dir_hash (map (fun e => hash_value (build (snd e) new_node)) entries))
      false
      (map (fun e => (fst e, build (snd e) new_node)) entries).
Proof.
  intros Hnd. rewrite _build_node_dir.
  change (merkle_tree.children new_node) with (@nil (string * MerkleNode)).
  pose proof (build_children_fresh entries [] [] Hnd) as Hc.
  pose proof (build_children_hashes sha256_hex entries [] []) as Hh.
  destruct (build_children sha256_hex entries [] []) as [c h].
  cbn [fst snd app] in Hc, Hh. by subst.
Qed.

Lemma _collect_files_build fs :
  names_distinct fs ->
  forall prefix, _collect_files prefix (build fs new_node) = fs_files prefix fs.
Proof.
  induction fs as [content|entries IH] using FsEntry_nested_ind; intros Hwf prefix.
  - reflexivity.
  - apply names_distinct_dir in Hwf as [Hnd Hall].
    rewrite build_dir_children by done. cbn [_collect_files fs_files].
    clear Hnd. induction IH as [|e r He _ IHr]; [done|].
    apply Forall_cons in Hall as [Hwe Hall].
    cbn [map flat_map fst snd]. by rewrite He, IHr.
Qed.

(** X15.  The files of a tree just built are the regular files of the
    directory tree, as paths from the root, directories in listing order;
    directories themselves, empty ones included, are not listed. *)
Theorem get_all_files_build_tree fs :
  names_distinct fs ->
  get_all_files (build_tree sha256_hex fs) = fs_files [] fs.
Proof. intros Hwf. by apply _collect_files_build. Qed.

(** X16.  In a tree just built every directory node carries the directory
    hash of the hashes of its children. *)
Theorem build_tree_hashes_consistent fs :
  names_distinct fs ->
  hashes_consistent sha256_hex (build_tree sha256_hex fs).
Proof.
  unfold build_tree.
  induction fs as [content|entries IH] using FsEntry_nested_ind; intros Hwf.
  - by split.
  - apply names_distinct_dir in Hwf as [Hnd Hall].
    rewrite build_dir_children by done. cbn [hashes_consistent]. split.
    + intros _. f_equal. unfold values. by rewrite !map_map.
    + clear Hnd. induction IH as [|e r He _ IHr]; [done|].
      apply Forall_cons in Hall as [Hwe Hall].
      split; [by apply He|by apply IHr].
Qed.

(** X17.  Listing order alone is no change: between the trees built from
    two directory trees with the same contents, whatever the order in
    which their directories list their entries, [get_changes] reports
    nothing. *)
Theorem get_changes_same_contents fs1 fs2 :
  same_contents fs1 fs2 ->
  get_changes (build_tree sha256_hex fs1) (build_tree sha256_hex fs2) = Some [].
Proof.
  intros Hsame. unfold get_changes, build_tree. cbn [_compare_nodes].
  by rewrite (same_contents_hash sha256_hex fs1 fs2 Hsame), String.eqb_refl.
Qed.

Lemma hash_at_child name q node :
  hash_at (name :: q) node = hash_at q (child_or_sentinel name node).
Proof.
  unfold hash_at, child_or_sentinel. cbn [node_at].
  destruct (get name (merkle_tree.children node)); [done|]. by destruct q.
Qed.

Lemma node_at_child_or_sentinel name q node n :
  node_at q (child_or_sentinel name node) = Some n -> is_file n = true ->
  node_at (name :: q) node = Some n.
Proof.
  unfold child_or_sentinel. cbn [node_at].
  destruct (get name (merkle_tree.children node)); [done|].
  destruct q; simpl; [|done]. by intros [= <-].
Qed.

Lemma _compare_nodes_sound depth :
  forall path node1 node2 changes,
    _compare_nodes depth path node1 node2 = Some changes ->
    forall p, p ∈ changes ->
      exists q n, p = path ++ q /\ node_at q node1 = Some n
                  /\ is_file n = true
                  /\ hash_value n <> hash_at q node2.
Proof.
  induction depth as [|depth IH]; intros path node1 node2 changes; [done|].
  cbn [_compare_nodes].
  destruct (String.eqb_spec (hash_value node1) (hash_value node2)) as [E|E];
    cbn [negb].
  - intros [= <-] p Hp. by apply elem_of_nil in Hp.
  - destruct (is_file node1) eqn:Hf.
    + intros [= <-] p ->%list_elem_of_singleton. exists [], node1.
      by rewrite app_nil_r.
    + generalize (all_children node1 node2). intros names. revert changes.
      induction names as [|name names IHn]; intros changes.
      * intros [= <-] p Hp. by apply elem_of_nil in Hp.
      * destruct (_compare_nodes depth (path ++ [name])
                    (child_or_sentinel name node1)
                    (child_or_sentinel name node2)) as [here|] eqn:Hhere; [|done].
        match goal with
        | |- match ?e with _ => _ end = _ -> _ =>
            destruct e as [there|] eqn:Hthere; [|done]
        end.
        intros [= <-] p [Hp|Hp]%elem_of_app.
        -- destruct (IH _ _ _ _ Hhere p Hp) as (q & n & -> & Hn & Hfile & Hne).
           exists (name :: q), n. rewrite <- app_assoc.
           split; [done|]. split; [by apply node_at_child_or_sentinel|].
           split; [done|]. by rewrite hash_at_child.
        -- by apply (IHn there).
Qed.

(** X18.  [get_changes] always returns, and every path it reports is a
    file node of the tree it is called on whose hash differs from the
    hash the other tree has at that path (the empty hash if the other
    tree has no node there).  It never reports a directory, nor a path
    that only the other tree has. *)
Theorem get_changes_sound (self other : MerkleNode) :
  exists changes,
    get_changes self other = Some changes
    /\ forall p, p ∈ changes ->
         exists n, node_at p self = Some n /\ is_file n = true
                   /\ hash_value n <> hash_at p other.
Proof.
  destruct (get_changes_total self other) as [changes Hc].
  exists changes. split; [done|]. intros p Hp.
  destruct (_compare_nodes_sound _ _ _ _ _ Hc p Hp) as (q & n & -> & H).
  by exists n.
Qed.

(** X19.  On the tree built from the directory tree that is still on disk,
    [get_node_hash] of a path below the root is the hash of the tree built
    from the entry at that path alone, and [None] when nothing is there. *)
Theorem get_node_hash_build_tree fs path :
  names_distinct fs -> path <> [] ->
  get_node_hash fs path (build_tree sha256_hex fs)
  = option_map (fun entry => hash_value (build_tree sha256_hex entry))
      (fs_lookup fs path).
Proof.
  intros Hwf Hne. destruct (fs_lookup fs path) as [entry|] eqn:Hlookup.
  - by apply get_node_hash_after_build.
  - unfold get_node_hash, exists_. by rewrite Hlookup.
Qed.

Lemma node_at_at_path_other common :
  forall a b r1 r2 f node,
    a <> b ->
    node_at (common ++ b :: r2) (at_path (common ++ a :: r1) f node)
    = node_at (common ++ b :: r2) node.
Proof.
  induction common as [|x common IH]; intros a b r1 r2 f node Hne.
  - cbn [app at_path node_at merkle_tree.children]. by rewrite get_set_ne.
  - cbn [app at_path node_at merkle_tree.children]. rewrite get_set_eq, IH by done.
    unfold child_or_sentinel.
    destruct (get x (merkle_tree.children node)); [done|]. by destruct common.
Qed.

Lemma node_at_update_parent_hashes_other dirs :
  forall q node,
    (forall r, dirs <> q ++ r) ->
    node_at q (_update_parent_hashes sha256_hex dirs node) = node_at q node.
Proof.
  induction dirs as [|part rest IH]; intros q node Hq; [done|].
  cbn [_update_parent_hashes].
  destruct (get part (merkle_tree.children node)) as [c|] eqn:Hget; [|done].
  destruct q as [|x q]; [by destruct (Hq (part :: rest))|].
  cbn [node_at merkle_tree.children].
  destruct (String.eqb_spec part x) as [<-|Hne].
  - rewrite get_set_eq, Hget, IH.
    + destruct c as [h f cs]. apply node_at_children.
      intros ->. by apply (Hq rest).
    + intros r ->. by apply (Hq r).
  - by rewrite get_set_ne.
Qed.

(** X20.  [update_file] leaves alone whatever is off the path of the file:
    at every path that leaves the path of the file at some name, the tree
    has the same node (or none) after the call as before, however the
    call ends. *)
Theorem update_file_frame fs file_path root common a b r1 r2 :
  path_parts file_path = common ++ a :: r1 -> a <> b ->
  node_at (common ++ b :: r2) (fst (update_file sha256_hex fs file_path root))
  = node_at (common ++ b :: r2) root.
Proof.
  intros Hparts Hne. unfold update_file.
  destruct (fs_lookup fs file_path) as [[content|entries]|]; [| |done]; rewrite Hparts.
  - cbn [fst]. rewrite node_at_update_parent_hashes_other.
    + by rewrite !node_at_at_path_other.
    + intros r Hr.
      assert (Hpre : common ++ a :: r1
                     = (common ++ b :: r2) ++ r ++ [List.last (common ++ a :: r1) a]).
      { rewrite app_assoc, <- Hr. apply app_removelast_last. by destruct common. }
      rewrite <- !app_assoc in Hpre. apply app_inv_head in Hpre.
      by injection Hpre.
  - cbn [fst]. by rewrite node_at_at_path_other.
Qed.

End merkle_tree_facts.

Lemma project_names_distinct : names_distinct project.
Proof.
  cbn. repeat split; apply (bool_decide_unpack _); by vm_compute.
Qed.

Lemma get_all_files_build_tree_witness :
  get_all_files (build_tree tag_digest project) = fs_files [] project.
Proof.
  apply (get_all_files_build_tree tag_digest project). exact project_names_distinct.
Defined.

Lemma build_tree_hashes_consistent_witness :
  hashes_consistent tag_digest (build_tree tag_digest project).
Proof.
  apply (build_tree_hashes_consistent tag_digest project).
  exact project_names_distinct.
Defined.

Lemma get_changes_same_contents_witness :
  get_changes (build_tree tag_digest project)
    (build_tree tag_digest project_listed_otherwise) = Some [].
Proof.
  apply (get_changes_same_contents tag_digest project project_listed_otherwise).
  exact project_same_contents.
Defined.

Lemma get_node_hash_build_tree_witness :
  get_node_hash project ["a"; "x"] (build_tree tag_digest project)
  = option_map (fun entry => hash_value (build_tree tag_digest entry))
      (fs_lookup project ["a"; "x"]).
Proof.
  apply (get_node_hash_build_tree tag_digest project ["a"; "x"]).
  - exact project_names_distinct.
  - discriminate.
Defined.

Lemma update_file_frame_witness :
  node_at ["a"; "y"]
    (fst (update_file tag_digest project ["a"; "x"] (build_tree tag_digest project)))
  = node_at ["a"; "y"] (build_tree tag_digest project).
Proof.
  apply (update_file_frame tag_digest project ["a"; "x"]
           (build_tree tag_digest project) ["a"] "x" "y" [] []).
  - reflexivity.
  - discriminate.
Defined.

(** ** The index: the vector store after [update_index] and [index_files],
    the splitter cache, the fusion *)

Section index_facts.
Import hybrid_search.
Variable count : string -> Z.
Variable descendant_for_byte_range : Node -> Z -> Z -> option Node.
Variable parse : string -> Node.
Variable parser_built : bool.
Variable sha256_hex : string -> string.
Variable EXTENSION_TO_TREE_SITTER_LANGUAGE : list (string * string).
Context {SparseVector DenseVector : Type}.
Variable sparse_embed : string -> SparseVector.
Variable dense_embed : string -> DenseVector.

Local Abbreviation Point := (PointStruct SparseVector DenseVector).
Local Abbreviation Item := (RankItem SparseVector DenseVector).

Variable client_delete : string -> list Point -> list Point * result unit.
Variable client_upsert : list Point -> list Point -> list Point * result unit.

Local Abbreviation update :=
  (update_index count descendant_for_byte_range parse parser_built sha256_hex
     EXTENSION_TO_TREE_SITTER_LANGUAGE sparse_embed dense_embed
     client_delete client_upsert).
Local Abbreviation bulk :=
  (index_files count descendant_for_byte_range parse parser_built
     EXTENSION_TO_TREE_SITTER_LANGUAGE sparse_embed dense_embed client_upsert).
Local Abbreviation bulk_loop :=
  (index_loop count descendant_for_byte_range parse parser_built
     EXTENSION_TO_TREE_SITTER_LANGUAGE sparse_embed dense_embed).
Local Abbreviation get_splitter :=
  (_get_code_splitter EXTENSION_TO_TREE_SITTER_LANGUAGE).
Local Abbreviation split :=
  (split_text_with_metadata count descendant_for_byte_range parse parser_built).
Local Abbreviation table := EXTENSION_TO_TREE_SITTER_LANGUAGE.

(** The splitter the cache stands for, for a language. *)
Local Abbreviation chosen :=
  (fun (language : string) (cache : list (string * CodeSplitter)) =>
     match get language cache with
     | Some splitter => splitter
     | None => default_splitter language
     end).

Lemma _get_code_splitter_ok file_path language cache :
  get (extension file_path) table = Some language ->
  exists cache',
    get_splitter file_path cache
    = (cache', Ok (match get language cache with
                   | Some splitter => splitter
                   | None => default_splitter language
                   end)).
Proof.
  intros Hext. unfold _get_code_splitter. rewrite Hext.
  destruct (get language cache); eauto.
Qed.

(** X21.  One splitter per language: once [_get_code_splitter] has been
    called for a file, a call for any file of the same language returns
    the same result and leaves the cache as it is. *)
Theorem _get_code_splitter_cached file_path other language cache :
  get (extension file_path) table = Some language ->
  get (extension other) table = Some language ->
  get_splitter other (fst (get_splitter file_path cache))
  = get_splitter file_path cache.
Proof.
  intros Hext Hother. unfold _get_code_splitter. rewrite Hext, Hother.
  destruct (get language cache) as [splitter|] eqn:Hc; cbn [fst].
  - by rewrite Hc.
  - by rewrite get_set_eq.
Qed.


(** *** [index_files] *)

Lemma _get_code_splitter_keeps file_path cache language :
  chosen language (fst (get_splitter file_path cache)) = chosen language cache.
Proof.
  unfold _get_code_splitter.
  destruct (get (extension file_path) table) as [found|]; [|done].
  destruct (get found cache) as [splitter|] eqn:Hc; cbn [fst]; [done|].
  destruct (String.eqb_spec found language) as [<-|Hne].
  - by rewrite get_set_eq, Hc.
  - by rewrite get_set_ne.
Qed.

Lemma make_bulk_points_numbered fs tree idx file_path chunks :
  Forall (fun p : Point => numbered_id (id p))
    (imap (make_bulk_point sparse_embed dense_embed fs tree idx file_path) chunks).
Proof.
  apply List.Forall_forall. intros p Hp. apply list_elem_of_In in Hp.
  apply elem_of_lookup_imap in Hp as (i & chunk & -> & _).
  by exists idx, i.
Qed.

(** One round of the loop of [index_files]: the cache stands for the same
    splitters afterwards, and the points are the points before followed by
    points with numbered ids. *)
Lemma index_loop_step fs tree idx file_path rest cache (points : list Point) :
  exists cache' more,
    bulk_loop fs tree idx (file_path :: rest) cache points
    = bulk_loop fs tree (S idx) rest cache' (points ++ more)
    /\ (forall language, chosen language cache' = chosen language cache)
    /\ Forall (fun p : Point => numbered_id (id p)) more.
Proof.
  cbn [index_loop].
  destruct (negb (mem (extension file_path) table)).
  { exists cache, []. rewrite app_nil_r. by repeat split. }
  pose proof (_get_code_splitter_keeps file_path cache) as Hkeeps.
  destruct (get_splitter file_path cache) as [cache' got]. cbn [fst] in Hkeeps.
  destruct got as [splitter|e];
    [|exists cache', []; rewrite app_nil_r; by repeat split].
  destruct (fs_lookup fs file_path) as [[content|entries]|];
    [|exists cache', []; rewrite app_nil_r; by repeat split
     |exists cache', []; rewrite app_nil_r; by repeat split].
  destruct (split splitter content) as [chunks|e];
    [|exists cache', []; rewrite app_nil_r; by repeat split].
  exists cache', (imap (make_bulk_point sparse_embed dense_embed fs tree idx file_path)
                    chunks).
  split; [done|]. split; [done|]. apply make_bulk_points_numbered.
Qed.

Lemma index_loop_grows fs tree files :
  forall idx cache (points : list Point),
    exists more,
      snd (bulk_loop fs tree idx files cache points) = points ++ more
      /\ Forall (fun p : Point => numbered_id (id p)) more.
Proof.
  induction files as [|file_path rest IH]; intros idx cache points.
  - exists []. by rewrite app_nil_r.
  - destruct (index_loop_step fs tree idx file_path rest cache points)
      as (cache' & more & -> & _ & Hmore).
    destruct (IH (S idx) cache' (points ++ more)) as (later & -> & Hlater).
    exists (more ++ later). rewrite app_assoc. split; [done|].
    by apply Forall_app.
Qed.

Lemma index_loop_collects fs tree files file_path content language chunks cache0 :
  file_path ∈ files ->
  get (extension file_path) table = Some language ->
  fs_lookup fs file_path = Some (FsFile content) ->
  split (chosen language cache0) content = Ok chunks -> chunks <> [] ->
  forall idx cache (points : list Point),
    (forall language, chosen language cache = chosen language cache0) ->
    exists more,
      more <> []
      /\ snd (bulk_loop fs tree idx files cache points) = points ++ more
      /\ Forall (fun p : Point => numbered_id (id p)) more.
Proof.
  intros Hin Hext Hfile Hsplit Hchunks.
  induction files as [|head rest IH]; intros idx cache points Hcache;
    [by inversion Hin|].
  apply elem_of_cons in Hin as [<-|Hin].
  - cbn [index_loop]. unfold mem. rewrite Hext. cbn [negb].
    destruct (_get_code_splitter_ok file_path language cache Hext) as [cache' ->].
    rewrite Hfile. cbv beta in Hcache. rewrite (Hcache language), Hsplit.
    destruct (index_loop_grows fs tree rest (S idx) cache'
                (points ++ imap (make_bulk_point sparse_embed dense_embed fs tree idx
                                   file_path) chunks))
      as (later & -> & Hlater).
    exists (imap (make_bulk_point sparse_embed dense_embed fs tree idx file_path) chunks
            ++ later).
    split; [by destruct chunks|]. rewrite app_assoc. split; [done|].
    apply Forall_app. split; [apply make_bulk_points_numbered|done].
  - destruct (index_loop_step fs tree idx head rest cache points)
      as (cache' & more & -> & Hkeeps & Hmore).
    destruct (IH Hin (S idx) cache' (points ++ more)) as (later & Hlater & -> & Hall).
    { intros l. by rewrite Hkeeps, Hcache. }
    exists (more ++ later). split; [by destruct more|].
    rewrite app_assoc. split; [done|]. by apply Forall_app.
Qed.


(** *** The fusion never divides by zero *)

Lemma Forall_values_set {V} (P : V -> Prop) k v (d : list (string * V)) :
  P v -> Forall P (values d) -> Forall P (values (set k v d)).
Proof.
  intros Hv. induction d as [|[k' v'] d IH]; simpl; intros Hd.
  - by constructor.
  - apply Forall_cons in Hd as [Hv' Hd].
    destruct (String.eqb k k'); simpl; constructor; auto.
Qed.

Lemma Forall_values_get {V} (P : V -> Prop) k v (d : list (string * V)) :
  Forall P (values d) -> get k d = Some v -> P v.
Proof.
  induction d as [|[k' v'] d IH]; simpl; [done|].
  intros [Hv' Hd]%Forall_cons. destruct (String.eqb k k'); [by intros [= <-]|auto].
Qed.

Local Abbreviation ranked_from_one :=
  (fun item : Item => from_one (dense_rank item) /\ from_one (sparse_rank item)).

Lemma dense_pass_from_one results :
  forall rank (ranks : list (string * Item)),
    1 <= rank -> Forall ranked_from_one (values ranks) ->
    Forall ranked_from_one (values (dense_pass rank results ranks)).
Proof.
  induction results as [|r rest IH]; intros rank ranks Hrank Hall; [done|].
  cbn [dense_pass]. apply IH; [lia|].
  destruct (get (id r) ranks) as [item|] eqn:Hget.
  - apply Forall_values_set; [|done].
    destruct (Forall_values_get _ _ _ _ Hall Hget). by split.
  - apply Forall_values_set; [|done]. by split.
Qed.

Lemma sparse_pass_from_one results :
  forall rank (ranks : list (string * Item)),
    1 <= rank -> Forall ranked_from_one (values ranks) ->
    Forall ranked_from_one (values (sparse_pass rank results ranks)).
Proof.
  induction results as [|r rest IH]; intros rank ranks Hrank Hall; [done|].
  cbn [sparse_pass]. apply IH; [lia|].
  destruct (get (id r) ranks) as [item|] eqn:Hget.
  - apply Forall_values_set; [|done].
    destruct (Forall_values_get _ _ _ _ Hall Hget). by split.
  - apply Forall_values_set; [|done]. by split.
Qed.

Lemma reciprocal_from_one (alpha : Q) (r : Rank) :
  (-1 < alpha)%Q -> from_one r -> exists q, reciprocal alpha r = Ok q.
Proof.
  intros Halpha Hr. destruct r as [n|]; simpl; [|eauto].
  destruct (Qeq_bool (alpha + inject_Z n) 0) eqn:E; [|eauto].
  apply Qeq_bool_iff in E. simpl in Hr. rewrite Zle_Qle in Hr.
  change (inject_Z 1) with 1%Q in Hr. lra.
Qed.

Lemma score_all_from_one (alpha : Q) (items : list Item) :
  (-1 < alpha)%Q -> Forall ranked_from_one items ->
  exists scores, score_all alpha items = Ok scores.
Proof.
  intros Halpha. induction 1 as [|item items [Hd Hs] _ [scores IH]]; [by eexists|].
  cbn [score_all]. unfold rrf_score.
  destruct (reciprocal_from_one alpha _ Halpha Hd) as [d ->].
  destruct (reciprocal_from_one alpha _ Halpha Hs) as [s ->].
  cbn. rewrite IH. cbn. eauto.
Qed.

(** X24.  [_combine_results] returns for every two result lists, with or
    without repeated ids, as long as [alpha] is above -1: the ranks start
    at 1, so no denominator is zero.  With the [alpha = 60] of [search]
    it takes [alpha = -1] or below to make it raise. *)
Theorem _combine_results_total (dense sparse : list Point) (alpha : Q) :
  (-1 < alpha)%Q ->
  exists combined, _combine_results dense sparse alpha = Ok combined.
Proof.
  intros Halpha. unfold _combine_results.
  destruct (score_all_from_one alpha
              (values (sparse_pass 1 sparse (dense_pass 1 dense []))) Halpha)
    as [scores ->].
  - apply sparse_pass_from_one; [lia|]. apply dense_pass_from_one; [lia|].
    constructor.
  - cbn. eauto.
Qed.

End index_facts.

Lemma _get_code_splitter_cached_witness :
  hybrid_search._get_code_splitter python_only ["n.py"]
    (fst (hybrid_search._get_code_splitter python_only ["m.py"] []))
  = hybrid_search._get_code_splitter python_only ["m.py"] [].
Proof.
  apply (_get_code_splitter_cached python_only ["m.py"] ["n.py"] "python" []);
    reflexivity.
Defined.



Lemma _combine_results_total_witness :
  exists combined,
    hybrid_search._combine_results [point_a; point_a] [point_b; point_a] 60
    = Ok combined.
Proof.
  apply (_combine_results_total [point_a; point_a] [point_b; point_a] 60).
  vm_compute. reflexivity.
Defined.

(** ** The event handler: which events count, what a flush does, what a
    sequence of events can and cannot cause *)

Section handler_facts.
Import watcher.
Context {Searcher : Type}.
Variable update_index : FsEntry -> Path -> Searcher -> Searcher * result unit.
Variable EXTENSION_TO_TREE_SITTER_LANGUAGE : list (string * string).

Local Abbreviation Handler := (CodeIndexEventHandler Searcher).
Local Abbreviation table := EXTENSION_TO_TREE_SITTER_LANGUAGE.
Local Abbreviation handle := (dispatch update_index EXTENSION_TO_TREE_SITTER_LANGUAGE).
Local Abbreviation deliver :=
  (deliver_all update_index EXTENSION_TO_TREE_SITTER_LANGUAGE).
Local Abbreviation recognised :=
  (_should_process_file EXTENSION_TO_TREE_SITTER_LANGUAGE).
Local Abbreviation schedule := (_schedule_update update_index).
Local Abbreviation process := (_process_updates update_index).

(** What [dispatch] does with an event, by cases. *)
Lemma dispatch_cases (d : Delivery) (self : Handler) :
  handle (event_type d) (disk d) (clock d) (delivered d) self
  = if decide (event_type d = deleted) then (self, [])
    else if is_directory (delivered d) then (self, [])
    else if recognised (target d) then schedule (disk d) (clock d) (target d) self
    else (self, []).
Proof.
  unfold target. destruct d as [ty fs now event]. cbn.
  destruct ty; cbn; unfold on_created, on_modified, on_moved, on_deleted;
    by destruct (is_directory event).
Qed.

(** X25.  Events the handler ignores: a deletion, an event on a
    directory, an event on a path whose extension is not in the table.
    They leave the handler as it is and cause no call of [update_index];
    in particular the chunks of a deleted file stay in the index. *)
Theorem dispatch_ignores (d : Delivery) (self : Handler) :
  event_type d = deleted
  \/ is_directory (delivered d) = true
  \/ _should_process_file table (target d) = false ->
  dispatch update_index table (event_type d) (disk d) (clock d) (delivered d) self
  = (self, []).
Proof.
  intros H. rewrite dispatch_cases.
  destruct (decide (event_type d = deleted)); [done|].
  destruct (is_directory (delivered d)); [done|].
  destruct (recognised (target d)); [|done].
  by destruct H as [?|[?|?]].
Qed.

(** X26.  [_process_updates] invokes [update_index] once for every pending
    path and for nothing else, each invocation on the searcher the one
    before left, whatever the invocations return or raise: the searcher
    afterwards is the searcher after these invocations.  Afterwards no
    path is pending, and the timer and the delay are what they were. *)
Theorem _process_updates_once fs (self : Handler) :
  let after := _process_updates update_index fs self in
  let paths := elements (pending_updates self) in
  searcher (fst after) = invoke_each update_index fs paths (searcher self)
  /\ snd after = paths
  /\ NoDup paths
  /\ (forall p, p ∈ paths <-> p ∈ pending_updates self)
  /\ pending_updates (fst after) = ∅
  /\ _debounce_timer (fst after) = _debounce_timer self
  /\ _debounce_delay (fst after) = _debounce_delay self.
Proof.
  intros after paths. subst after paths. unfold _process_updates.
  rewrite update_each_eq.
  cbn [fst snd searcher pending_updates _debounce_timer _debounce_delay].
  split; [done|]. split; [done|]. split; [apply NoDup_elements|].
  split; [|done]. intros p. apply elem_of_elements.
Qed.

Lemma schedule_cases fs now file_path (self : Handler) :
  let after := schedule fs now file_path self in
  _debounce_delay (fst after) = _debounce_delay self
  /\ ((flush_due now self = true
       /\ snd after = elements ({[file_path]} ∪ pending_updates self)
       /\ pending_updates (fst after) = ∅
       /\ _debounce_timer (fst after) = Some now)
      \/ (flush_due now self = false
          /\ snd after = []
          /\ pending_updates (fst after) = {[file_path]} ∪ pending_updates self
          /\ _debounce_timer (fst after) = _debounce_timer self)).
Proof.
  intros after. subst after. destruct (flush_due now self) eqn:Hdue.
  - destruct (_schedule_update_flush update_index fs now file_path self Hdue)
      as (H1 & H2 & H3 & H4).
    split; [done|]. by left.
  - rewrite (_schedule_update_hold update_index fs now file_path self Hdue).
    split; [done|]. by right.
Qed.

(** One event: the calls it causes and the paths pending after it are
    recognised paths taken from the paths pending before it and the path
    of the event; a path pending before it is called or still pending. *)
Lemma dispatch_step (d : Delivery) (self : Handler) :
  let after := handle (event_type d) (disk d) (clock d) (delivered d) self in
  (forall p, p ∈ snd after \/ p ∈ pending_updates (fst after) ->
     p ∈ pending_updates self \/ (p = target d /\ recognised p = true))
  /\ (forall p, p ∈ pending_updates self ->
        p ∈ snd after \/ p ∈ pending_updates (fst after))
  /\ (event_type d <> deleted -> is_directory (delivered d) = false ->
      recognised (target d) = true ->
      target d ∈ snd after \/ target d ∈ pending_updates (fst after)).
Proof.
  intros after. subst after. rewrite dispatch_cases.
  destruct (decide (event_type d = deleted)) as [Hdel|Hdel].
  { split; [|split]; cbn [fst snd]; [| |done].
    - intros p [Hp|Hp]; [by inversion Hp|by left].
    - intros p Hp. by right. }
  destruct (is_directory (delivered d)).
  { split; [|split]; cbn [fst snd]; [| |done].
    - intros p [Hp|Hp]; [by inversion Hp|by left].
    - intros p Hp. by right. }
  destruct (recognised (target d)) eqn:Hrec.
  2:{ split; [|split]; cbn [fst snd]; [| |done].
      - intros p [Hp|Hp]; [by inversion Hp|by left].
      - intros p Hp. by right. }
  destruct (schedule_cases (disk d) (clock d) (target d) self)
    as [_ [(_ & Hcalls & Hpending & _)|(_ & Hcalls & Hpending & _)]];
    rewrite Hcalls, Hpending.
  - split; [|split].
    + intros p [Hp|Hp]; [|by apply elem_of_empty in Hp].
      apply elem_of_elements, elem_of_union in Hp as [Hp|Hp]; [|by left].
      apply elem_of_singleton in Hp. subst p. by right.
    + intros p Hp. left. apply elem_of_elements, elem_of_union. by right.
    + intros _ _ _. left. apply elem_of_elements, elem_of_union. left.
      by apply elem_of_singleton.
  - split; [|split].
    + intros p [Hp|Hp]; [by inversion Hp|].
      apply elem_of_union in Hp as [Hp|Hp]; [|by left].
      apply elem_of_singleton in Hp. subst p. by right.
    + intros p Hp. right. apply elem_of_union. by right.
    + intros _ _ _. right. apply elem_of_union. left. by apply elem_of_singleton.
Qed.

Lemma deliver_all_cons (d : Delivery) events (self : Handler) :
  let after := handle (event_type d) (disk d) (clock d) (delivered d) self in
  deliver (d :: events) self
  = (fst (deliver events (fst after)), snd after ++ snd (deliver events (fst after))).
Proof.
  cbn [deliver_all].
  destruct (handle (event_type d) (disk d) (clock d) (delivered d) self)
    as [self' calls].
  cbn [fst snd]. by destruct (deliver events self') as [self'' later].
Qed.

(** X27.  Whatever events arrive, in whatever order and at whatever times,
    [update_index] is only ever called on paths with an extension of the
    table, and only such paths are left pending, provided none of the
    paths pending at the start is of another kind (none is pending in a
    new handler). *)
Theorem deliver_all_recognised events :
  forall self : Handler,
    let after := deliver_all update_index table events self in
    (forall p, p ∈ pending_updates self -> _should_process_file table p = true) ->
    (forall p, p ∈ snd after -> _should_process_file table p = true)
    /\ (forall p, p ∈ pending_updates (fst after) ->
          _should_process_file table p = true).
Proof.
  induction events as [|d events IH]; intros self after Hself; subst after.
  - split; [|done]. intros p Hp. by inversion Hp.
  - rewrite deliver_all_cons. cbn [fst snd].
    destruct (dispatch_step d self) as (Hfrom & _ & _).
    assert (Hstep : forall p,
              p ∈ snd (handle (event_type d) (disk d) (clock d) (delivered d) self)
              \/ p ∈ pending_updates
                     (fst (handle (event_type d) (disk d) (clock d) (delivered d) self))
              -> recognised p = true).
    { intros p [Hp|[-> Hp]]%Hfrom; [by apply Hself|done]. }
    destruct (IH (fst (handle (event_type d) (disk d) (clock d) (delivered d) self)))
      as [Hcalls Hpending].
    { intros p Hp. apply Hstep. by right. }
    split; [|done]. intros p [Hp|Hp]%elem_of_app; [|by apply Hcalls].
    apply Hstep. by left.
Qed.

Lemma deliver_all_keeps events :
  forall (self : Handler) p,
    p ∈ pending_updates self ->
    p ∈ snd (deliver events self) \/ p ∈ pending_updates (fst (deliver events self)).
Proof.
  induction events as [|d events IH]; intros self p Hp; [by right|].
  rewrite deliver_all_cons. cbn [fst snd].
  destruct (dispatch_step d self) as (_ & Hkeep & _).
  destruct (Hkeep p Hp) as [Hcall|Hpending].
  - left. apply elem_of_app. by left.
  - destruct (IH _ p Hpending) as [?|?]; [|by right].
    left. apply elem_of_app. by right.
Qed.

Lemma invoke_all_app (first later : list (FsEntry * Path)) (s : Searcher) :
  invoke_all update_index (first ++ later) s
  = invoke_all update_index later (invoke_all update_index first s).
Proof. unfold invoke_all. apply fold_left_app. Qed.

(** One event: the invocations it causes are real, all on the directory
    tree the event came with. *)
Lemma dispatch_trace (d : Delivery) (self : Handler) :
  let after := handle (event_type d) (disk d) (clock d) (delivered d) self in
  searcher (fst after)
  = invoke_all update_index (map (fun p => (disk d, p)) (snd after)) (searcher self).
Proof.
  intros after. subst after. rewrite dispatch_cases.
  destruct (decide (event_type d = deleted)); [done|].
  destruct (is_directory (delivered d)); [done|].
  destruct (recognised (target d)); [|done].
  destruct (flush_due (clock d) self) eqn:Hdue.
  - by rewrite (_schedule_update_flush_eq update_index _ _ _ self Hdue).
  - by rewrite (_schedule_update_hold update_index _ _ _ self Hdue).
Qed.

Lemma deliver_all_trace events :
  forall self : Handler,
    exists trace,
      searcher (fst (deliver events self))
      = invoke_all update_index trace (searcher self)
      /\ map snd trace = snd (deliver events self)
      /\ Forall (fun call => exists d, d ∈ events /\ fst call = disk d) trace.
Proof.
  induction events as [|d events IH]; intros self.
  - exists []. by repeat split.
  - rewrite deliver_all_cons. cbn [fst snd].
    pose proof (dispatch_trace d self) as Hfirst. cbv zeta in Hfirst.
    destruct (IH (fst (handle (event_type d) (disk d) (clock d) (delivered d) self)))
      as (later & Hsearcher & Hcalls & Hdisks).
    exists (map (fun p => (disk d, p))
              (snd (handle (event_type d) (disk d) (clock d) (delivered d) self))
            ++ later).
    split; [|split].
    + by rewrite invoke_all_app, <- Hfirst.
    + rewrite map_app, map_map, Hcalls. cbn [snd]. by rewrite map_id.
    + apply Forall_app. split.
      * apply List.Forall_forall. intros call Hcall.
        apply in_map_iff in Hcall as (p & <- & _). exists d. split; [left|done].
      * eapply Forall_impl; [exact Hdisks|]. intros call (d' & Hd' & ->).
        exists d'. split; [by right|done].
Qed.

Lemma deliver_all_reaches events :
  forall (self : Handler) d,
    d ∈ events ->
    event_type d <> deleted -> is_directory (delivered d) = false ->
    recognised (target d) = true ->
    target d ∈ snd (deliver events self)
    \/ target d ∈ pending_updates (fst (deliver events self)).
Proof.
  induction events as [|d0 events IH]; intros self d Hd Hty Hdir Hrec;
    [by inversion Hd|].
  rewrite deliver_all_cons. cbn [fst snd].
  apply elem_of_cons in Hd as [->|Hd].
  - destruct (dispatch_step d0 self) as (_ & _ & Hnew).
    destruct (Hnew Hty Hdir Hrec) as [Hcall|Hpending].
    + left. apply elem_of_app. by left.
    + destruct (deliver_all_keeps events _ _ Hpending) as [?|?]; [|by right].
      left. apply elem_of_app. by right.
  - destruct (IH (fst (handle (event_type d0) (disk d0) (clock d0) (delivered d0) self))
                d Hd Hty Hdir Hrec) as [?|?]; [|by right].
    left. apply elem_of_app. by right.
Qed.

(** X28.  No update is lost.  The searcher after a sequence of events is
    the searcher after a sequence of invocations of [update_index], each
    on the directory tree of one of the events; and for every event of the
    sequence that is not a deletion, not on a directory and on a path with
    an extension of the table, that path is among these invocations, or
    is still pending at the end. *)
Theorem deliver_all_no_loss events :
  forall self : Handler,
    let after := deliver_all update_index table events self in
    exists trace,
      searcher (fst after) = invoke_all update_index trace (searcher self)
      /\ map snd trace = snd after
      /\ Forall (fun call => exists d, d ∈ events /\ fst call = disk d) trace
      /\ forall d,
           d ∈ events ->
           event_type d <> deleted -> is_directory (delivered d) = false ->
           _should_process_file table (target d) = true ->
           target d ∈ map snd trace \/ target d ∈ pending_updates (fst after).
Proof.
  intros self after. subst after.
  destruct (deliver_all_trace events self) as (trace & Hsearcher & Hcalls & Hdisks).
  exists trace. split; [done|]. split; [done|]. split; [done|].
  intros d Hd Hty Hdir Hrec. rewrite Hcalls. by apply deliver_all_reaches.
Qed.

(** X29.  After a flush at time [t], events that arrive less than the
    delay later cause no call of [update_index], however many they are:
    their paths are only added to the pending set, and the timer stays at
    [t].  Nothing but a later event or [process_pending_updates] flushes
    them. *)
Theorem deliver_all_within_delay events :
  forall (self : Handler) t,
    let after := deliver_all update_index table events self in
    _debounce_timer self = Some t ->
    (forall d, d ∈ events -> (clock d - t < _debounce_delay self)%Q) ->
    snd after = []
    /\ _debounce_timer (fst after) = Some t
    /\ pending_updates self ⊆ pending_updates (fst after).
Proof.
  induction events as [|d events IH]; intros self t after Htimer Hclock;
    subst after; [done|].
  rewrite deliver_all_cons. cbn [fst snd].
  assert (Hstep :
    snd (handle (event_type d) (disk d) (clock d) (delivered d) self) = []
    /\ _debounce_timer (fst (handle (event_type d) (disk d) (clock d) (delivered d) self))
       = Some t
    /\ _debounce_delay (fst (handle (event_type d) (disk d) (clock d) (delivered d) self))
       = _debounce_delay self
    /\ pending_updates self
       ⊆ pending_updates
           (fst (handle (event_type d) (disk d) (clock d) (delivered d) self))).
  { rewrite dispatch_cases.
    destruct (decide (event_type d = deleted)); [done|].
    destruct (is_directory (delivered d)); [done|].
    destruct (recognised (target d)); [|done].
    assert (Hdue : flush_due (clock d) self = false).
    { unfold flush_due. rewrite Htimer.
      destruct (Qle_bool (_debounce_delay self) (clock d - t)) eqn:E; [|done].
      apply Qle_bool_iff in E. specialize (Hclock d ltac:(left)). lra. }
    rewrite (_schedule_update_hold update_index _ _ _ self Hdue).
    cbn [fst snd _debounce_timer _debounce_delay pending_updates].
    split; [done|]. split; [done|]. split; [done|].
    intros p Hp. apply elem_of_union. by right. }
  destruct Hstep as (Hcalls & Htimer' & Hdelay & Hsub).
  destruct (IH _ t Htimer') as (Hlater & Hlast & Hsub').
  { intros d' Hd'. rewrite Hdelay. apply Hclock. by right. }
  rewrite Hcalls, Hlater. split; [done|]. split; [done|].
  intros p Hp. by apply Hsub', Hsub.
Qed.

End handler_facts.

Lemma dispatch_ignores_witness :
  let event := watcher.mkEvent false ["m.py"] [] in
  watcher.dispatch idle_update python_only watcher.deleted module_after 0%Q event
    (watcher.init tt)
  = (watcher.init tt, []).
Proof.
  intros event.
  apply (dispatch_ignores idle_update python_only
           (watcher.mkDelivery watcher.deleted module_after 0%Q event)
           (watcher.init tt)).
  left. reflexivity.
Defined.

Lemma deliver_all_recognised_witness :
  let events :=
    [ watcher.mkDelivery watcher.created module_after 0%Q
        (watcher.mkEvent false ["m.py"] []);
      watcher.mkDelivery watcher.modified module_after 5%Q
        (watcher.mkEvent false ["notes.txt"] []) ] in
  let after := watcher.deliver_all idle_update python_only events (watcher.init tt) in
  (forall p, p ∈ snd after -> watcher._should_process_file python_only p = true)
  /\ (forall p, p ∈ watcher.pending_updates (fst after) ->
        watcher._should_process_file python_only p = true).
Proof.
  intros events after.
  apply (deliver_all_recognised idle_update python_only events (watcher.init tt)).
  intros p Hp. simpl in Hp. by apply elem_of_empty in Hp.
Defined.

Lemma deliver_all_within_delay_witness :
  let event := watcher.mkEvent false ["m.py"] [] in
  let events :=
    [ watcher.mkDelivery watcher.modified module_after (1 # 10) event;
      watcher.mkDelivery watcher.created module_after (2 # 10) event ] in
  let self := watcher.mkHandler tt ∅ (Some 0%Q) 1%Q in
  let after := watcher.deliver_all idle_update python_only events self in
  snd after = []
  /\ watcher._debounce_timer (fst after) = Some 0%Q
  /\ watcher.pending_updates self ⊆ watcher.pending_updates (fst after).
Proof.
  intros event events self after.
  apply (deliver_all_within_delay idle_update python_only events self 0%Q).
  - reflexivity.
  - intros d Hd. apply elem_of_cons in Hd as [->|Hd].
    + vm_compute. reflexivity.
    + apply list_elem_of_singleton in Hd as ->. vm_compute. reflexivity.
Defined.

(** ** The line numbers in the metadata of the chunks *)

Section line_number_facts.
Variable count : string -> Z.
Variable descendant_for_byte_range : Node -> Z -> Z -> option Node.
Variable self : CodeSplitter.
Variable source_code : string.

Local Abbreviation buffer_len := (Z.of_nat (String.length source_code)).
Local Abbreviation pass1 := (chunk_node count self source_code).
Local Abbreviation chunker :=
  (chunk_tree count descendant_for_byte_range self source_code).

Lemma get_line_number_loop_lower lines :
  forall line_number total index,
    line_number - 1 <= get_line_number_loop lines line_number total index.
Proof.
  induction lines as [|line rest IH]; intros line_number total index;
    cbn [get_line_number_loop]; [lia|].
  destruct (_ >? _); [lia|]. destruct rest as [|next rest]; [lia|].
  specialize (IH (line_number + 1) (total + Z.of_nat (String.length line)) index).
  lia.
Qed.

Lemma get_line_number_loop_mono lines :
  forall line_number total i j,
    i <= j ->
    get_line_number_loop lines line_number total i
    <= get_line_number_loop lines line_number total j.
Proof.
  induction lines as [|line rest IH]; intros line_number total i j Hij;
    cbn [get_line_number_loop]; [lia|].
  destruct (Z.gtb_spec (total + Z.of_nat (String.length line)) i),
           (Z.gtb_spec (total + Z.of_nat (String.length line)) j); try lia.
  - destruct rest as [|next rest]; [lia|].
    pose proof (get_line_number_loop_lower (next :: rest) (line_number + 1)
                  (total + Z.of_nat (String.length line)) j).
    lia.
  - destruct rest as [|next rest]; [lia|]. by apply IH.
Qed.

Lemma covers_forward lo hi (l : list Span) :
  covers lo hi l -> Forall (fun sp => start sp <= end_ sp) l.
Proof.
  revert lo. induction l as [|sp l IH]; intros lo; [constructor|].
  intros (_ & Hsp & Hrest). constructor; [done|]. by apply (IH (end_ sp)).
Qed.

(** X30.  In the metadata of every chunk [chunk_tree] returns (for a
    well-formed parse tree inside the buffer) the language is the
    splitter's, the start line is not negative, and the end line is not
    before the start line. *)
Theorem chunk_tree_lines_ordered tree out :
  well_formed tree = true ->
  0 <= start_byte tree -> end_byte tree <= buffer_len ->
  chunker tree = Ok out ->
  Forall (fun chunk =>
            language (snd chunk) = cs_language self
            /\ 0 <= start_line (snd chunk) <= end_line (snd chunk)) out.
Proof.
  intros Hwf Hlo Hhi Hout.
  destruct (pass1 tree) as [chunks|e] eqn:Hp;
    [|unfold chunk_tree in Hout; by rewrite Hp in Hout].
  pose proof (chunk_node_ordered _ _ _ _ _ Hwf Hp) as Hord.
  pose proof (filter_nonempty_ordered _ _ _ Hord) as Hfilter.
  destruct (filter nonempty chunks) as [|c1 [|c2 rest]] eqn:Hk.
  - unfold chunk_tree in Hout. rewrite Hp in Hout. cbn in Hout.
    rewrite Hfilter in Hout. cbn in Hout. injection Hout as <-. constructor.
  - unfold chunk_tree in Hout. rewrite Hp in Hout. cbn in Hout.
    rewrite Hfilter in Hout. cbn in Hout.
    destruct (len c1) as [n|e]; [|done]. cbn in Hout. injection Hout as <-.
    constructor; [|constructor]. cbn. split; [done|lia].
  - destruct (chunk_tree_spans count descendant_for_byte_range self source_code
                tree chunks Hwf Hlo Hhi Hp)
      as (new_chunks & Hnew & Hcov & _); [rewrite Hk; simpl; lia|].
    rewrite Hnew in Hout. injection Hout as <-.
    apply covers_forward in Hcov. apply Forall_map.
    eapply Forall_impl; [exact Hcov|]. intros sp Hsp. unfold decorate.
    destruct (descendant_for_byte_range tree (start sp) (end_ sp));
      cbn [snd language start_line end_line]; (split; [done|]);
      unfold get_line_number;
      pose proof (get_line_number_loop_lower (split_and_keep_newline source_code)
                    1 0 (start sp));
      pose proof (get_line_number_loop_mono (split_and_keep_newline source_code)
                    1 0 (start sp) (end_ sp) Hsp); lia.
Qed.

End line_number_facts.

Lemma chunk_tree_lines_ordered_witness :
  Forall (fun chunk =>
            language (snd chunk) = "python"
            /\ 0 <= start_line (snd chunk) <= end_line (snd chunk))
    [ (mkSpan 0 0, mkChunkMetadata 0 0 "python" [] []);
      (mkSpan 0 10, mkChunkMetadata 0 0 "python" [] []);
      (mkSpan 10 13, mkChunkMetadata 0 1 "python" [] []) ].
Proof.
  apply (chunk_tree_lines_ordered byte_count ts_descendant_for_byte_range
           strict_splitter gap_source gap_tree).
  - reflexivity.
  - simpl. lia.
  - simpl. lia.
  - vm_compute. reflexivity.
Defined.
